(** * Audio-reactive LED visualizer (Go package [audio]): model and verification

    The development embeds the functions of the package in Gallina and
    proves properties of the decoder, the spectral axis, the colour shaping,
    the temporal smoother, the segment distributor and the start/stop
    lifecycle.

    Conventions.
    - Go [int], [int32], [uint32], [uint8] values are integers [Z]; the
      wrap-around of each conversion, and of the [int] expression that
      squares its operands, is written out.  Lengths and LED counts are
      added and multiplied by 4 as integers.
    - Go [float64] values are Rocq's primitive binary64 floats: every
      operation rounds to nearest, ties to even, one operation at a time,
      as the compiled program does on amd64.  Where a theorem below
      evaluates a product that is then added, the product is exact, so a
      fused multiply-add would give the same value.
    - A run-time panic (index out of range, negative [make], slice bound
      out of range) is the result [Panic].
    - Functions of third-party packages (gonum FFT and window,
      piecewiselinear, go-colorful) are fields of the class [Libraries]. *)

From Stdlib Require Import ZArith List Bool Lia Floats.
From Stdlib Require Uint63.
Import ListNotations.
Open Scope Z_scope.

(** ** Run-time results *)

Inductive result (A : Type) : Type :=
| Ok (a : A)
| Panic.
Arguments Ok {A} a.
Arguments Panic {A}.

Definition bind {A B : Type} (c : result A) (k : A -> result B) : result B :=
  match c with
  | Ok a => k a
  | Panic => Panic
  end.

Notation "x <- c ;; k" := (bind c (fun x => k))
  (at level 61, c at next level, right associativity).

(** ** Integer and floating-point conversions *)

Definition byte := Z.

Definition uint8 (z : Z) : byte := z mod 256.
Definition uint32 (z : Z) : Z := z mod 2 ^ 32.
Definition int32 (z : Z) : Z :=
  let u := z mod 2 ^ 32 in if u <? 2 ^ 31 then u else u - 2 ^ 32.
(** Go's [int] is 64 bits wide on the platforms the program targets:
    [int64 z] is the value an [int] expression with exact value [z] has. *)
Definition int64 (z : Z) : Z := (z + 2 ^ 63) mod 2 ^ 64 - 2 ^ 63.

(** [float64(n)] for an integer [n] with [|n| < 2^63]: rounded to nearest. *)
Definition float64_of_int (z : Z) : float :=
  if z <? 0 then (- of_uint63 (Uint63.of_Z (- z)))%float
  else of_uint63 (Uint63.of_Z z).

(** Truncation toward zero of a finite float; [0] for NaN and infinities,
    where Go leaves the converted value to the implementation. *)
Definition truncate (f : float) : Z :=
  match Prim2SF f with
  | S754_finite s m e => cond_Zopp s (Z.shiftl (Zpos m) e)
  | _ => 0
  end.

(** [uint8(f)] for a [float64] [f]. *)
Definition uint8_of_float64 (f : float) : byte := uint8 (truncate f).

(** [make([]float64, n)]. *)
Definition make_float64 (n : Z) : result (list float) :=
  if n <? 0 then Panic else Ok (repeat 0%float (Z.to_nat n)).

Definition len {A : Type} (l : list A) : Z := Z.of_nat (length l).

(** ** Package [math] *)

Definition IsInf (f : float) (sign : Z) : bool :=
  if 0 <? sign then (f =? infinity)%float
  else if sign <? 0 then (f =? neg_infinity)%float
  else is_infinity f.

Definition math_Min (x y : float) : float :=
  if IsInf x (-1) || IsInf y (-1) then neg_infinity
  else if is_nan x || is_nan y then nan
  else if (x =? 0)%float && (x =? y)%float then (if get_sign x then x else y)
  else if (x <? y)%float then x else y.

Definition math_Max (x y : float) : float :=
  if IsInf x 1 || IsInf y 1 then infinity
  else if is_nan x || is_nan y then nan
  else if (x =? 0)%float && (x =? y)%float then (if get_sign x then y else x)
  else if (y <? x)%float then x else y.

(** [math.Pow(x, 0.5)]: the special cases of [Pow] in their order, then
    [Sqrt]. *)
Definition math_Pow_half (x : float) : float :=
  if (x =? 1)%float then 1%float
  else if is_nan x then nan
  else if (x =? 0)%float then 0%float
  else if IsInf x 0 then infinity
  else PrimFloat.sqrt x.

(** [math.Pow(x, 2)]: every special case of [Pow] agrees with the product,
    and the general case squares the mantissa once. *)
Definition math_Pow_2 (x : float) : float := (x * x)%float.

(** ** Frame decoder (startCapture, lines 243-247) *)

Definition readInt32 (b : list byte) : result Z :=
  match nth_error b 0, nth_error b 1, nth_error b 2, nth_error b 3 with
  | Some b0, Some b1, Some b2, Some b3 =>
      Ok (int32 (Z.lor (Z.lor (Z.lor (uint32 b0)
                                     (uint32 (Z.shiftl (uint32 b1) 8)))
                              (uint32 (Z.shiftl (uint32 b2) 16)))
                       (uint32 (Z.shiftl (uint32 b3) 24))))
  | _, _, _, _ => Panic
  end.

(** The loop [for i := 0; i < len(buf); i += 4], where [rest] is [buf[i:]]:
    the slice [buf[i:i+4]] needs four more bytes. *)
Fixpoint decode_from (rest : list byte) (samples : list float)
  : result (list float) :=
  match rest with
  | [] => Ok samples
  | b0 :: b1 :: b2 :: b3 :: rest' =>
      v <- readInt32 [b0; b1; b2; b3] ;;
      decode_from rest' (samples ++ [float64_of_int v])
  | _ => Panic
  end.

(** [samples := make([]float64, len(buf)/4)] followed by the appends. *)
Definition decode (buf : list byte) : result (list float) :=
  samples <- make_float64 (len buf / 4) ;;
  decode_from buf samples.

(** ** Warped axis and normalisation *)

(** The values of the counter of [for i := 0; i < n; i++]. *)
Fixpoint count_from (i : Z) (steps : nat) : list Z :=
  match steps with
  | O => []
  | S steps' => i :: count_from (i + 1) steps'
  end.

Definition indices (n : Z) : list Z := count_from 0 (Z.to_nat n).

Definition SpanLog (min max : float) (nPoints : Z) : result (list float) :=
  X <- make_float64 nPoints ;;
  let min' := math_Min max min in
  let max' := math_Max max min in
  let d := (max' - min')%float in
  Ok (map (fun i =>
             let v := (min' + d * (float64_of_int i / float64_of_int (nPoints - 1)))%float in
             math_Pow_half v)
          (indices (len X))).

Definition normalize (val min max : float) : float :=
  if (max =? min)%float then max else ((val - min) / (max - min))%float.

(** ** External libraries *)

Definition complex128 := (float * float)%type.

(** [image/color.Color], seen through its only method [RGBA()]. *)
Definition Color := (Z * Z * Z * Z)%type.
(** [colorful.Color]: linear R, G, B. *)
Definition ColorfulColor := (float * float * float)%type.

Class Libraries := {
  (** gonum [window.Hamming] *)
  window_Hamming : list float -> list float;
  (** gonum [fourier.NewFFT(len(seq)).Coefficients(nil, seq)] *)
  fft_Coefficients : list float -> list complex128;
  cmplx_Abs : complex128 -> float;
  (** [piecewiselinear.Function{X, Y}.At(x)] *)
  piecewiselinear_At : list float -> list float -> float -> float;
  colorful_MakeColor : Color -> ColorfulColor;
  colorful_Color_Hsv : ColorfulColor -> float * float * float;
  colorful_Hsv : float -> float -> float -> ColorfulColor;
  colorful_Color_RGBA : ColorfulColor -> Z * Z * Z * Z
}.

(** Modelled from the spec: package [ledctl3/pkg/gradient] is not part of
    the sources; the spec describes it as a pure, stateless lookup from a
    position to a colour, so a gradient is that lookup function. *)
Definition Gradient := float -> Color.
Definition GetInterpolatedColor (g : Gradient) (position : float) : Color :=
  g position.

(** ** The visualizer and the package-level variables *)

Record Segment := { Id : Z; Leds : Z }.

(** Package [visualizer]: the event sent on the output channel, with the
    fields the composite literals of [process] fill in.  The [Duration]
    field is wall-clock time and is left out. *)
Module visualizer.
Record Segment := { Id : Z; Pix : list byte }.
Record UpdateEvent := { Segments : list Segment }.
End visualizer.

(** The configuration and processing fields of [Visualizer]; the lifecycle
    fields [cancel] and [done] are in [Lifecycle] below. *)
Record Visualizer := {
  leds : Z;
  colors : list Color;
  segments : list Segment;
  maxLedCount : Z;
  processing : bool;
  gradient : Gradient;
  windowSize : Z
}.

Definition set_processing (b : bool) (v : Visualizer) : Visualizer :=
  {| leds := leds v; colors := colors v; segments := segments v;
     maxLedCount := maxLedCount v; processing := b;
     gradient := gradient v; windowSize := windowSize v |}.

(** [var pixs [][]byte] and [var it int]: one copy for the whole package. *)
Record Package := { pixs : list (list byte); it : Z }.

(** ** Temporal smoother (process, lines 494-521) *)

(** [pixs = append(pixs, pix); if len(pixs) > v.windowSize { pixs = pixs[1:] }] *)
Definition push_history (windowSize : Z) (pixs : list (list byte)) (pix : list byte)
  : list (list byte) :=
  let pixs := pixs ++ [pix] in
  if windowSize <? len pixs then tl pixs else pixs.

(** The [int] expression [(i+1)*(i+1) + len(pixs)*len(pixs)]. *)
Definition weight_int (i L : Z) : Z := int64 ((i + 1) * (i + 1) + L * L).

Definition weights (L : Z) : list float :=
  map (fun i => float64_of_int (weight_int i L)) (indices L).

Definition weightsTotal (ws : list float) : float :=
  fold_left (fun total w => (total + w)%float) ws 0%float.

(** The inner loop [for j, p := range p2 { pix2[j] = pix2[j] + float64(p)*w }]. *)
Fixpoint accumulate (pix2 : list float) (p2 : list byte) (w : float)
  : result (list float) :=
  match p2, pix2 with
  | [], _ => Ok pix2
  | p :: p2', x :: pix2' =>
      rest <- accumulate pix2' p2' w ;;
      Ok ((x + float64_of_int p * w)%float :: rest)
  | _ :: _, [] => Panic
  end.

(** The outer loop [for i, p2 := range pixs], with [ws] the weights from
    index [i] on. *)
Fixpoint weighted_sum (pixs : list (list byte)) (ws : list float) (pix2 : list float)
  : result (list float) :=
  match pixs, ws with
  | [], _ => Ok pix2
  | p2 :: pixs', w :: ws' =>
      pix2' <- accumulate pix2 p2 w ;;
      weighted_sum pixs' ws' pix2'
  | _ :: _, [] => Panic
  end.

(** [pix3]: the weighted average over the history, one float per byte of
    the newest frame [pix]. *)
Definition temporal_smoother (pixs : list (list byte)) (pix : list byte)
  : result (list float) :=
  let ws := weights (len pixs) in
  let total := weightsTotal ws in
  pix2 <- weighted_sum pixs ws (repeat 0%float (length pix)) ;;
  Ok (map (fun p => (p / total)%float) pix2).

(** ** Segment distributor (process, lines 523-560) *)

(** The loop [for i := 0; i < length; i += 4] with [steps] iterations left;
    [offset := i]. *)
Fixpoint fill_pix4 (steps : nat) (i : nat) (pix3 : list float) : result (list byte) :=
  match steps with
  | O => Ok []
  | S steps' =>
      let offset := i in
      match nth_error pix3 offset, nth_error pix3 (offset + 1),
            nth_error pix3 (offset + 2), nth_error pix3 (offset + 3) with
      | Some a, Some b, Some c, Some d =>
          rest <- fill_pix4 steps' (i + 4) pix3 ;;
          Ok (uint8_of_float64 a :: uint8_of_float64 b
              :: uint8_of_float64 c :: uint8_of_float64 d :: rest)
      | _, _, _, _ => Panic
      end
  end.

(** One iteration of [for _, seg := range v.segments]: [length := seg.Leds*4],
    an [int] product that wraps at 64 bits; [make([]uint8, length)], which
    panics on a negative length; the copy loop, which runs once for every
    [i] in 0, 4, 8, ... below [length]; and [pix4[:seg.Leds*4]], the whole
    of [pix4], the product being the same. *)
Definition segment_pix (seg : Segment) (pix3 : list float) : result (list byte) :=
  let length := int64 (Leds seg * 4) in
  if length <? 0 then Panic
  else fill_pix4 (Z.to_nat ((length + 3) / 4)) 0 pix3.

Fixpoint segment_distributor (segs : list Segment) (pix3 : list float)
  : result (list visualizer.Segment) :=
  match segs with
  | [] => Ok []
  | seg :: segs' =>
      pix <- segment_pix seg pix3 ;;
      rest <- segment_distributor segs' pix3 ;;
      Ok ({| visualizer.Id := Id seg; visualizer.Pix := pix |} :: rest)
  end.

(** ** Spectral analyzer and colour synthesizer (process, lines 362-492) *)

(** [val] as computed at lines 441 and 468-471. *)
Definition shaped_value (freq peak : float) : float :=
  let val := PrimFloat.sqrt (1 - math_Pow_2 (freq - 1))%float in
  let val := (math_Min (peak * 5) 1 * val)%float in
  let val := math_Min val 1 in
  let val := math_Max val 0 in
  (0.25 + val * 0.75)%float.

(** Lines 377-380: [if peak == 0 { for i := range freqs { freqs[i] = 0 } }]. *)
Definition silence_gate (peak : float) (freqs : list float) : list float :=
  if (peak =? 0)%float then map (fun _ => 0%float) freqs else freqs.

Section Pipeline.
Context {L : Libraries}.

(** Lines 362-374: the magnitudes of the first half of the coefficients
    and the largest of them. *)
Definition magnitudes (samples : list float) : list float * float :=
  let coeff := fft_Coefficients (window_Hamming samples) in
  let coeff := firstn (length coeff / 2)%nat coeff in
  fold_left (fun (acc : list float * float) c =>
               let (freqs, maxfreq) := acc in
               (freqs ++ [cmplx_Abs c],
                if (maxfreq <? cmplx_Abs c)%float then cmplx_Abs c else maxfreq))
            coeff ([], 0%float).

(** Lines 362-413: the [maxLedCount] values of the remapped spectrum. *)
Definition spectral_analyzer (v : Visualizer) (samples : list float) (peak : float)
  : result (list float) :=
  let (freqs, maxfreq) := magnitudes samples in
  let freqs := silence_gate peak freqs in
  let freqs := map (fun f => normalize f 0 maxfreq) freqs in
  X <- SpanLog 0 1 (len freqs) ;;
  let maxLeds := maxLedCount v in
  bins <- make_float64 maxLeds ;;
  Ok (map (fun i => piecewiselinear_At X freqs
                      (float64_of_int i / float64_of_int (maxLeds - 1))%float)
          (indices (len bins))).

(** Lines 431-491: the four bytes of one LED. *)
Definition pixel (v : Visualizer) (freq peak : float) : list byte :=
  let c := GetInterpolatedColor (gradient v) freq in
  let clr := colorful_MakeColor c in
  let '(hue, sat, _) := colorful_Color_Hsv clr in
  let val := shaped_value freq peak in
  let c := colorful_Hsv hue sat val in
  let '(r, g, b, _) := colorful_Color_RGBA c in
  let r := Z.shiftr (uint32 r) 8 in
  let g := Z.shiftr (uint32 g) 8 in
  let b := Z.shiftr (uint32 b) 8 in
  [uint8 r; uint8 g; uint8 b; 255].

Definition color_synthesizer (v : Visualizer) (freqs : list float) (peak : float)
  : list byte :=
  flat_map (fun freq => pixel v freq peak) freqs.

(** Lines 431-491 with the value component given: the four bytes of an LED
    whose colour has the hue and the saturation of the gradient colour at
    [freq] and the value [val]. *)
Definition pixel_at_value (v : Visualizer) (freq val : float) : list byte :=
  let c := GetInterpolatedColor (gradient v) freq in
  let clr := colorful_MakeColor c in
  let '(hue, sat, _) := colorful_Color_Hsv clr in
  let c := colorful_Hsv hue sat val in
  let '(r, g, b, _) := colorful_Color_RGBA c in
  let r := Z.shiftr (uint32 r) 8 in
  let g := Z.shiftr (uint32 g) 8 in
  let b := Z.shiftr (uint32 b) 8 in
  [uint8 r; uint8 g; uint8 b; 255].

(** The frame [pix] of one call. *)
Definition frame (v : Visualizer) (samples : list float) (peak : float)
  : result (list byte) :=
  freqs <- spectral_analyzer v samples peak ;;
  Ok (color_synthesizer v freqs peak).

(** ** process *)

(** Lines 333-340: the single-flight guard, under the mutex. *)
Definition enter (v : Visualizer) : option Visualizer :=
  if processing v then None else Some (set_processing true v).

(** The deferred function: the flag is cleared when [process] returns. *)
Definition leave (v : Visualizer) : Visualizer := set_processing false v.

(** Lines 348-566, run while the flag is set.  The energy [e] of lines
    348-355 is computed and never read, the terminal print of segment 0
    writes to standard output only; neither is modelled. *)
Definition run (v : Visualizer) (g : Package) (samples : list float) (peak : float)
  : result (Package * visualizer.UpdateEvent) :=
  pix <- frame v samples peak ;;
  let pixs' := push_history (windowSize v) (pixs g) pix in
  pix3 <- temporal_smoother pixs' pix ;;
  segs <- segment_distributor (segments v) pix3 ;;
  Ok ({| pixs := pixs'; it := it g + len segs |},
      {| visualizer.Segments := segs |}).

(** [process] returns the visualizer, the package variables and the event
    sent on [v.events], if any.  The consumer of the channel is outside the
    model: a send is taken to complete. *)
Definition process (v : Visualizer) (g : Package) (samples : list float) (peak : float)
  : result (Visualizer * Package * option visualizer.UpdateEvent) :=
  match enter v with
  | None => Ok (v, g, None)
  | Some v1 =>
      r <- run v1 g samples peak ;;
      Ok (leave v1, fst r, Some (snd r))
  end.

End Pipeline.

(** ** Start and Stop *)

(** The goroutine spawned by [Start]: it loops over capture sessions until
    its context is cancelled, then executes [v.done <- true] and returns. *)
Inductive supervisor := NotSpawned | Looping | Exited.

(** The lifecycle fields of [Visualizer]: whether [v.cancel] and [v.done]
    are non-nil, whether the context made by [Start] has been cancelled,
    and the state of the supervisor goroutine. *)
Record Lifecycle := {
  cancel : bool;
  done : bool;
  cancelled : bool;
  goroutine : supervisor
}.

Inductive outcome (A : Type) : Type :=
| Returns (a : A)
| BlocksForever.
Arguments Returns {A} a.
Arguments BlocksForever {A}.

(** [new(Visualizer)] leaves both fields nil. *)
Definition New : Lifecycle :=
  {| cancel := false; done := false; cancelled := false; goroutine := NotSpawned |}.

(** [v.cancel = cancel; v.done = make(chan bool); go func() {...}()]. *)
Definition Start (l : Lifecycle) : Lifecycle :=
  {| cancel := true; done := true; cancelled := false; goroutine := Looping |}.

(** [<-v.done].  A receive on a nil channel blocks forever.  On the
    unbuffered channel made by [Start] the receive completes when the
    supervisor sends, which it does once, after its context is cancelled;
    nothing else sends on the channel. *)
Definition receive_done (l : Lifecycle) : outcome Lifecycle :=
  if negb (done l) then BlocksForever
  else match goroutine l with
       | Looping =>
           if cancelled l
           then Returns {| cancel := cancel l; done := done l;
                           cancelled := cancelled l; goroutine := Exited |}
           else BlocksForever
       | NotSpawned | Exited => BlocksForever
       end.

(** [if v.cancel != nil { v.cancel(); v.cancel = nil }; <-v.done; return nil]. *)
Definition Stop (l : Lifecycle) : outcome Lifecycle :=
  let l := if cancel l
           then {| cancel := false; done := done l;
                   cancelled := true; goroutine := goroutine l |}
           else l in
  receive_done l.

(** ** The specification's wording, for comparison with the code *)

(** Bytes [[from, to)] of a frame. *)
Definition byte_range (bytes : list byte) (from to : Z) : list byte :=
  firstn (Z.to_nat (to - from)) (skipn (Z.to_nat from) bytes).

(** The distribution as the specification words it: every segment takes
    the range that starts where the previous segment's range ended. *)
Fixpoint contiguous_distribution (segs : list Segment) (offset : Z) (bytes : list byte)
  : list visualizer.Segment :=
  match segs with
  | [] => []
  | seg :: segs' =>
      {| visualizer.Id := Id seg;
         visualizer.Pix := byte_range bytes offset (offset + Leds seg * 4) |}
      :: contiguous_distribution segs' (offset + Leds seg * 4) bytes
  end.

(** The decoder as the specification words it: one sample per four bytes. *)
Fixpoint one_sample_per_word (buf : list byte) : result (list float) :=
  match buf with
  | [] => Ok []
  | b0 :: b1 :: b2 :: b3 :: rest =>
      v <- readInt32 [b0; b1; b2; b3] ;;
      samples <- one_sample_per_word rest ;;
      Ok (float64_of_int v :: samples)
  | _ => Panic
  end.

(** ** An executable instance of the external libraries

    No windowing, one coefficient per sample, a step function in place of
    the interpolation, and grey pixels whose level is the value component.
    It serves to run the pipeline on concrete inputs. *)
Definition demo_libraries : Libraries :=
  {| window_Hamming := fun seq => seq;
     fft_Coefficients := fun seq => map (fun s => (s, 0%float)) seq;
     cmplx_Abs := fun c => abs (fst c);
     piecewiselinear_At := fun _ Y _ => nth 0 Y 0%float;
     colorful_MakeColor :=
       fun c => let '(r, g, b, _) := c in
                (float64_of_int r, float64_of_int g, float64_of_int b);
     colorful_Color_Hsv := fun c => c;
     colorful_Hsv := fun h s v => (h, s, v);
     colorful_Color_RGBA :=
       fun c => let '(_, _, v) := c in
                let level := truncate (v * 65535)%float in
                (level, level, level, 65535) |}.

Definition demo_gradient : Gradient := fun _ => (65535, 0, 0, 65535).

Definition demo_visualizer (maxLeds window : Z) (segs : list Segment) (busy : bool)
  : Visualizer :=
  {| leds := maxLeds; colors := []; segments := segs; maxLedCount := maxLeds;
     processing := busy; gradient := demo_gradient; windowSize := window |}.

(** The package variables when the program starts. *)
Definition empty_package : Package := {| pixs := []; it := 0 |}.

(** ** Canonical binary64 representation of small integers *)

(** The 53-bit mantissa of an integer [0 < z < 2^53]. *)
Definition mant (z : Z) : Z := z * 2 ^ (52 - Z.log2 z).

Definition canon (z : Z) : spec_float :=
  match z with
  | Z0 => S754_zero false
  | _ => S754_finite false (Z.to_pos (mant z)) (Z.log2 z - 52)
  end.

(** The values [maxfreq] can take: [+0], a positive finite number or
    [+Inf]. *)
Definition nonneg_class (m : float) : Prop :=
  match Prim2SF m with
  | S754_zero false | S754_finite false _ _ | S754_infinity false => True
  | _ => False
  end.

(** The value of a non-negative finite float, in units of [2^-1074]. *)
Definition fval (x : spec_float) : Z :=
  match x with
  | S754_finite false m e => Zpos m * 2 ^ (e + 1074)
  | _ => 0
  end.

Definition finite_nonneg_sf (x : spec_float) : Prop :=
  match x with
  | S754_zero false | S754_finite false _ _ => True
  | _ => False
  end.

(** [+0] or a positive finite number. *)
Definition finite_nonneg (f : float) : Prop := finite_nonneg_sf (Prim2SF f).
Definition fv (f : float) : Z := fval (Prim2SF f).

(** [0 <= y && y <= 1], as Go compares floats: false for NaN. *)
Definition in_unit (y : float) : bool := (0 <=? y)%float && (y <=? 1)%float.

(** The sum of the weights of a history of length [L], as an integer. *)
Definition weights_int (L : Z) : list Z :=
  map (fun i => weight_int i L) (indices L).
Definition weight_sum (L : Z) : Z := fold_left Z.add (weights_int L) 0.

(** ** Sample words (readInt16, and the capture format of startCapture) *)

Definition uint16 (z : Z) : Z := z mod 2 ^ 16.
Definition int16 (z : Z) : Z :=
  let u := z mod 2 ^ 16 in if u <? 2 ^ 15 then u else u - 2 ^ 16.

(** [readInt16] (lines 306-308):
    [int16(uint32(b[0]) | uint32(b[1])<<8)]. *)
Definition readInt16 (b : list byte) : result Z :=
  match nth_error b 0, nth_error b 1 with
  | Some b0, Some b1 =>
      Ok (int16 (Z.lor (uint32 b0) (uint32 (Z.shiftl (uint32 b1) 8))))
  | _, _ => Panic
  end.

(** The values a Go [byte] takes. *)
Definition is_byte (b : byte) : Prop := 0 <= b <= 255.

(** [wca.WAVEFORMATEX], the fields [startCapture] assigns or reads: 16-bit
    fields except the two rates, which are 32 bits wide. *)
Record WAVEFORMATEX := {
  WFormatTag : Z;
  NChannels : Z;
  NSamplesPerSec : Z;
  NAvgBytesPerSec : Z;
  NBlockAlign : Z;
  WBitsPerSample : Z;
  CbSize : Z
}.

(** Lines 132-137: the mix format is overwritten with 16-bit stereo PCM. *)
Definition force_format (wfx : WAVEFORMATEX) : WAVEFORMATEX :=
  let nChannels := 2 in
  let wBitsPerSample := 16 in
  let nBlockAlign := uint16 (uint16 (wBitsPerSample / 8) * nChannels) in
  {| WFormatTag := 1;
     NChannels := nChannels;
     NSamplesPerSec := NSamplesPerSec wfx;
     NAvgBytesPerSec := uint32 (NSamplesPerSec wfx * uint32 nBlockAlign);
     NBlockAlign := nBlockAlign;
     WBitsPerSample := wBitsPerSample;
     CbSize := 0 |}.

(** Line 233: [lim := int(availableFrameSize) * int(wfx.NBlockAlign)], the
    length of the capture buffer [buf]. *)
Definition lim (availableFrameSize : Z) (wfx : WAVEFORMATEX) : Z :=
  int64 (availableFrameSize * NBlockAlign wfx).

(** ** reverse (lines 322-326) *)

(** [s[i] = x] for an index within the slice. *)
Fixpoint set_index {E : Type} (s : list E) (i : nat) (x : E) : list E :=
  match s, i with
  | [], _ => []
  | _ :: s', O => x :: s'
  | y :: s', S i' => y :: set_index s' i' x
  end.

(** [s[i], s[j] = s[j], s[i]]: both elements are read, then both written;
    an index outside the slice panics. *)
Definition swap {E : Type} (s : list E) (i j : Z) : result (list E) :=
  if (i <? 0) || (j <? 0) then Panic
  else match nth_error s (Z.to_nat i), nth_error s (Z.to_nat j) with
       | Some a, Some b =>
           Ok (set_index (set_index s (Z.to_nat i) b) (Z.to_nat j) a)
       | _, _ => Panic
       end.

(** The loop [for i, j := 0, len(s)-1; i < j; i, j = i+1, j-1], run for at
    most [fuel] iterations; [None] when they were not enough. *)
Fixpoint reverse_loop {E : Type} (fuel : nat) (i j : Z) (s : list E)
  : option (result (list E)) :=
  match fuel with
  | O => None
  | S fuel' =>
      if i <? j then
        match swap s i j with
        | Ok s' => reverse_loop fuel' (i + 1) (j - 1) s'
        | Panic => Some Panic
        end
      else Some (Ok s)
  end.

Definition reverse {E : Type} (fuel : nat) (s : list E) : option (result (list E)) :=
  reverse_loop fuel 0 (len s - 1) s.

(** ** Classes of binary64 values and exact integer sums *)

(** [+0] or a positive float that is at most 1. *)
Definition unit_form (x : spec_float) : Prop :=
  x = S754_zero false \/
  exists m e, x = S754_finite false m e /\ e <= -52 /\ Zpos m <= 2 ^ (- e).

(** A positive finite float. *)
Definition finite_positive (f : float) : Prop :=
  exists m e, Prim2SF f = S754_finite false m e.

(** [+0], [-0] or a positive finite float. *)
Definition zero_or_positive (x : spec_float) : Prop :=
  (exists s, x = S754_zero s) \/ exists m e, x = S754_finite false m e.

(** The sums of the smoother's two loops, computed on integers. *)
Fixpoint accumulate_int (acc : list Z) (p2 : list byte) (w : Z) : list Z :=
  match p2, acc with
  | p :: p2', x :: acc' => (x + p * w) :: accumulate_int acc' p2' w
  | _, _ => acc
  end.

Fixpoint weighted_sum_int (pixs : list (list byte)) (ws : list Z) (acc : list Z)
  : list Z :=
  match pixs, ws with
  | p2 :: pixs', w :: ws' => weighted_sum_int pixs' ws' (accumulate_int acc p2 w)
  | _, _ => acc
  end.

Definition Zsum (ws : list Z) : Z := fold_right Z.add 0 ws.

(** A frame of [M] LEDs, four bytes each, whose alpha bytes (index
    [4k+3]) are all 0xFF. *)
Definition opaque_frame (M : Z) (p2 : list byte) : Prop :=
  len p2 = 4 * M /\ Forall is_byte p2 /\
  forall k, 0 <= k < M -> nth (Z.to_nat (4 * k + 3)) p2 0 = 255.

(** * Exact binary64 arithmetic on integers below 2^53

    The smoother only adds, multiplies and divides integers; as long as
    every intermediate value stays below [2^53] the rounded operations of
    [SpecFloat] return the exact result. *)

Lemma digits2_pos_size p : digits2_pos p = Pos.size p.
Proof. induction p; simpl; congruence. Qed.

Lemma digits2_pos_log2 p : Zpos (digits2_pos p) = Z.log2 (Zpos p) + 1.
Proof.
  rewrite digits2_pos_size.
  destruct p; simpl; try reflexivity; rewrite Pos.add_1_r; reflexivity.
Qed.

Lemma Zdigits2_log2 m : 0 < m -> Zdigits2 m = Z.log2 m + 1.
Proof. destruct m; try lia. intros _. apply digits2_pos_log2. Qed.

Lemma iter_pos_nat {A} (f : A -> A) p x :
  iter_pos f p x = Nat.iter (Pos.to_nat p) f x.
Proof.
  revert x; induction p; intros x.
  - change (iter_pos f p~1 x) with (iter_pos f p (iter_pos f p (f x))).
    rewrite Pos2Nat.inj_xI, !IHp.
    replace (S (2 * Pos.to_nat p))%nat with (Pos.to_nat p + (Pos.to_nat p + 1))%nat by lia.
    rewrite !Nat.iter_add. reflexivity.
  - change (iter_pos f p~0 x) with (iter_pos f p (iter_pos f p x)).
    rewrite Pos2Nat.inj_xO, !IHp.
    replace (2 * Pos.to_nat p)%nat with (Pos.to_nat p + Pos.to_nat p)%nat by lia.
    rewrite Nat.iter_add. reflexivity.
  - reflexivity.
Qed.

(** Shifting out [k] zero bits leaves no remainder bits behind. *)
Lemma iter_shr_nat k m :
  0 < m ->
  Nat.iter k shr_1 (Build_shr_record (m * 2 ^ Z.of_nat k) false false)
  = Build_shr_record m false false.
Proof.
  intros Hm. induction k.
  - simpl. f_equal. lia.
  - rewrite Nat.iter_succ_r.
    assert (E : m * 2 ^ Z.of_nat (S k) = 2 * (m * 2 ^ Z.of_nat k)).
    { rewrite Nat2Z.inj_succ, Z.pow_succ_r by lia. ring. }
    rewrite E.
    assert (P : 0 < m * 2 ^ Z.of_nat k)
      by (apply Z.mul_pos_pos; [lia | apply Z.pow_pos_nonneg; lia]).
    destruct (m * 2 ^ Z.of_nat k) as [|q|q] eqn:Q; try lia.
    change (2 * Z.pos q) with (Zpos q~0). simpl shr_1. exact IHk.
Qed.

Lemma shr_exact m n e :
  0 < m -> 0 <= n ->
  shr (Build_shr_record (m * 2 ^ n) false false) e n
  = (Build_shr_record m false false, e + n).
Proof.
  intros Hm Hn. destruct n as [|p|p]; try lia.
  - simpl. rewrite Z.mul_1_r, Z.add_0_r. reflexivity.
  - unfold shr. rewrite iter_pos_nat.
    rewrite <- (positive_nat_Z p) at 1. rewrite iter_shr_nat by lia. reflexivity.
Qed.

(** Rounding a 53-bit mantissa scaled by a power of two only shifts it back. *)
Lemma binary_round_aux_exact s M n e :
  Z.log2 (Zpos M) = 52 -> 0 <= n -> -1074 <= e + n <= 971 ->
  binary_round_aux prec emax s (Zpos M * 2 ^ n) e loc_Exact = S754_finite s M (e + n).
Proof.
  intros HM Hn He.
  assert (Hd : Zdigits2 (Zpos M * 2 ^ n) = 53 + n).
  { rewrite Zdigits2_log2 by (apply Z.mul_pos_pos; [lia | apply Z.pow_pos_nonneg; lia]).
    rewrite Z.log2_mul_pow2 by lia. lia. }
  unfold binary_round_aux, shr_fexp.
  rewrite Hd.
  replace (fexp prec emax (53 + n + e) - e) with n
    by (unfold fexp, SpecFloat.emin, prec, emax; lia).
  cbn [shr_record_of_loc]. rewrite shr_exact by lia.
  cbn [shr_m loc_of_shr_record round_nearest_even].
  rewrite Zdigits2_log2, HM by lia.
  replace (fexp prec emax (52 + 1 + (e + n)) - (e + n)) with 0
    by (unfold fexp, SpecFloat.emin, prec, emax; lia).
  cbn [shr shr_m].
  replace (e + n <=? emax - prec) with true; [reflexivity|].
  symmetry. apply Z.leb_le. unfold emax, prec. lia.
Qed.

Lemma log2_lt53 z : 0 < z < 2 ^ 53 -> 0 <= Z.log2 z <= 52.
Proof.
  intros H. split; [apply Z.log2_nonneg|].
  assert (Z.log2 z < 53) by (apply Z.log2_lt_pow2; lia). lia.
Qed.

Lemma mant_pos z : 0 < z < 2 ^ 53 -> 0 < mant z.
Proof.
  intros H. unfold mant. apply Z.mul_pos_pos; [lia|].
  apply Z.pow_pos_nonneg; [lia|]. pose proof (log2_lt53 z H). lia.
Qed.

Lemma mant_log2 z : 0 < z < 2 ^ 53 -> Z.log2 (mant z) = 52.
Proof.
  intros H. unfold mant. pose proof (log2_lt53 z H).
  rewrite Z.log2_mul_pow2 by lia. lia.
Qed.

Lemma mant_to_pos z : 0 < z < 2 ^ 53 -> Zpos (Z.to_pos (mant z)) = mant z.
Proof. intros H. apply Z2Pos.id, mant_pos, H. Qed.

Lemma canon_pos v :
  0 < v -> canon v = S754_finite false (Z.to_pos (mant v)) (Z.log2 v - 52).
Proof. destruct v; try lia. reflexivity. Qed.

(** An integer below [2^53], written with enough trailing zero bits,
    rounds to its canonical representation. *)
Lemma binary_round_aux_int s v m e :
  0 < v < 2 ^ 53 -> e <= Z.log2 v - 52 -> m = v * 2 ^ (- e) ->
  binary_round_aux prec emax s m e loc_Exact
  = S754_finite s (Z.to_pos (mant v)) (Z.log2 v - 52).
Proof.
  intros Hv He ->. pose proof (log2_lt53 v Hv) as Hl.
  replace (v * 2 ^ (- e))
    with (Zpos (Z.to_pos (mant v)) * 2 ^ (- e - (52 - Z.log2 v))).
  2:{ rewrite mant_to_pos by lia. unfold mant.
      rewrite <- Z.mul_assoc, <- Z.pow_add_r by lia. do 2 f_equal. lia. }
  rewrite binary_round_aux_exact.
  - f_equal. lia.
  - rewrite mant_to_pos by lia. apply mant_log2, Hv.
  - lia.
  - lia.
Qed.

Lemma pos_iter_xO p k : Zpos (Pos.iter xO p k) = Zpos p * 2 ^ Zpos k.
Proof.
  change (Pos.iter xO p k) with (shift_pos k p).
  rewrite shift_pos_correct, Zpower_pos_nat, Zpower_nat_Z, positive_nat_Z. ring.
Qed.

Lemma binary_normalize_int v m e :
  0 < v < 2 ^ 53 -> e <= 0 -> m = v * 2 ^ (- e) ->
  binary_normalize prec emax m e false = canon v.
Proof.
  intros Hv He Em. pose proof (log2_lt53 v Hv) as Hl.
  assert (P : 0 < m)
    by (subst m; apply Z.mul_pos_pos; [lia | apply Z.pow_pos_nonneg; lia]).
  rewrite canon_pos by lia.
  destruct m as [|p|p]; try lia.
  unfold binary_normalize, binary_round.
  rewrite digits2_pos_log2, Em, Z.log2_mul_pow2 by lia.
  replace (fexp prec emax (- e + Z.log2 v + 1 + e)) with (Z.log2 v - 52)
    by (unfold fexp, SpecFloat.emin, prec, emax; lia).
  unfold shl_align.
  destruct (Z.log2 v - 52 - e) as [|d|d] eqn:Ed.
  - apply binary_round_aux_int; lia.
  - apply binary_round_aux_int; lia.
  - apply binary_round_aux_int; [lia | lia |].
    rewrite pos_iter_xO, Em, <- Z.mul_assoc, <- Z.pow_add_r by lia.
    do 2 f_equal. lia.
Qed.

Lemma Prim2SF_of_int z : 0 <= z < 2 ^ 53 -> Prim2SF (float64_of_int z) = canon z.
Proof.
  intros H. unfold float64_of_int.
  replace (z <? 0) with false by (symmetry; apply Z.ltb_ge; lia).
  rewrite of_uint63_spec, Uint63.of_Z_spec.
  rewrite Z.mod_small.
  2:{ split; [lia|]. apply Z.lt_trans with (2 ^ 53); [lia|]. reflexivity. }
  destruct (Z.eq_dec z 0) as [->|Hz]; [reflexivity|].
  apply binary_normalize_int; [lia | lia |].
  rewrite Z.mul_1_r. reflexivity.
Qed.

Lemma shl_align_min z ez :
  0 < z < 2 ^ 53 -> ez <= Z.log2 z - 52 ->
  Zpos (fst (shl_align (Z.to_pos (mant z)) (Z.log2 z - 52) ez)) = z * 2 ^ (- ez).
Proof.
  intros Hz He. pose proof (log2_lt53 z Hz) as Hl.
  unfold shl_align. destruct (ez - (Z.log2 z - 52)) as [|d|d] eqn:Ed; cbn [fst].
  - rewrite mant_to_pos by lia. unfold mant. do 2 f_equal. lia.
  - lia.
  - rewrite pos_iter_xO, mant_to_pos by lia. unfold mant.
    rewrite <- Z.mul_assoc, <- Z.pow_add_r by lia. do 2 f_equal. lia.
Qed.

Lemma SFadd_canon a b :
  0 <= a -> 0 <= b -> a + b < 2 ^ 53 ->
  SFadd prec emax (canon a) (canon b) = canon (a + b).
Proof.
  intros Ha Hb Hab.
  destruct (Z.eq_dec a 0) as [->|Na]; [destruct b; reflexivity|].
  destruct (Z.eq_dec b 0) as [->|Nb]; [rewrite Z.add_0_r; destruct a; reflexivity|].
  pose proof (log2_lt53 a ltac:(lia)) as La.
  pose proof (log2_lt53 b ltac:(lia)) as Lb.
  rewrite (canon_pos a), (canon_pos b) by lia.
  unfold SFadd, cond_Zopp.
  set (ez := Z.min (Z.log2 a - 52) (Z.log2 b - 52)).
  rewrite !shl_align_min by lia.
  rewrite <- Z.mul_add_distr_r.
  apply binary_normalize_int; lia.
Qed.

Lemma SFmul_canon a b :
  0 <= a -> 0 <= b -> a * b < 2 ^ 53 ->
  SFmul prec emax (canon a) (canon b) = canon (a * b).
Proof.
  intros Ha Hb Hab.
  destruct (Z.eq_dec a 0) as [->|Na]; [destruct b; reflexivity|].
  destruct (Z.eq_dec b 0) as [->|Nb]; [rewrite Z.mul_0_r; destruct a; reflexivity|].
  assert (Hab' : 0 < a * b) by (apply Z.mul_pos_pos; lia).
  assert (A53 : a < 2 ^ 53) by nia.
  assert (B53 : b < 2 ^ 53) by nia.
  pose proof (log2_lt53 a ltac:(lia)) as La.
  pose proof (log2_lt53 b ltac:(lia)) as Lb.
  pose proof (log2_lt53 (a * b) ltac:(lia)) as Lab.
  pose proof (Z.log2_mul_below a b ltac:(lia) ltac:(lia)) as Lbelow.
  rewrite (canon_pos a), (canon_pos b), (canon_pos (a * b)) by lia.
  unfold SFmul. cbn [xorb].
  apply binary_round_aux_int; [lia | lia |].
  rewrite Pos2Z.inj_mul, !mant_to_pos by lia. unfold mant.
  replace (- (Z.log2 a - 52 + (Z.log2 b - 52)))
    with ((52 - Z.log2 a) + (52 - Z.log2 b)) by lia.
  rewrite Z.pow_add_r by lia. ring.
Qed.

Lemma SFdiv_canon q b :
  0 <= q -> 0 < b -> q * b < 2 ^ 53 ->
  SFdiv prec emax (canon (q * b)) (canon b) = canon q.
Proof.
  intros Hq Hb Hqb.
  destruct (Z.eq_dec q 0) as [->|Nq]; [destruct b; try lia; reflexivity|].
  assert (Hqb' : 0 < q * b) by (apply Z.mul_pos_pos; lia).
  assert (Q53 : q < 2 ^ 53) by nia.
  assert (B53 : b < 2 ^ 53) by nia.
  pose proof (log2_lt53 q ltac:(lia)) as Lq.
  pose proof (log2_lt53 b ltac:(lia)) as Lb.
  pose proof (log2_lt53 (q * b) ltac:(lia)) as Lqb.
  pose proof (Z.log2_mul_above q b ltac:(lia) ltac:(lia)) as Labove.
  pose proof (Z.log2_mul_below q b ltac:(lia) ltac:(lia)) as Lbelow.
  rewrite (canon_pos q), (canon_pos b), (canon_pos (q * b)) by lia.
  unfold SFdiv, SFdiv_core_binary. cbn [xorb].
  rewrite !Zdigits2_log2, !mant_to_pos, !mant_log2
    by (rewrite ?mant_to_pos; try apply mant_pos; lia).
  set (la := Z.log2 (q * b)). set (lb := Z.log2 b).
  fold la in Lqb, Labove, Lbelow. fold lb in Lb, Labove, Lbelow.
  replace (Z.min (fexp prec emax (52 + 1 + (la - 52) - (52 + 1 + (lb - 52))))
                 (la - 52 - (lb - 52)))
    with (la - lb - 53) by (unfold fexp, SpecFloat.emin, prec, emax; lia).
  replace (la - 52 - (lb - 52) - (la - lb - 53)) with 53 by lia.
  rewrite Z.shiftl_mul_pow2 by lia.
  assert (E : mant (q * b) * 2 ^ 53 = q * 2 ^ (53 - la + lb) * mant b).
  { unfold mant. fold la lb.
    replace (q * b * 2 ^ (52 - la) * 2 ^ 53)
      with (q * b * (2 ^ (52 - la) * 2 ^ 53)) by ring.
    rewrite <- Z.pow_add_r by lia.
    replace (q * 2 ^ (53 - la + lb) * (b * 2 ^ (52 - lb)))
      with (q * b * (2 ^ (53 - la + lb) * 2 ^ (52 - lb))) by ring.
    rewrite <- Z.pow_add_r by lia. do 2 f_equal. lia. }
  rewrite E.
  pose proof (mant_pos b ltac:(lia)) as Mb.
  set (X := q * 2 ^ (53 - la + lb) * mant b).
  assert (D : Z.div_eucl X (mant b) = (X / mant b, X mod mant b))
    by (unfold Z.div, Z.modulo; destruct (Z.div_eucl X (mant b)); reflexivity).
  rewrite D. unfold X. rewrite Z.div_mul, Z.mod_mul by lia.
  replace (new_location (mant b) 0) with loc_Exact
    by (unfold new_location, new_location_even, new_location_odd;
        destruct (Z.even (mant b)); reflexivity).
  apply binary_round_aux_int; [lia | lia | do 2 f_equal; lia].
Qed.

Lemma float64_add_exact a b :
  0 <= a -> 0 <= b -> a + b < 2 ^ 53 ->
  (float64_of_int a + float64_of_int b)%float = float64_of_int (a + b).
Proof.
  intros. apply Prim2SF_inj.
  rewrite add_spec, !Prim2SF_of_int by lia. apply SFadd_canon; lia.
Qed.

Lemma float64_mul_exact a b :
  0 <= a < 2 ^ 53 -> 0 <= b < 2 ^ 53 -> a * b < 2 ^ 53 ->
  (float64_of_int a * float64_of_int b)%float = float64_of_int (a * b).
Proof.
  intros. apply Prim2SF_inj.
  rewrite mul_spec, !Prim2SF_of_int by nia. apply SFmul_canon; lia.
Qed.

Lemma float64_div_exact q b :
  0 <= q -> 0 < b < 2 ^ 53 -> q * b < 2 ^ 53 ->
  (float64_of_int (q * b) / float64_of_int b)%float = float64_of_int q.
Proof.
  intros Hq Hb Hqb. apply Prim2SF_inj.
  assert (0 <= q * b) by (apply Z.mul_nonneg_nonneg; lia).
  assert (q <= q * b) by nia.
  rewrite div_spec, !Prim2SF_of_int by lia. apply SFdiv_canon; lia.
Qed.



Lemma truncate_of_int z : 0 <= z < 2 ^ 53 -> truncate (float64_of_int z) = z.
Proof.
  intros H. unfold truncate. rewrite Prim2SF_of_int by lia.
  destruct (Z.eq_dec z 0) as [->|Nz]; [reflexivity|].
  rewrite canon_pos by lia. cbn [cond_Zopp].
  pose proof (log2_lt53 z ltac:(lia)).
  rewrite mant_to_pos by lia. unfold mant.
  rewrite <- Z.shiftl_mul_pow2 by lia.
  rewrite Z.shiftl_shiftl by lia.
  replace (52 - Z.log2 z + (Z.log2 z - 52)) with 0 by lia. apply Z.shiftl_0_r.
Qed.


(** * Frame decoder *)

Lemma decode_from_app_bounded (n : nat) :
  forall (buf : list byte) (samples words : list float),
    (length buf <= n)%nat ->
    one_sample_per_word buf = Ok words ->
    decode_from buf samples = Ok (samples ++ words).
Proof.
  induction n as [|n IH]; intros buf samples words Hn H.
  - destruct buf; [|simpl in Hn; lia].
    injection H as <-. rewrite app_nil_r. reflexivity.
  - destruct buf as [|b0 [|b1 [|b2 [|b3 rest]]]]; try discriminate.
    + injection H as <-. rewrite app_nil_r. reflexivity.
    + cbn [one_sample_per_word decode_from] in *.
      destruct (readInt32 [b0; b1; b2; b3]) as [v|]; [|discriminate].
      cbn [bind] in *.
      destruct (one_sample_per_word rest) as [ws|] eqn:E; [|discriminate].
      injection H as <-.
      rewrite (IH rest _ ws); [|simpl in Hn; lia|exact E].
      rewrite <- app_assoc. reflexivity.
Qed.

Lemma decode_from_app (buf : list byte) (samples words : list float) :
  one_sample_per_word buf = Ok words ->
  decode_from buf samples = Ok (samples ++ words).
Proof. apply (decode_from_app_bounded (length buf)). lia. Qed.

(** The decoder returns the [len(buf)/4] zeros of [make] followed by the
    decoded words. *)
Lemma decode_zeros_then_words (buf : list byte) (words : list float) :
  one_sample_per_word buf = Ok words ->
  decode buf = Ok (repeat 0%float (Z.to_nat (len buf / 4)) ++ words).
Proof.
  intros H. unfold decode, make_float64.
  replace (len buf / 4 <? 0) with false.
  - cbn [bind]. apply decode_from_app, H.
  - symmetry. apply Z.ltb_ge. apply Z.div_pos; unfold len; lia.
Qed.

(** C2, the code at the failing input: a buffer of one 4-byte word decodes
    to two samples, the zero written by [make([]float64, len(buf)/4)] and
    then the word, where the specification's decoder returns the word alone. *)
Theorem decode_one_word :
  decode [1; 0; 0; 0] = Ok [0%float; 1%float] /\
  one_sample_per_word [1; 0; 0; 0] = Ok [1%float].
Proof. split; vm_compute; reflexivity. Qed.

(** * Warped axis *)

(** C9, the code at the failing input: for a magnitude sequence of length 1
    the quotient [float64(i)/float64(nPoints-1)] is [0/0], and the axis
    consists of one NaN. *)
Theorem SpanLog_one_point :
  SpanLog 0 1 1 = Ok [nan] /\
  (float64_of_int 0 / float64_of_int (1 - 1))%float = nan.
Proof. split; vm_compute; reflexivity. Qed.

(** * Start and Stop *)

(** C8, the code at the failing inputs: [Stop] on a visualizer that was
    never started waits on the nil channel [v.done], and a second [Stop]
    waits on a channel that no goroutine sends on any more. *)
Theorem Stop_when_not_running_blocks :
  Stop New = BlocksForever /\
  Stop (Start New)
  = Returns {| cancel := false; done := true; cancelled := true; goroutine := Exited |} /\
  Stop {| cancel := false; done := true; cancelled := true; goroutine := Exited |}
  = BlocksForever.
Proof. repeat split. Qed.

(** * History *)

Lemma tl_skipn {A} (l : list A) (k : nat) : tl (skipn k l) = skipn (S k) l.
Proof.
  revert k; induction l as [|a l IH]; intros k.
  - rewrite !skipn_nil. reflexivity.
  - destruct k; [reflexivity|]. apply (IH k).
Qed.

Lemma push_history_skipn (windowSize : Z) (frames : list (list byte)) (pix : list byte) :
  0 <= windowSize ->
  push_history windowSize (skipn (length frames - Z.to_nat windowSize) frames) pix
  = skipn (length (frames ++ [pix]) - Z.to_nat windowSize) (frames ++ [pix]).
Proof.
  intros Hw. unfold push_history, len.
  rewrite !length_app, length_skipn. cbn [length].
  destruct (Z.ltb_spec windowSize
              (Z.of_nat (length frames - (length frames - Z.to_nat windowSize) + 1)))
    as [Hlt|Hge].
  - assert (Hn : (Z.to_nat windowSize <= length frames)%nat) by lia.
    replace (length frames + 1 - Z.to_nat windowSize)%nat
      with (S (length frames - Z.to_nat windowSize)) by lia.
    rewrite <- tl_skipn, skipn_app.
    replace (length frames - Z.to_nat windowSize - length frames)%nat with O by lia.
    reflexivity.
  - replace (length frames - Z.to_nat windowSize)%nat with O by lia.
    replace (length frames + 1 - Z.to_nat windowSize)%nat with O by lia.
    reflexivity.
Qed.

(** C6 as amended: starting from the empty history and with one
    non-negative [windowSize] for all appends, the history holds the last
    [windowSize] frames appended, oldest first; so its length never exceeds
    [windowSize], and the frame that leaves when a [windowSize+1]-th one
    arrives is the oldest. *)
Theorem history_bounded_fifo (windowSize : Z) (frames : list (list byte)) :
  0 <= windowSize ->
  fold_left (push_history windowSize) frames []
  = skipn (length frames - Z.to_nat windowSize) frames /\
  len (fold_left (push_history windowSize) frames []) <= windowSize.
Proof.
  intros Hw.
  assert (E : fold_left (push_history windowSize) frames []
              = skipn (length frames - Z.to_nat windowSize) frames).
  { induction frames as [|pix frames IH] using rev_ind; [reflexivity|].
    rewrite fold_left_app. cbn [fold_left]. rewrite IH.
    apply push_history_skipn, Hw. }
  split; [exact E|].
  rewrite E. unfold len. rewrite length_skipn. lia.
Qed.

Lemma history_bounded_fifo_witness :
  0 <= 2 /\
  fold_left (push_history 2) [[1]; [2]; [3]] [] = [[2]; [3]] /\
  len (fold_left (push_history 2) [[1]; [2]; [3]] []) <= 2.
Proof.
  split; [lia|]. exact (history_bounded_fifo 2 [[1]; [2]; [3]] ltac:(lia)).
Defined.

(** An append removes at most one frame: a history that is already as long
    as the window, or longer, keeps its length. *)
Lemma push_history_full (windowSize : Z) (h : list (list byte)) (pix : list byte) :
  windowSize <= len h -> len (push_history windowSize h pix) = len h.
Proof.
  intros H. unfold push_history, len in *. rewrite length_app. cbn [length].
  replace (windowSize <? Z.of_nat (length h + 1)) with true
    by (symmetry; apply Z.ltb_lt; lia).
  destruct h as [|x h]; cbn [app tl length]; [reflexivity|].
  rewrite length_app. cbn [length]. lia.
Qed.

Lemma fold_push_history_full (windowSize : Z) (frames : list (list byte)) :
  forall h, windowSize <= len h ->
            len (fold_left (push_history windowSize) frames h) = len h.
Proof.
  induction frames as [|pix frames IH]; intros h H; [reflexivity|].
  cbn [fold_left]. rewrite IH; rewrite push_history_full; lia.
Qed.

(** C6 as stated fails: the history is one package-level variable, and an
    append never removes more than one frame.  A visualizer with a window
    of 2 processes two frames; a visualizer with a window of 1 and the same
    LED count then processes one: the history holds 2 frames, more than its
    window, and keeps 2 frames whatever is appended with that window
    afterwards.  With a negative window the history is empty after every
    append, which is still more than the window. *)
Lemma history_exceeds_window :
  let v1 := demo_visualizer 1 2 [{| Id := 0; Leds := 1 |}] false in
  let v2 := demo_visualizer 1 1 [{| Id := 0; Leds := 1 |}] false in
  let g1 := {| pixs := [[63; 63; 63; 255]]; it := 1 |} in
  let g2 := {| pixs := [[63; 63; 63; 255]; [255; 255; 255; 255]]; it := 2 |} in
  let g3 := {| pixs := [[255; 255; 255; 255]; [183; 183; 183; 255]]; it := 3 |} in
  let event := fun pix => Some {| visualizer.Segments :=
                                    [{| visualizer.Id := 0; visualizer.Pix := pix |}] |} in
  (@process demo_libraries v1 empty_package [0%float; 0%float] 0%float
   = Ok (v1, g1, event [63; 63; 63; 255]) /\
   @process demo_libraries v1 g1 [3%float; 4%float] 1%float
   = Ok (v1, g2, event [181; 181; 181; 255]) /\
   @process demo_libraries v2 g2 [3%float; 4%float] 0.125%float
   = Ok (v2, g3, event [210; 210; 210; 255]) /\
   windowSize v2 = 1 /\
   len (pixs g3) = 2 /\
   forall frames, len (fold_left (push_history (windowSize v2)) frames (pixs g3)) = 2) /\
  (forall frames, fold_left (push_history (-1)) frames [] = []) /\
  ~ len (fold_left (push_history (-1)) [[0; 0; 0; 255]] []) <= -1.
Proof.
  cbv zeta. split; [|split].
  - repeat split; try (vm_compute; reflexivity).
    intros frames. rewrite fold_push_history_full; [reflexivity|].
    vm_compute. discriminate.
  - induction frames as [|pix frames IH]; [reflexivity|exact IH].
  - vm_compute. intros H. apply H. reflexivity.
Qed.

(** * Segment distributor *)

Lemma skipn_nth_error {A} (l : list A) (i : nat) (x : A) :
  nth_error l i = Some x -> skipn i l = x :: skipn (S i) l.
Proof.
  revert i; induction l as [|a l IH]; intros [|i] H; try discriminate.
  - injection H as ->. reflexivity.
  - cbn [skipn nth_error] in *. rewrite (IH i H). reflexivity.
Qed.

Lemma nth_error_in_range {A} (l : list A) (i : nat) :
  (i < length l)%nat -> exists x, nth_error l i = Some x.
Proof.
  intros H. destruct (nth_error l i) as [x|] eqn:E; [eauto|].
  apply nth_error_None in E. lia.
Qed.

(** The copy loop started at byte [i] copies [4*steps] consecutive bytes. *)
Lemma fill_pix4_copies (steps : nat) :
  forall (i : nat) (pix3 : list float),
    (i + 4 * steps <= length pix3)%nat ->
    fill_pix4 steps i pix3
    = Ok (map uint8_of_float64 (firstn (4 * steps) (skipn i pix3))).
Proof.
  induction steps as [|steps IH]; intros i pix3 H; [reflexivity|].
  cbn [fill_pix4].
  destruct (nth_error_in_range pix3 i ltac:(lia)) as [a Ea].
  destruct (nth_error_in_range pix3 (i + 1) ltac:(lia)) as [b Eb].
  destruct (nth_error_in_range pix3 (i + 2) ltac:(lia)) as [c Ec].
  destruct (nth_error_in_range pix3 (i + 3) ltac:(lia)) as [d Ed].
  rewrite Ea, Eb, Ec, Ed, (IH (i + 4)%nat) by lia. cbn [bind].
  rewrite (skipn_nth_error _ _ _ Ea).
  replace (S i) with (i + 1)%nat by lia. rewrite (skipn_nth_error _ _ _ Eb).
  replace (S (i + 1)) with (i + 2)%nat by lia. rewrite (skipn_nth_error _ _ _ Ec).
  replace (S (i + 2)) with (i + 3)%nat by lia. rewrite (skipn_nth_error _ _ _ Ed).
  replace (S (i + 3)) with (i + 4)%nat by lia.
  replace (4 * S steps)%nat with (S (S (S (S (4 * steps))))) by lia.
  reflexivity.
Qed.

(** An [int] value within the 64-bit range is not changed by the wrap. *)
Lemma int64_small (z : Z) : - 2 ^ 63 <= z < 2 ^ 63 -> int64 z = z.
Proof.
  unfold int64. change (2 ^ 63) with 9223372036854775808.
  change (2 ^ 64) with 18446744073709551616.
  intros H. rewrite Z.mod_small; lia.
Qed.

Lemma int64_range (z : Z) : - 2 ^ 63 <= int64 z < 2 ^ 63.
Proof.
  unfold int64. change (2 ^ 63) with 9223372036854775808.
  change (2 ^ 64) with 18446744073709551616.
  pose proof (Z.mod_pos_bound (z + 9223372036854775808) 18446744073709551616 ltac:(lia)).
  lia.
Qed.

(** [seg.Leds * 4], wrapped or not, is a multiple of 4: the copy loop ends
    with [i] equal to [length]. *)
Lemma int64_times_4 (a : Z) : exists q, int64 (a * 4) = 4 * q.
Proof.
  unfold int64. change (2 ^ 63) with 9223372036854775808.
  change (2 ^ 64) with 18446744073709551616.
  exists ((a * 4 + 9223372036854775808) mod 18446744073709551616 / 4
          - 2305843009213693952).
  Z.div_mod_to_equations. lia.
Qed.

(** A segment whose wrapped length fits the frame receives that many
    bytes from the start of the frame. *)
Lemma segment_pix_wrapped (seg : Segment) (pix3 : list float) :
  0 <= int64 (Leds seg * 4) <= len pix3 ->
  segment_pix seg pix3
  = Ok (byte_range (map uint8_of_float64 pix3) 0 (int64 (Leds seg * 4))).
Proof.
  intros H. unfold segment_pix, byte_range, len in *.
  destruct (int64_times_4 (Leds seg)) as [q Eq]. rewrite Eq in *.
  replace (4 * q <? 0) with false by (symmetry; apply Z.ltb_ge; lia).
  replace ((4 * q + 3) / 4) with q by (Z.div_mod_to_equations; lia).
  rewrite fill_pix4_copies by lia.
  cbn [Z.to_nat skipn]. rewrite firstn_map. do 3 f_equal. lia.
Qed.

(** A frame is a Go slice: its length is an [int], below [2^63]. *)
Lemma segment_pix_prefix (seg : Segment) (pix3 : list float) :
  len pix3 < 2 ^ 63 ->
  0 <= Leds seg -> Leds seg * 4 <= len pix3 ->
  segment_pix seg pix3
  = Ok (byte_range (map uint8_of_float64 pix3) 0 (Leds seg * 4)).
Proof.
  intros HL H0 H1.
  assert (E : int64 (Leds seg * 4) = Leds seg * 4).
  { apply int64_small. change (2 ^ 63) with 9223372036854775808 in *. lia. }
  rewrite segment_pix_wrapped; rewrite E; [reflexivity|lia].
Qed.

(** C1 as amended: every segment, in declared order, receives its own
    copy of the first [leds*4] bytes of the smoothed frame, the range
    [[0, leds*4)], whatever the segments before it took, provided the frame
    is long enough for it.  The frame is a Go slice, so its length is an
    [int]: with it [leds*4] is one too, and the product does not wrap. *)
Theorem segment_distributor_prefix (segs : list Segment) (pix3 : list float) :
  len pix3 < 2 ^ 63 ->
  Forall (fun seg => 0 <= Leds seg /\ Leds seg * 4 <= len pix3) segs ->
  segment_distributor segs pix3
  = Ok (map (fun seg =>
               {| visualizer.Id := Id seg;
                  visualizer.Pix :=
                    byte_range (map uint8_of_float64 pix3) 0 (Leds seg * 4) |})
            segs).
Proof.
  intros HL. induction 1 as [|seg segs [H0 H1] _ IH]; [reflexivity|].
  cbn [segment_distributor map].
  rewrite segment_pix_prefix, IH by assumption. reflexivity.
Qed.

Lemma segment_distributor_prefix_witness :
  let segs := [{| Id := 0; Leds := 1 |}; {| Id := 1; Leds := 2 |}] in
  let pix3 := map float64_of_int [10; 11; 12; 13; 14; 15; 16; 17; 18; 19; 20; 21] in
  (len pix3 < 2 ^ 63 /\
   Forall (fun seg => 0 <= Leds seg /\ Leds seg * 4 <= len pix3) segs) /\
  segment_distributor segs pix3
  = Ok (map (fun seg =>
               {| visualizer.Id := Id seg;
                  visualizer.Pix :=
                    byte_range (map uint8_of_float64 pix3) 0 (Leds seg * 4) |})
            segs).
Proof.
  cbv zeta.
  assert (H : Forall (fun seg => 0 <= Leds seg /\ Leds seg * 4 <= len
                (map float64_of_int [10; 11; 12; 13; 14; 15; 16; 17; 18; 19; 20; 21]))
              [{| Id := 0; Leds := 1 |}; {| Id := 1; Leds := 2 |}])
    by (apply Forall_cons; [unfold len; simpl; lia|];
        apply Forall_cons; [unfold len; simpl; lia|]; apply Forall_nil).
  assert (HL : len (map float64_of_int [10; 11; 12; 13; 14; 15; 16; 17; 18; 19; 20; 21])
               < 2 ^ 63) by reflexivity.
  split; [split; [exact HL | exact H] | exact (segment_distributor_prefix _ _ HL H)].
Defined.

(** C1 as stated fails: with segments [{0,10},{1,20}] and a 30-LED frame
    whose LED [k] has the pixel (k, k, k, 255), segment 1 receives bytes
    [[0,80)], the LEDs 0 to 19, and not bytes [[40,120)], the LEDs 10 to 29. *)
Lemma segment_distributor_not_contiguous :
  let segs := [{| Id := 0; Leds := 10 |}; {| Id := 1; Leds := 20 |}] in
  let bytes := flat_map (fun k => [k; k; k; 255]) (indices 30) in
  let pix3 := map float64_of_int bytes in
  map uint8_of_float64 pix3 = bytes /\
  segment_distributor segs pix3
  = Ok [{| visualizer.Id := 0; visualizer.Pix := byte_range bytes 0 40 |};
        {| visualizer.Id := 1; visualizer.Pix := byte_range bytes 0 80 |}] /\
  byte_range bytes 0 80 <> byte_range bytes 40 120 /\
  segment_distributor segs pix3 <> Ok (contiguous_distribution segs 0 bytes).
Proof.
  cbv zeta. split; [|split; [|split]].
  - vm_compute. reflexivity.
  - vm_compute. reflexivity.
  - intros H. vm_compute in H. discriminate H.
  - intros H. vm_compute in H. discriminate H.
Qed.

(** * Temporal smoother *)

Lemma count_from_length (steps : nat) : forall i, length (count_from i steps) = steps.
Proof. induction steps; intros i; simpl; [|rewrite IHsteps]; reflexivity. Qed.

Lemma count_from_range (steps : nat) :
  forall i x, In x (count_from i steps) -> i <= x < i + Z.of_nat steps.
Proof.
  induction steps as [|steps IH]; intros i x H; [contradiction|].
  destruct H as [<-|H]; [lia|]. apply IH in H. lia.
Qed.

Lemma indices_length (n : Z) : length (indices n) = Z.to_nat n.
Proof. apply count_from_length. Qed.

Lemma indices_range (n x : Z) : In x (indices n) -> 0 <= x < n.
Proof. intros H. apply count_from_range in H. lia. Qed.

(** For a history of fewer than [2^31] frames the [int] arithmetic of the
    weight stays below [2^63] and does not wrap. *)
Lemma weight_int_exact (i L : Z) :
  0 <= i < L -> L < 2 ^ 31 -> weight_int i L = (i + 1) * (i + 1) + L * L.
Proof.
  intros Hi HL. unfold weight_int, int64.
  change (2 ^ 31) with 2147483648 in HL.
  assert (0 <= (i + 1) * (i + 1) <= 2147483647 * 2147483647) by nia.
  assert (0 <= L * L <= 2147483647 * 2147483647) by nia.
  change (2 ^ 63) with 9223372036854775808.
  change (2 ^ 64) with 18446744073709551616.
  rewrite Z.mod_small; lia.
Qed.

Lemma weight_int_bounds (i L : Z) :
  0 <= i < L -> L < 2 ^ 31 -> 0 < weight_int i L <= 2 * (L * L).
Proof. intros Hi HL. rewrite weight_int_exact by lia. nia. Qed.

Lemma fold_add_le (ws : list Z) (B : Z) :
  Forall (fun w => 0 <= w <= B) ws ->
  forall acc, acc <= fold_left Z.add ws acc <= acc + Z.of_nat (length ws) * B.
Proof.
  induction 1 as [|w ws Hw _ IH]; intros acc; cbn [fold_left length].
  - lia.
  - specialize (IH (acc + w)). lia.
Qed.

Lemma weights_int_bounds (L : Z) :
  0 <= L < 2 ^ 31 -> Forall (fun w => 0 <= w <= 2 * (L * L)) (weights_int L).
Proof.
  intros HL. apply Forall_forall. intros w Hw.
  apply in_map_iff in Hw as [i [<- Hi]]. apply indices_range in Hi.
  pose proof (weight_int_bounds i L Hi). lia.
Qed.

Lemma pow2_53 : 2 ^ 53 = 9007199254740992.
Proof. reflexivity. Qed.

(** The sum of the squares [(i+1)^2] and of [n] times [L^2], for the
    indices from [a] on. *)
Lemma weight_sum_from (L : Z) (n : nat) :
  forall a acc,
    0 <= a -> a + Z.of_nat n <= L -> L < 2 ^ 31 ->
    6 * fold_left Z.add (map (fun i => weight_int i L) (count_from a n)) acc
    = 6 * acc + 6 * Z.of_nat n * (L * L)
      + (a + Z.of_nat n) * (a + Z.of_nat n + 1) * (2 * (a + Z.of_nat n) + 1)
      - a * (a + 1) * (2 * a + 1).
Proof.
  induction n as [|n IH]; intros a acc Ha Hn HL.
  - cbn [count_from map fold_left Z.of_nat]. ring.
  - cbn [count_from map fold_left]. rewrite Nat2Z.inj_succ in *.
    rewrite IH by lia. rewrite weight_int_exact by lia. ring.
Qed.

(** The total of the weights: [L^3] and the sum of the first [L] squares. *)
Lemma weight_sum_closed (L : Z) :
  0 <= L < 2 ^ 31 -> 6 * weight_sum L = 8 * (L * L * L) + 3 * (L * L) + L.
Proof.
  intros HL. unfold weight_sum, weights_int, indices.
  rewrite weight_sum_from by lia. rewrite Z2Nat.id by lia. ring.
Qed.

(** For a history of at most 29 810 frames every partial sum of byte times
    weight stays below [2^53]; 29 810 is the last length for which it does. *)
Lemma weight_sum_exact_range (L : Z) :
  0 <= L <= 29810 -> 255 * weight_sum L < 2 ^ 53.
Proof.
  intros HL. pose proof (weight_sum_closed L ltac:(lia)) as E.
  assert (L * L <= 29810 * 29810) by nia.
  assert (L * L * L <= 29810 * 29810 * 29810) by nia.
  rewrite pow2_53. lia.
Qed.

Lemma weight_sum_small (L : Z) :
  0 <= L <= 26000 -> 255 * weight_sum L < 2 ^ 53.
Proof. intros HL. apply weight_sum_exact_range. lia. Qed.

Lemma weight_sum_pos (L : Z) : 1 <= L < 2 ^ 31 -> 0 < weight_sum L.
Proof.
  intros HL. unfold weight_sum, weights_int, indices.
  destruct (Z.to_nat L) as [|n] eqn:E; [lia|].
  cbn [count_from map fold_left].
  pose proof (weight_int_bounds 0 L ltac:(lia) ltac:(lia)) as H0.
  assert (F : Forall (fun w => 0 <= w <= 2 * (L * L))
                (map (fun i => weight_int i L) (count_from (0 + 1) n))).
  { apply Forall_forall. intros w Hw.
    apply in_map_iff in Hw as [i [<- Hi]]. apply count_from_range in Hi.
    pose proof (weight_int_bounds i L ltac:(lia)). lia. }
  pose proof (fold_add_le _ _ F (0 + weight_int 0 L)). lia.
Qed.

Lemma fold_add_ge (ws : list Z) :
  Forall (fun w => 0 <= w) ws -> forall acc, acc <= fold_left Z.add ws acc.
Proof.
  induction 1 as [|w ws Hw _ IH]; intros acc; cbn [fold_left]; [lia|].
  specialize (IH (acc + w)). lia.
Qed.

(** The float total of the weights is the integer total, exactly. *)
Lemma weightsTotal_from (ws : list Z) :
  Forall (fun w => 0 <= w) ws ->
  forall acc, 0 <= acc -> fold_left Z.add ws acc < 2 ^ 53 ->
    fold_left (fun total w => (total + w)%float) (map float64_of_int ws)
              (float64_of_int acc)
    = float64_of_int (fold_left Z.add ws acc).
Proof.
  induction 1 as [|w ws Hw Hws IH]; intros acc Hacc Hsum; [reflexivity|].
  cbn [map fold_left] in *.
  pose proof (fold_add_ge ws Hws (acc + w)) as Hle.
  rewrite float64_add_exact by lia. apply IH; lia.
Qed.




Lemma weights_of_int (L : Z) : weights L = map float64_of_int (weights_int L).
Proof. unfold weights, weights_int. rewrite map_map. reflexivity. Qed.




(** * Silence gate and colour shaping *)

Lemma eqb_zero_cases (x : float) :
  (x =? 0)%float = true -> x = 0%float \/ x = (-0)%float.
Proof.
  rewrite eqb_spec. change (Prim2SF 0) with (S754_zero false). intros H.
  destruct (Prim2SF x) as [s|s| |s m e] eqn:E.
  - destruct s; [right|left]; apply Prim2SF_inj; rewrite E; reflexivity.
  - destruct s; discriminate H.
  - discriminate H.
  - destruct s; discriminate H.
Qed.

Lemma nonneg_class_step (m c : float) :
  nonneg_class m -> nonneg_class (if (m <? c)%float then c else m).
Proof.
  intros Hm. destruct (m <? c)%float eqn:E; [|exact Hm].
  rewrite ltb_spec in E. unfold nonneg_class in *.
  destruct (Prim2SF m) as [[|]|[|]| |[|] mm me]; try contradiction;
    destruct (Prim2SF c) as [[|]|[|]| |[|] cm ce]; try exact I;
    discriminate E.
Qed.

Lemma magnitudes_from_maxfreq `{Libraries} (coeff : list complex128) :
  forall freqs m,
    nonneg_class m ->
    nonneg_class
      (snd (fold_left (fun (acc : list float * float) c =>
                         let (freqs, maxfreq) := acc in
                         (freqs ++ [cmplx_Abs c],
                          if (maxfreq <? cmplx_Abs c)%float then cmplx_Abs c else maxfreq))
                      coeff (freqs, m))).
Proof.
  induction coeff as [|c coeff IH]; intros freqs m Hm; [exact Hm|].
  cbn [fold_left]. apply IH, nonneg_class_step, Hm.
Qed.

Lemma magnitudes_maxfreq `{Libraries} (samples : list float) :
  nonneg_class (snd (magnitudes samples)).
Proof. apply magnitudes_from_maxfreq. exact I. Qed.

(** Normalising a zero magnitude gives [+0] whatever the maximum was. *)
Lemma normalize_zero (m : float) : nonneg_class m -> normalize 0 0 m = 0%float.
Proof.
  unfold nonneg_class, normalize. intros Hm.
  rewrite eqb_spec.
  destruct (Prim2SF m) as [[|]|[|]| |[|] mm me] eqn:E; try contradiction.
  - replace m with 0%float by (apply Prim2SF_inj; rewrite E; reflexivity).
    reflexivity.
  - cbn. apply Prim2SF_inj. rewrite div_spec, sub_spec, E. reflexivity.
  - cbn. apply Prim2SF_inj. rewrite div_spec, sub_spec, E. reflexivity.
Qed.

Lemma map_const_repeat {A B} (b : B) (l : list A) :
  map (fun _ => b) l = repeat b (length l).
Proof. induction l; simpl; [|rewrite IHl]; reflexivity. Qed.

Lemma silence_gate_zero (peak : float) (freqs : list float) :
  (peak =? 0)%float = true ->
  silence_gate peak freqs = repeat 0%float (length freqs).
Proof. intros H. unfold silence_gate. rewrite H. apply map_const_repeat. Qed.

Lemma shaped_value_silent (peak : float) :
  (peak =? 0)%float = true -> shaped_value 0 peak = 0.25%float.
Proof.
  intros H. destruct (eqb_zero_cases peak H) as [-> | ->]; vm_compute; reflexivity.
Qed.

Lemma SpanLog_len_ok {A} (l : list A) : exists X, SpanLog 0 1 (len l) = Ok X.
Proof.
  unfold SpanLog, make_float64, len.
  replace (Z.of_nat (length l) <? 0) with false by (symmetry; apply Z.ltb_ge; lia).
  cbn [bind]. eauto.
Qed.

(** * Rounded division of a magnitude by the maximum

    The normalised magnitudes are quotients [f / maxfreq] with
    [0 <= f <= maxfreq]; the rounded quotient never exceeds 1. *)

Lemma shr_1_m (m : Z) (r s : bool) :
  0 <= m -> shr_m (shr_1 (Build_shr_record m r s)) = m / 2.
Proof.
  intros Hm. destruct m as [|p|p]; try lia; [reflexivity|].
  destruct p as [p|p|]; cbn [shr_1 shr_m].
  - rewrite (Pos2Z.inj_xI p), Z.mul_comm, Z.div_add_l by lia.
    replace (1 / 2) with 0 by reflexivity. lia.
  - rewrite (Pos2Z.inj_xO p), Z.mul_comm, Z.div_mul by lia. reflexivity.
  - reflexivity.
Qed.

Lemma iter_shr_m (k : nat) :
  forall m r s, 0 <= m ->
    shr_m (Nat.iter k shr_1 (Build_shr_record m r s)) = m / 2 ^ Z.of_nat k.
Proof.
  induction k as [|k IH]; intros m r s Hm.
  - simpl. rewrite Z.div_1_r. reflexivity.
  - rewrite Nat.iter_succ_r.
    pose proof (shr_1_m m r s Hm) as E.
    destruct (shr_1 (Build_shr_record m r s)) as [m' r' s'] eqn:E1.
    cbn [shr_m] in E. subst m'.
    rewrite IH by (apply Z.div_pos; lia).
    rewrite Z.div_div by (try apply Z.pow_pos_nonneg; lia).
    f_equal. rewrite Nat2Z.inj_succ, Z.pow_succ_r by lia. reflexivity.
Qed.

(** What [shr] leaves of a non-negative mantissa: the quotient, at the
    raised exponent; and no location information when nothing was lost. *)
Lemma shr_quotient (m e n : Z) (l : location) :
  0 <= m ->
  let res := shr (shr_record_of_loc m l) e n in
  let k := Z.max n 0 in
  shr_m (fst res) = m / 2 ^ k /\ snd res = e + k /\
  (l = loc_Exact -> m = (m / 2 ^ k) * 2 ^ k -> loc_of_shr_record (fst res) = loc_Exact).
Proof.
  intros Hm. cbv zeta.
  assert (Hrec : exists r s, shr_record_of_loc m l = Build_shr_record m r s)
    by (destruct l as [|[| |]]; cbn; eauto).
  destruct Hrec as (r & s & Hrec).
  destruct n as [|p|p].
  - cbn [shr fst snd]. change (Z.max 0 0) with 0. rewrite Z.div_1_r, Z.add_0_r.
    split; [rewrite Hrec; reflexivity|]. split; [reflexivity|].
    intros -> _. reflexivity.
  - cbn [shr fst snd]. replace (Z.max (Z.pos p) 0) with (Z.pos p) by lia.
    rewrite iter_pos_nat. split; [|split; [reflexivity|]].
    + rewrite Hrec, iter_shr_m, positive_nat_Z by lia. reflexivity.
    + intros -> E. cbn [shr_record_of_loc]. rewrite E at 1.
      rewrite <- (positive_nat_Z p) at 2.
      destruct (Z.eq_dec (m / 2 ^ Z.pos p) 0) as [Z0|NZ].
      * rewrite Z0. cbn [Z.mul].
        clear. induction (Pos.to_nat p) as [|k IH]; [reflexivity|].
        rewrite Nat.iter_succ_r. exact IH.
      * rewrite iter_shr_nat; [reflexivity|].
        assert (0 <= m / 2 ^ Z.pos p) by (apply Z.div_pos; lia). lia.
  - cbn [shr fst snd]. replace (Z.max (Z.neg p) 0) with 0 by lia.
    rewrite Z.div_1_r, Z.add_0_r.
    split; [rewrite Hrec; reflexivity|]. split; [reflexivity|].
    intros -> _. reflexivity.
Qed.

Lemma Zdigits2_bound (m : Z) : 0 < m -> 2 ^ (Zdigits2 m - 1) <= m < 2 ^ Zdigits2 m.
Proof.
  intros H. rewrite Zdigits2_log2 by lia.
  replace (Z.log2 m + 1 - 1) with (Z.log2 m) by lia.
  pose proof (Z.log2_spec m H). rewrite <- Z.add_1_r in *. lia.
Qed.

Lemma Zdigits2_nonneg (m : Z) : 0 <= Zdigits2 m.
Proof. destruct m; simpl; lia. Qed.

(** A mantissa bounded by [2^k] has at most [k+1] digits. *)
Lemma Zdigits2_le_pow2 (m k : Z) : 0 <= m <= 2 ^ k -> 0 <= k -> Zdigits2 m <= k + 1.
Proof.
  intros Hm Hk. destruct (Z.eq_dec m 0) as [->|Nz]; [simpl; lia|].
  pose proof (Zdigits2_bound m ltac:(lia)) as [Hlo _].
  pose proof (Zdigits2_nonneg m).
  destruct (Z.le_gt_cases (Zdigits2 m) (k + 1)) as [|Hgt]; [assumption|].
  assert (2 ^ (k + 1) <= 2 ^ (Zdigits2 m - 1)) by (apply Z.pow_le_mono_r; lia).
  assert (2 ^ k < 2 ^ (k + 1)) by (apply Z.pow_lt_mono_r; lia).
  lia.
Qed.

Lemma div_pow2_le (q a k : Z) :
  0 <= k <= a -> 0 <= q <= 2 ^ a -> 0 <= q / 2 ^ k <= 2 ^ (a - k).
Proof.
  intros Hk Hq.
  assert (P : 0 < 2 ^ k) by (apply Z.pow_pos_nonneg; lia).
  split; [apply Z.div_pos; lia|].
  apply Z.div_le_upper_bound; [lia|].
  rewrite <- Z.pow_add_r by lia. replace (k + (a - k)) with a by lia. lia.
Qed.

Lemma div_pow2_lt (q a k : Z) :
  0 <= k <= a -> 0 <= q < 2 ^ a -> q / 2 ^ k < 2 ^ (a - k).
Proof.
  intros Hk Hq.
  assert (P : 0 < 2 ^ k) by (apply Z.pow_pos_nonneg; lia).
  apply Z.div_lt_upper_bound; [lia|].
  rewrite <- Z.pow_add_r by lia. replace (k + (a - k)) with a by lia. lia.
Qed.

Lemma div_pow2_lt_inexact (q a k : Z) :
  0 <= k <= a -> 0 <= q <= 2 ^ a -> q <> q / 2 ^ k * 2 ^ k -> q / 2 ^ k < 2 ^ (a - k).
Proof.
  intros Hk Hq Hne.
  assert (P : 0 < 2 ^ k) by (apply Z.pow_pos_nonneg; lia).
  pose proof (Z.mul_div_le q (2 ^ k) P) as Hle.
  assert (E : 2 ^ a = 2 ^ (a - k) * 2 ^ k)
    by (rewrite <- Z.pow_add_r by lia; f_equal; lia).
  assert (Hlt : q / 2 ^ k * 2 ^ k < 2 ^ (a - k) * 2 ^ k) by lia.
  apply Z.mul_lt_mono_pos_r in Hlt; lia.
Qed.

(** The exponent the rounding settles on, for a value at most 1. *)
Lemma round_exponent_le (m e : Z) :
  0 <= m <= 2 ^ (- e) -> e <= -52 ->
  e + Z.max (fexp prec emax (Zdigits2 m + e) - e) 0 <= -52.
Proof.
  intros Hm He.
  pose proof (Zdigits2_le_pow2 m (- e) Hm ltac:(lia)).
  unfold fexp, SpecFloat.emin, prec, emax. lia.
Qed.

Lemma binary_round_aux_le_one (q e : Z) (l : location) :
  0 <= q -> e <= -53 -> q <= 2 ^ (- e) -> (l <> loc_Exact -> q < 2 ^ (- e)) ->
  binary_round_aux prec emax false q e l = S754_zero false \/
  exists m e', binary_round_aux prec emax false q e l = S754_finite false m e' /\
               e' <= -52 /\ Zpos m <= 2 ^ (- e').
Proof.
  intros Hq He Hle Hlt.
  unfold binary_round_aux, shr_fexp.
  set (n1 := fexp prec emax (Zdigits2 q + e) - e).
  pose proof (shr_quotient q e n1 l Hq) as (Hm1 & He1 & Hx1).
  pose proof (round_exponent_le q e ltac:(lia) ltac:(lia)) as Hexp1. fold n1 in Hexp1.
  destruct (shr (shr_record_of_loc q l) e n1) as [mrs1 e1]. cbn [fst snd] in *.
  set (k1 := Z.max n1 0) in *.
  assert (Hk1 : 0 <= k1 <= - e) by lia.
  assert (B1 : 0 <= shr_m mrs1 <= 2 ^ (- e1)).
  { rewrite Hm1, He1. replace (- (e + k1)) with (- e - k1) by lia.
    apply div_pow2_le; lia. }
  assert (S1 : loc_of_shr_record mrs1 <> loc_Exact -> shr_m mrs1 < 2 ^ (- e1)).
  { intros Hne. rewrite Hm1, He1. replace (- (e + k1)) with (- e - k1) by lia.
    destruct l as [|c].
    - apply div_pow2_lt_inexact; [lia | lia |].
      intros E. apply Hne, Hx1; [reflexivity|]. rewrite <- Hm1 in *. exact E.
    - apply div_pow2_lt; [lia|]. split; [lia|]. apply Hlt. discriminate. }
  set (m2 := round_nearest_even (shr_m mrs1) (loc_of_shr_record mrs1)).
  assert (B2 : 0 <= m2 <= 2 ^ (- e1)).
  { unfold m2. destruct (loc_of_shr_record mrs1) as [|c] eqn:El; cbn [round_nearest_even].
    - lia.
    - specialize (S1 ltac:(discriminate)).
      destruct c; [destruct (Z.even (shr_m mrs1))| |]; lia. }
  set (n2 := fexp prec emax (Zdigits2 m2 + e1) - e1).
  pose proof (shr_quotient m2 e1 n2 loc_Exact ltac:(lia)) as (Hm3 & He3 & _).
  pose proof (round_exponent_le m2 e1 ltac:(lia) ltac:(lia)) as Hexp2. fold n2 in Hexp2.
  destruct (shr (shr_record_of_loc m2 loc_Exact) e1 n2) as [mrs3 e3]. cbn [fst snd] in *.
  set (k2 := Z.max n2 0) in *.
  assert (B3 : 0 <= shr_m mrs3 <= 2 ^ (- e3)).
  { rewrite Hm3, He3. replace (- (e1 + k2)) with (- e1 - k2) by lia.
    apply div_pow2_le; lia. }
  destruct (shr_m mrs3) as [|p|p] eqn:E3; [left; reflexivity| |lia].
  right. exists p, e3.
  replace (e3 <=? emax - prec) with true
    by (symmetry; apply Z.leb_le; unfold emax, prec; lia).
  repeat split; lia.
Qed.

Lemma valid_finite (s : bool) (m : positive) (e : Z) :
  valid_binary (S754_finite s m e) = true ->
  -1074 <= e <= 971 /\ Zpos (digits2_pos m) <= 53 /\
  (Zpos (digits2_pos m) = 53 \/ e = -1074).
Proof.
  unfold valid_binary, bounded, canonical_mantissa.
  rewrite andb_true_iff, Z.eqb_eq, Z.leb_le.
  unfold fexp, SpecFloat.emin, prec, emax. lia.
Qed.

Lemma fval_nonneg (x : spec_float) : 0 <= fval x.
Proof.
  destruct x as [s|s| |[|] m e]; cbn [fval]; try lia.
Qed.

Lemma pos_digits_bound (m : positive) :
  2 ^ (Zpos (digits2_pos m) - 1) <= Zpos m < 2 ^ Zpos (digits2_pos m).
Proof. exact (Zdigits2_bound (Zpos m) ltac:(lia)). Qed.

(** Between canonical floats a smaller exponent means a smaller value. *)
Lemma fval_lt_of_exponent (mf mm : positive) (ef em : Z) :
  valid_binary (S754_finite false mf ef) = true ->
  valid_binary (S754_finite false mm em) = true ->
  ef < em ->
  fval (S754_finite false mf ef) < fval (S754_finite false mm em).
Proof.
  intros Vf Vm Hlt. apply valid_finite in Vf, Vm.
  destruct Vf as (Hef & Hdf & _). destruct Vm as (Hem & Hdm & [Hn|Hs]); [|lia].
  cbn [fval].
  pose proof (pos_digits_bound mf) as [_ Hf].
  pose proof (pos_digits_bound mm) as [Hm _]. rewrite Hn in Hm.
  assert (Hf53 : Zpos mf < 2 ^ 53).
  { eapply Z.lt_le_trans; [exact Hf|]. apply Z.pow_le_mono_r; lia. }
  assert (P : 0 < 2 ^ (ef + 1074)) by (apply Z.pow_pos_nonneg; lia).
  replace (em + 1074) with ((ef + 1074) + (em - ef)) by lia.
  rewrite (Z.pow_add_r 2 (ef + 1074) (em - ef)) by lia.
  assert (2 ^ 1 <= 2 ^ (em - ef)) by (apply Z.pow_le_mono_r; lia).
  change (2 ^ 1) with 2 in *. change (2 ^ (53 - 1)) with 4503599627370496 in Hm.
  change (2 ^ 53) with 9007199254740992 in Hf53.
  set (A := 2 ^ (ef + 1074)) in *. set (B := 2 ^ (em - ef)) in *.
  assert (H1 : Zpos mf * A < 9007199254740992 * A)
    by (apply Z.mul_lt_mono_pos_r; lia).
  assert (H2 : 9007199254740992 <= Zpos mm * B) by nia.
  assert (H3 : 9007199254740992 * A <= Zpos mm * B * A)
    by (apply Z.mul_le_mono_nonneg_r; lia).
  replace (Zpos mm * (A * B)) with (Zpos mm * B * A) by ring. lia.
Qed.

Lemma SFltb_fval (x y : spec_float) :
  finite_nonneg_sf x -> finite_nonneg_sf y ->
  valid_binary x = true -> valid_binary y = true ->
  if SFltb x y then fval x < fval y else fval y <= fval x.
Proof.
  intros Fx Fy Vx Vy.
  destruct x as [[|]|[|]| |[|] mf ef]; try contradiction;
    destruct y as [[|]|[|]| |[|] mm em]; try contradiction.
  - cbn [SFltb SFcompare fval]. lia.
  - cbn [SFltb SFcompare fval]. apply Z.mul_pos_pos; [lia|].
    apply Z.pow_pos_nonneg; [lia|]. apply valid_finite in Vy. lia.
  - cbn [SFltb SFcompare]. apply fval_nonneg.
  - unfold SFltb, SFcompare.
    destruct (Z.compare_spec ef em) as [E|Hlt|Hgt].
    + subst em. rewrite Pos.compare_cont_spec. cbn [Pos.switch_Eq fval].
      assert (P : 0 < 2 ^ (ef + 1074))
        by (apply valid_finite in Vx; apply Z.pow_pos_nonneg; lia).
      destruct (Pos.compare_spec mf mm) as [->|L|G]; cbv [Pos.switch_Eq].
      * lia.
      * apply Z.mul_lt_mono_pos_r; lia.
      * apply Z.mul_le_mono_nonneg_r; lia.
    + apply fval_lt_of_exponent; assumption.
    + apply Z.lt_le_incl, fval_lt_of_exponent; assumption.
Qed.

Lemma div_eucl_div_mod (a b : Z) : Z.div_eucl a b = (a / b, a mod b).
Proof. unfold Z.div, Z.modulo. destruct (Z.div_eucl a b). reflexivity. Qed.

Lemma new_location_zero (nb : Z) : new_location nb 0 = loc_Exact.
Proof.
  unfold new_location, new_location_even, new_location_odd.
  destruct (Z.even nb); reflexivity.
Qed.

(** The quotient of two positive canonical floats, the first at most the
    second, is zero or a float at most 1. *)
Lemma SFdiv_le_one (mf mm : positive) (ef em : Z) :
  valid_binary (S754_finite false mf ef) = true ->
  valid_binary (S754_finite false mm em) = true ->
  fval (S754_finite false mf ef) <= fval (S754_finite false mm em) ->
  SFdiv prec emax (S754_finite false mf ef) (S754_finite false mm em) = S754_zero false \/
  exists m e,
    SFdiv prec emax (S754_finite false mf ef) (S754_finite false mm em)
    = S754_finite false m e /\ e <= -52 /\ Zpos m <= 2 ^ (- e).
Proof.
  intros Vf Vm Hle. apply valid_finite in Vf, Vm.
  destruct Vf as (Hef & Hdf & _). destruct Vm as (Hem & Hdm & _).
  cbn [fval] in Hle.
  unfold SFdiv, SFdiv_core_binary. cbn [xorb Zdigits2].
  set (d1 := Zpos (digits2_pos mf)) in *. set (d2 := Zpos (digits2_pos mm)) in *.
  pose proof (pos_digits_bound mf) as [Hf1 Hf2]. fold d1 in Hf1, Hf2.
  pose proof (pos_digits_bound mm) as [Hm1 Hm2]. fold d2 in Hm1, Hm2.
  set (a := ef + 1074) in *. set (b := em + 1074) in *.
  assert (Pa : 0 < 2 ^ a) by (apply Z.pow_pos_nonneg; lia).
  assert (Pb : 0 < 2 ^ b) by (apply Z.pow_pos_nonneg; lia).
  (* the exponents of the two values *)
  assert (Hd : d1 + ef <= d2 + em).
  { assert (H1 : 2 ^ (d1 - 1 + a) <= Zpos mf * 2 ^ a).
    { rewrite Z.pow_add_r by lia. apply Z.mul_le_mono_nonneg_r; lia. }
    assert (H2 : Zpos mm * 2 ^ b < 2 ^ (d2 + b)).
    { rewrite Z.pow_add_r by lia. apply Z.mul_lt_mono_pos_r; lia. }
    assert (H3 : 2 ^ (d1 - 1 + a) < 2 ^ (d2 + b)) by lia.
    apply Z.pow_lt_mono_r_iff in H3; lia. }
  set (e' := Z.min (fexp prec emax (d1 + ef - (d2 + em))) (ef - em)).
  assert (He' : e' <= -53 /\ e' <= ef - em)
    by (unfold e', fexp, SpecFloat.emin, prec, emax; lia).
  set (s := ef - em - e').
  assert (Hs : 0 <= s) by (unfold s; lia).
  set (m' := match s with Z.pos _ => Z.shiftl (Zpos mf) s | 0 => Zpos mf | Z.neg _ => 0 end).
  assert (Em' : m' = Zpos mf * 2 ^ s).
  { unfold m'. destruct s as [|p|p] eqn:Es; try lia.
    apply Z.shiftl_mul_pow2. lia. }
  rewrite div_eucl_div_mod.
  assert (Hbound : m' <= Zpos mm * 2 ^ (- e')).
  { assert (H1 : m' * 2 ^ b = Zpos mf * 2 ^ a * 2 ^ (- e')).
    { rewrite Em', <- !Z.mul_assoc, <- !Z.pow_add_r by lia.
      do 2 f_equal. unfold s, a, b. lia. }
    assert (H2 : Zpos mf * 2 ^ a * 2 ^ (- e') <= Zpos mm * 2 ^ b * 2 ^ (- e'))
      by (apply Z.mul_le_mono_nonneg_r; [apply Z.pow_nonneg|]; lia).
    assert (H3 : m' * 2 ^ b <= Zpos mm * 2 ^ (- e') * 2 ^ b)
      by (rewrite H1; etransitivity; [exact H2|]; apply Z.eq_le_incl; ring).
    apply Z.mul_le_mono_pos_r in H3; lia. }
  assert (Hm'0 : 0 <= m').
  { rewrite Em'. apply Z.mul_nonneg_nonneg; [lia|]. apply Z.pow_nonneg. lia. }
  apply binary_round_aux_le_one.
  - apply Z.div_pos; lia.
  - lia.
  - apply Z.div_le_upper_bound; lia.
  - intros Hloc.
    assert (Hr : m' mod Zpos mm <> 0)
      by (intros E; apply Hloc; rewrite E; apply new_location_zero).
    pose proof (Z.div_mod m' (Zpos mm) ltac:(lia)) as Hdm'.
    pose proof (Z.mod_pos_bound m' (Zpos mm) ltac:(lia)) as Hmb.
    assert (Hlt : Zpos mm * (m' / Zpos mm) < Zpos mm * 2 ^ (- e')) by lia.
    apply Z.mul_lt_mono_pos_l in Hlt; lia.
Qed.

Lemma in_unit_of_SF (y : float) :
  Prim2SF y = S754_zero false \/
  (exists m e, Prim2SF y = S754_finite false m e /\ e <= -52 /\ Zpos m <= 2 ^ (- e)) ->
  in_unit y = true.
Proof.
  unfold in_unit. rewrite !leb_spec.
  change (Prim2SF 0) with (S754_zero false).
  change (Prim2SF 1) with (S754_finite false 4503599627370496 (-52)).
  intros [E|(m & e & E & He & Hm)]; rewrite E; [reflexivity|].
  cbn [SFleb SFcompare andb].
  destruct (Z.compare_spec e (-52)) as [->|Hlt|Hgt]; [|reflexivity|lia].
  rewrite Pos.compare_cont_spec. cbv [Pos.switch_Eq].
  change (2 ^ (- -52)) with (Zpos 4503599627370496) in Hm.
  destruct (Pos.compare_spec m 4503599627370496) as [->|L|G]; try reflexivity. lia.
Qed.

(** A magnitude normalised by a maximum that is at least as large lies in
    the unit interval. *)
Lemma normalize_in_unit (f m : float) :
  finite_nonneg f -> finite_nonneg m -> fv f <= fv m ->
  in_unit (normalize f 0 m) = true.
Proof.
  unfold finite_nonneg, fv, normalize. intros Ff Fm Hle.
  pose proof (Prim2SF_valid f) as Vf. pose proof (Prim2SF_valid m) as Vm.
  rewrite eqb_spec. change (Prim2SF 0) with (S754_zero false).
  destruct (Prim2SF m) as [[|]|[|]| |[|] mm em] eqn:Em; try contradiction.
  - cbn [SFeqb SFcompare]. apply in_unit_of_SF. left. exact Em.
  - cbn [SFeqb SFcompare]. apply in_unit_of_SF.
    rewrite div_spec, !sub_spec, Em. change (Prim2SF 0) with (S754_zero false).
    destruct (Prim2SF f) as [[|]|[|]| |[|] mf ef] eqn:Ef; try contradiction.
    + left. reflexivity.
    + cbn [SF64sub SFsub]. apply SFdiv_le_one; assumption.
Qed.

Lemma ltb_fv (x y : float) :
  finite_nonneg x -> finite_nonneg y ->
  if (x <? y)%float then fv x < fv y else fv y <= fv x.
Proof.
  intros Fx Fy. rewrite ltb_spec.
  apply SFltb_fval; try assumption; apply Prim2SF_valid.
Qed.

Lemma fv_nonneg (x : float) : 0 <= fv x.
Proof. apply fval_nonneg. Qed.

(** * The pipeline *)

Section PipelineFacts.
Context {L : Libraries}.

Lemma spectral_analyzer_bins (v : Visualizer) (samples : list float) (peak : float) :
  0 <= maxLedCount v ->
  exists X Y,
    spectral_analyzer v samples peak
    = Ok (map (fun i => piecewiselinear_At X Y
                          (float64_of_int i / float64_of_int (maxLedCount v - 1))%float)
              (indices (maxLedCount v))).
Proof.
  intros Hm. unfold spectral_analyzer.
  destruct (magnitudes samples) as [freqs maxfreq].
  destruct (SpanLog_len_ok (map (fun f => normalize f 0 maxfreq) (silence_gate peak freqs)))
    as [X EX].
  rewrite EX. cbn [bind]. unfold make_float64.
  replace (maxLedCount v <? 0) with false by (symmetry; apply Z.ltb_ge; lia).
  cbn [bind]. unfold len. rewrite repeat_length, Z2Nat.id by lia. eauto.
Qed.

(** The colour synthesizer computes the value component of an LED and
    hands it to [colorful.Hsv]. *)
Lemma pixel_value (v : Visualizer) (freq peak : float) :
  pixel v freq peak = pixel_at_value v freq (shaped_value freq peak).
Proof.
  unfold pixel, pixel_at_value.
  destruct (colorful_Color_Hsv _) as [[hue sat] val0]. reflexivity.
Qed.

Lemma color_synthesizer_repeat (v : Visualizer) (freq peak : float) (n : nat) :
  color_synthesizer v (repeat freq n) peak = concat (repeat (pixel v freq peak) n).
Proof.
  unfold color_synthesizer.
  induction n as [|n IH]; [reflexivity|].
  cbn [repeat flat_map concat]. rewrite IH. reflexivity.
Qed.

(** C7: when [peak == 0] the gate overwrites every magnitude with zero,
    the remapped spectrum is [maxLedCount] zeros, and the shaped value of
    every LED is 0.25: the colour synthesizer gives every LED the pixel of
    the gradient colour at 0 with the value component 0.25, and the frame
    is [maxLedCount] copies of that pixel.  The interpolation is the
    external package's; what is used of it is that a function whose
    ordinates are all zero is zero at every point of the axis
    [SpanLog(0, 1, n)]. *)
Theorem silent_frame_floor_brightness
        (v : Visualizer) (samples : list float) (peak : float) :
  (forall (n : nat) (X : list float) (x : float),
      SpanLog 0 1 (Z.of_nat n) = Ok X ->
      piecewiselinear_At X (repeat 0%float n) x = 0%float) ->
  (peak =? 0)%float = true ->
  0 <= maxLedCount v ->
  silence_gate peak (fst (magnitudes samples))
  = repeat 0%float (length (fst (magnitudes samples))) /\
  spectral_analyzer v samples peak
  = Ok (repeat 0%float (Z.to_nat (maxLedCount v))) /\
  (forall freq, In freq (repeat 0%float (Z.to_nat (maxLedCount v))) ->
                shaped_value freq peak = 0.25%float) /\
  (forall freq, In freq (repeat 0%float (Z.to_nat (maxLedCount v))) ->
                pixel v freq peak = pixel_at_value v 0 0.25) /\
  frame v samples peak
  = Ok (concat (repeat (pixel_at_value v 0 0.25) (Z.to_nat (maxLedCount v)))).
Proof.
  intros HAt Hpeak Hm.
  assert (Bins : spectral_analyzer v samples peak
                 = Ok (repeat 0%float (Z.to_nat (maxLedCount v)))).
  { unfold spectral_analyzer.
    pose proof (magnitudes_maxfreq samples) as Hmax.
    destruct (magnitudes samples) as [freqs maxfreq]. cbn [snd] in Hmax.
    rewrite silence_gate_zero by assumption.
    rewrite map_repeat, normalize_zero by assumption.
    unfold len. rewrite repeat_length.
    destruct (SpanLog_len_ok freqs) as [X EX]. unfold len in EX.
    rewrite EX. cbn [bind]. unfold make_float64.
    replace (maxLedCount v <? 0) with false by (symmetry; apply Z.ltb_ge; lia).
    cbn [bind]. f_equal.
    rewrite (map_ext _ (fun _ => 0%float)) by (intros i; apply (HAt _ _ _ EX)).
    rewrite map_const_repeat, indices_length, repeat_length, Nat2Z.id.
    reflexivity. }
  split; [|split; [|split; [|split]]].
  - apply silence_gate_zero, Hpeak.
  - exact Bins.
  - intros freq Hin. apply repeat_spec in Hin. subst freq.
    apply shaped_value_silent, Hpeak.
  - intros freq Hin. apply repeat_spec in Hin. subst freq.
    rewrite pixel_value, shaped_value_silent by exact Hpeak. reflexivity.
  - unfold frame. rewrite Bins. cbn [bind].
    rewrite color_synthesizer_repeat, pixel_value, shaped_value_silent by exact Hpeak.
    reflexivity.
Qed.

(** C4: a call that finds the single-flight flag set returns at once: the
    visualizer and the package variables, the history among them, are
    unchanged, no event is sent, and the call does not panic. *)
Theorem process_single_flight
        (v : Visualizer) (g : Package) (samples : list float) (peak : float) :
  processing v = true ->
  process v g samples peak = Ok (v, g, None).
Proof. intros H. unfold process, enter. rewrite H. reflexivity. Qed.

(** The flag is set for the whole time a call is active, so a call
    dispatched meanwhile is skipped. *)
Lemma process_while_active
      (v v1 : Visualizer) (g : Package) (samples : list float) (peak : float) :
  enter v = Some v1 ->
  process v1 g samples peak = Ok (v1, g, None).
Proof.
  unfold enter. destruct (processing v); [discriminate|].
  intros [= <-]. reflexivity.
Qed.

(** A call that runs appends its frame to the package-level history. *)
Lemma process_history
      (v v' : Visualizer) (g g' : Package) (samples : list float) (peak : float)
      (e : visualizer.UpdateEvent) :
  process v g samples peak = Ok (v', g', Some e) ->
  exists pix pix3,
    frame v samples peak = Ok pix /\
    pixs g' = push_history (windowSize v) (pixs g) pix /\
    temporal_smoother (pixs g') pix = Ok pix3 /\
    segment_distributor (segments v) pix3 = Ok (visualizer.Segments e).
Proof.
  unfold process, enter. destruct (processing v); [discriminate|].
  unfold run.
  change (frame (set_processing true v) samples peak) with (frame v samples peak).
  destruct (frame v samples peak) as [pix|]; [|discriminate]. cbn [bind].
  cbn [windowSize segments set_processing].
  destruct (temporal_smoother _ pix) as [pix3|] eqn:E3; [|discriminate]. cbn [bind].
  destruct (segment_distributor _ pix3) as [segs|] eqn:E4; [|discriminate].
  cbn [bind fst snd]. intros [= <- <- <-].
  exists pix, pix3. cbn [pixs visualizer.Segments]. auto.
Qed.

End PipelineFacts.

(** * Range of the remapped spectrum *)

Section SpectralRange.
Context {L : Libraries}.

Lemma magnitudes_from_fst (coeff : list complex128) :
  forall freqs m,
    fst (fold_left (fun (acc : list float * float) c =>
                      let (freqs, maxfreq) := acc in
                      (freqs ++ [cmplx_Abs c],
                       if (maxfreq <? cmplx_Abs c)%float then cmplx_Abs c else maxfreq))
                   coeff (freqs, m))
    = freqs ++ map cmplx_Abs coeff.
Proof.
  induction coeff as [|c coeff IH]; intros freqs m; cbn [fold_left map].
  - rewrite app_nil_r. reflexivity.
  - rewrite IH, <- app_assoc. reflexivity.
Qed.

Lemma magnitudes_from_bounded (coeff : list complex128) :
  Forall finite_nonneg (map cmplx_Abs coeff) ->
  forall freqs m,
    finite_nonneg m ->
    Forall (fun f => finite_nonneg f /\ fv f <= fv m) freqs ->
    let r := fold_left (fun (acc : list float * float) c =>
                          let (freqs, maxfreq) := acc in
                          (freqs ++ [cmplx_Abs c],
                           if (maxfreq <? cmplx_Abs c)%float then cmplx_Abs c else maxfreq))
                       coeff (freqs, m) in
    finite_nonneg (snd r) /\
    Forall (fun f => finite_nonneg f /\ fv f <= fv (snd r)) (fst r).
Proof.
  induction coeff as [|c coeff IH]; intros Hc freqs m Hm Hf; cbn [fold_left map] in *.
  - auto.
  - inversion Hc as [|c' cs Hc1 Hc2]; subst.
    apply IH; [assumption| |].
    + destruct (m <? cmplx_Abs c)%float; assumption.
    + pose proof (ltb_fv m (cmplx_Abs c) Hm Hc1) as Hcmp.
      destruct (m <? cmplx_Abs c)%float.
      * apply Forall_app. split.
        -- eapply Forall_impl; [|exact Hf]. cbv beta. intros f [H1 H2]. split; [assumption|lia].
        -- constructor; [|constructor]. split; [assumption|lia].
      * apply Forall_app. split; [exact Hf|].
        constructor; [|constructor]. split; assumption.
Qed.

Lemma magnitudes_bounded (samples : list float) :
  Forall finite_nonneg (fst (magnitudes samples)) ->
  finite_nonneg (snd (magnitudes samples)) /\
  Forall (fun f => finite_nonneg f /\ fv f <= fv (snd (magnitudes samples)))
         (fst (magnitudes samples)).
Proof.
  unfold magnitudes. intros H. rewrite magnitudes_from_fst in H. cbn [app] in H.
  apply magnitudes_from_bounded; [exact H|exact I|constructor].
Qed.

Lemma silence_gate_bounded (peak m : float) (freqs : list float) :
  Forall (fun f => finite_nonneg f /\ fv f <= fv m) freqs ->
  Forall (fun f => finite_nonneg f /\ fv f <= fv m) (silence_gate peak freqs).
Proof.
  intros H. unfold silence_gate. destruct (peak =? 0)%float; [|exact H].
  apply Forall_forall. intros f Hin. apply in_map_iff in Hin as (x & <- & _).
  split; [exact I|]. apply fv_nonneg.
Qed.

(** C3: every normalised magnitude lies within [[0, 1]], and the spectral
    analyzer returns [maxLedCount] values, each within [[0, 1]].  The FFT
    and the interpolation are external packages; what is used of them is
    that the magnitudes are finite and non-negative, and that a
    piecewise-linear function evaluated on the axis [SpanLog(0, 1, n)]
    stays within [[0, 1]] when its ordinates do. *)
Theorem spectral_bins_unit_range
        (v : Visualizer) (samples : list float) (peak : float) :
  Forall finite_nonneg (fst (magnitudes samples)) ->
  (forall (X Y : list float) (x : float),
      SpanLog 0 1 (len Y) = Ok X ->
      Forall (fun y => in_unit y = true) Y ->
      in_unit (piecewiselinear_At X Y x) = true) ->
  0 <= maxLedCount v ->
  Forall (fun y => in_unit y = true)
         (map (fun f => normalize f 0 (snd (magnitudes samples)))
              (silence_gate peak (fst (magnitudes samples)))) /\
  exists bins,
    spectral_analyzer v samples peak = Ok bins /\
    len bins = maxLedCount v /\
    Forall (fun b => in_unit b = true) bins.
Proof.
  intros Hmag HAt Hm.
  destruct (magnitudes_bounded samples Hmag) as [Hmax Hfreqs].
  unfold spectral_analyzer.
  destruct (magnitudes samples) as [freqs maxfreq]. cbn [fst snd] in *.
  set (Y := map (fun f => normalize f 0 maxfreq) (silence_gate peak freqs)).
  assert (HY : Forall (fun y => in_unit y = true) Y).
  { apply Forall_forall. intros y Hin. apply in_map_iff in Hin as (f & <- & Hin).
    pose proof (silence_gate_bounded peak maxfreq freqs Hfreqs) as Hg.
    rewrite Forall_forall in Hg. destruct (Hg f Hin) as [Hf Hle].
    apply normalize_in_unit; assumption. }
  split; [exact HY|].
  destruct (SpanLog_len_ok Y) as [X EX]. rewrite EX. cbn [bind].
  unfold make_float64.
  replace (maxLedCount v <? 0) with false by (symmetry; apply Z.ltb_ge; lia).
  cbn [bind]. eexists. split; [reflexivity|]. split.
  - unfold len.
    rewrite length_map, indices_length, repeat_length, Nat2Z.id, Z2Nat.id by lia.
    reflexivity.
  - apply Forall_forall. intros b Hin. apply in_map_iff in Hin as (i & <- & _).
    apply (HAt X Y _ EX HY).
Qed.

End SpectralRange.

(** * The history is shared by all visualizers *)

Section SharedHistory.
Context {L : Libraries}.

Lemma pixel_shape (v : Visualizer) (freq peak : float) :
  exists r g b, pixel v freq peak = [r; g; b; 255].
Proof.
  unfold pixel.
  destruct (colorful_Color_Hsv _) as [[hue sat] val0].
  destruct (colorful_Color_RGBA _) as [[[r g] b] a]. eauto.
Qed.

Lemma frame_one_led (v : Visualizer) (samples : list float) (peak : float) :
  maxLedCount v = 1 ->
  exists r g b, frame v samples peak = Ok [r; g; b; 255].
Proof.
  intros Hm. unfold frame.
  destruct (spectral_analyzer_bins v samples peak ltac:(lia)) as (X & Y & E).
  rewrite E, Hm.
  change (indices 1) with [0]. cbn [bind map].
  unfold color_synthesizer. cbn [flat_map].
  match goal with
  | |- context [pixel ?v ?f ?p] => destruct (pixel_shape v f p) as (r & g & b & ->)
  end.
  cbn [app]. eauto.
Qed.

Lemma frame_two_leds (v : Visualizer) (samples : list float) (peak : float) :
  maxLedCount v = 2 ->
  exists r g b r' g' b', frame v samples peak = Ok [r; g; b; 255; r'; g'; b'; 255].
Proof.
  intros Hm. unfold frame.
  destruct (spectral_analyzer_bins v samples peak ltac:(lia)) as (X & Y & E).
  rewrite E, Hm.
  change (indices 2) with [0; 1]. cbn [bind map].
  unfold color_synthesizer. cbn [flat_map].
  match goal with
  | |- context [pixel ?v ?f ?p ++ _] =>
      destruct (pixel_shape v f p) as (r & g & b & ->)
  end.
  match goal with
  | |- context [pixel ?v ?f ?p] => destruct (pixel_shape v f p) as (r' & g' & b' & ->)
  end.
  cbn [app]. eauto 8.
Qed.

(** C10: the history is a package variable, so a frame processed by one
    visualizer is in the history the next visualizer averages over.  Take a
    1-LED visualizer [v1] and a 2-LED visualizer [v2], both with a window
    of 2.  Whatever the input and whatever the external libraries compute:
    after [v1] has processed a frame, the history [v2] smooths is
    [[f1; f2]] instead of [[f2]], and the event [v2] sends differs from the
    one it sends when it runs alone. *)
Theorem history_shared_between_instances (samples : list float) (peak : float) :
  let v1 := demo_visualizer 1 2 [{| Id := 0; Leds := 1 |}] false in
  let v2 := demo_visualizer 2 2 [{| Id := 0; Leds := 2 |}] false in
  exists (f1 f2 : list byte)
         (alone after : Visualizer * Package * option visualizer.UpdateEvent),
    frame v1 samples peak = Ok f1 /\
    frame v2 samples peak = Ok f2 /\
    process v2 empty_package samples peak = Ok alone /\
    (r <- process v1 empty_package samples peak ;;
     process v2 (snd (fst r)) samples peak) = Ok after /\
    pixs (snd (fst alone)) = [f2] /\
    pixs (snd (fst after)) = [f1; f2] /\
    snd alone <> snd after.
Proof.
  intros v1 v2.
  destruct (frame_one_led v1 samples peak eq_refl) as (r1 & g1 & b1 & F1).
  destruct (frame_two_leds v2 samples peak eq_refl)
    as (r & g & b & r' & g' & b' & F2).
  exists [r1; g1; b1; 255], [r; g; b; 255; r'; g'; b'; 255].
  assert (P2 : forall h n,
             process v2 {| pixs := h; it := n |} samples peak
             = (pix3 <- temporal_smoother
                          (push_history 2 h [r; g; b; 255; r'; g'; b'; 255])
                          [r; g; b; 255; r'; g'; b'; 255] ;;
                segs <- segment_distributor [{| Id := 0; Leds := 2 |}] pix3 ;;
                Ok (v2, {| pixs := push_history 2 h [r; g; b; 255; r'; g'; b'; 255];
                           it := n + len segs |},
                    Some {| visualizer.Segments := segs |}))).
  { intros h n. unfold process, enter, run. cbn [processing v2 demo_visualizer].
    change (frame (set_processing true v2) samples peak) with (frame v2 samples peak).
    rewrite F2. cbn [bind pixs it windowSize segments set_processing v2 demo_visualizer].
    destruct (temporal_smoother _ _) as [pix3|]; [|reflexivity]. cbn [bind].
    destruct (segment_distributor _ pix3) as [segs|]; reflexivity. }
  assert (P1 : exists e1,
               process v1 empty_package samples peak
               = Ok (v1, {| pixs := [[r1; g1; b1; 255]]; it := 1 |}, Some e1)).
  { unfold process, enter, run. cbn [processing v1 demo_visualizer].
    change (frame (set_processing true v1) samples peak) with (frame v1 samples peak).
    rewrite F1. cbn. eexists. reflexivity. }
  destruct P1 as [e1 P1].
  do 2 eexists. split; [exact F1|]. split; [exact F2|].
  split; [|split].
  - unfold empty_package. rewrite P2. cbn. reflexivity.
  - rewrite P1. cbn [bind fst snd]. rewrite P2. cbn. reflexivity.
  - split; [reflexivity|]. split; [reflexivity|].
    cbn [snd]. intros H.
    apply (f_equal (fun event =>
                      match event with
                      | Some {| visualizer.Segments := s :: _ |} =>
                          nth 7 (visualizer.Pix s) 0
                      | _ => 0
                      end)) in H.
    vm_compute in H. discriminate H.
Qed.

End SharedHistory.

(** * The theorems at concrete inputs *)

Lemma process_single_flight_witness :
  processing (demo_visualizer 2 2 [{| Id := 0; Leds := 2 |}] true) = true /\
  @process demo_libraries (demo_visualizer 2 2 [{| Id := 0; Leds := 2 |}] true)
           {| pixs := [[9; 9; 9; 255; 9; 9; 9; 255]]; it := 5 |}
           [1%float; 2%float] 1%float
  = Ok (demo_visualizer 2 2 [{| Id := 0; Leds := 2 |}] true,
        {| pixs := [[9; 9; 9; 255; 9; 9; 9; 255]]; it := 5 |}, None).
Proof.
  split; [reflexivity|].
  apply (@process_single_flight demo_libraries). reflexivity.
Defined.

Lemma silent_frame_floor_brightness_witness :
  ((forall (n : nat) (X : list float) (x : float),
       SpanLog 0 1 (Z.of_nat n) = Ok X ->
       @piecewiselinear_At demo_libraries X (repeat 0%float n) x = 0%float) /\
   (0 =? 0)%float = true /\
   0 <= maxLedCount (demo_visualizer 2 2 [{| Id := 0; Leds := 2 |}] false)) /\
  (silence_gate 0 (fst (@magnitudes demo_libraries [3%float; 4%float]))
   = repeat 0%float (length (fst (@magnitudes demo_libraries [3%float; 4%float]))) /\
   @spectral_analyzer demo_libraries
     (demo_visualizer 2 2 [{| Id := 0; Leds := 2 |}] false) [3%float; 4%float] 0
   = Ok (repeat 0%float
           (Z.to_nat (maxLedCount (demo_visualizer 2 2 [{| Id := 0; Leds := 2 |}] false)))) /\
   (forall freq,
       In freq (repeat 0%float
                  (Z.to_nat (maxLedCount (demo_visualizer 2 2 [{| Id := 0; Leds := 2 |}] false)))) ->
       shaped_value freq 0 = 0.25%float) /\
   (forall freq,
       In freq (repeat 0%float
                  (Z.to_nat (maxLedCount (demo_visualizer 2 2 [{| Id := 0; Leds := 2 |}] false)))) ->
       @pixel demo_libraries (demo_visualizer 2 2 [{| Id := 0; Leds := 2 |}] false) freq 0
       = @pixel_at_value demo_libraries
           (demo_visualizer 2 2 [{| Id := 0; Leds := 2 |}] false) 0 0.25) /\
   @frame demo_libraries
     (demo_visualizer 2 2 [{| Id := 0; Leds := 2 |}] false) [3%float; 4%float] 0
   = Ok (concat
           (repeat (@pixel_at_value demo_libraries
                      (demo_visualizer 2 2 [{| Id := 0; Leds := 2 |}] false) 0 0.25)
              (Z.to_nat (maxLedCount (demo_visualizer 2 2 [{| Id := 0; Leds := 2 |}] false)))))).
Proof.
  assert (HAt : forall (n : nat) (X : list float) (x : float),
             SpanLog 0 1 (Z.of_nat n) = Ok X ->
             @piecewiselinear_At demo_libraries X (repeat 0%float n) x = 0%float)
    by (intros [|n] X x _; reflexivity).
  assert (Hpeak : (0 =? 0)%float = true) by reflexivity.
  assert (Hm : 0 <= maxLedCount (demo_visualizer 2 2 [{| Id := 0; Leds := 2 |}] false))
    by (simpl; lia).
  split; [auto|].
  exact (@silent_frame_floor_brightness demo_libraries
           (demo_visualizer 2 2 [{| Id := 0; Leds := 2 |}] false)
           [3%float; 4%float] 0%float HAt Hpeak Hm).
Defined.

Lemma spectral_bins_unit_range_witness :
  (Forall finite_nonneg (fst (@magnitudes demo_libraries [3%float; 4%float])) /\
   (forall (X Y : list float) (x : float),
       SpanLog 0 1 (len Y) = Ok X ->
       Forall (fun y => in_unit y = true) Y ->
       in_unit (@piecewiselinear_At demo_libraries X Y x) = true) /\
   0 <= maxLedCount (demo_visualizer 2 2 [{| Id := 0; Leds := 2 |}] false)) /\
  (Forall (fun y => in_unit y = true)
          (map (fun f => normalize f 0 (snd (@magnitudes demo_libraries [3%float; 4%float])))
               (silence_gate 1 (fst (@magnitudes demo_libraries [3%float; 4%float])))) /\
   exists bins,
     @spectral_analyzer demo_libraries
       (demo_visualizer 2 2 [{| Id := 0; Leds := 2 |}] false) [3%float; 4%float] 1
     = Ok bins /\
     len bins = maxLedCount (demo_visualizer 2 2 [{| Id := 0; Leds := 2 |}] false) /\
     Forall (fun b => in_unit b = true) bins).
Proof.
  assert (Hmag : Forall finite_nonneg (fst (@magnitudes demo_libraries [3%float; 4%float])))
    by (repeat constructor).
  assert (HAt : forall (X Y : list float) (x : float),
             SpanLog 0 1 (len Y) = Ok X ->
             Forall (fun y => in_unit y = true) Y ->
             in_unit (@piecewiselinear_At demo_libraries X Y x) = true).
  { intros X Y x _ HY. destruct HY as [|y Y Hy _]; [reflexivity|exact Hy]. }
  assert (Hm : 0 <= maxLedCount (demo_visualizer 2 2 [{| Id := 0; Leds := 2 |}] false))
    by (simpl; lia).
  split; [auto|].
  exact (@spectral_bins_unit_range demo_libraries
           (demo_visualizer 2 2 [{| Id := 0; Leds := 2 |}] false)
           [3%float; 4%float] 1%float Hmag HAt Hm).
Defined.

(** * Sample words: readInt32, readInt16 and the decoder *)

Lemma lor_shiftl_add (a b k : Z) :
  0 <= k -> 0 <= a < 2 ^ k -> 0 <= b -> Z.lor a (Z.shiftl b k) = a + b * 2 ^ k.
Proof.
  intros Hk Ha Hb.
  assert (D : Z.land a (Z.shiftl b k) = 0).
  { apply Z.bits_inj'. intros n Hn. rewrite Z.land_spec, Z.bits_0.
    destruct (Z.lt_ge_cases n k) as [L|G].
    - rewrite Z.shiftl_spec_low by lia. apply andb_false_r.
    - destruct (Z.eq_dec a 0) as [->|Na]; [rewrite Z.bits_0; reflexivity|].
      rewrite (Z.bits_above_log2 a n); [reflexivity|lia|].
      apply Z.lt_le_trans with k; [|lia]. apply Z.log2_lt_pow2; lia. }
  rewrite <- Z.lxor_lor by exact D.
  rewrite <- Z.add_nocarry_lxor by exact D.
  rewrite Z.shiftl_mul_pow2 by lia. reflexivity.
Qed.

(** The four bytes are the base-256 digits of the word, least significant
    first. *)
Lemma readInt32_value (b0 b1 b2 b3 : byte) :
  is_byte b0 -> is_byte b1 -> is_byte b2 -> is_byte b3 ->
  readInt32 [b0; b1; b2; b3]
  = Ok (int32 (b0 + 256 * b1 + 65536 * b2 + 16777216 * b3)).
Proof.
  unfold is_byte. intros H0 H1 H2 H3. unfold readInt32. cbn [nth_error].
  do 2 f_equal. unfold uint32.
  change (2 ^ 32) with 4294967296.
  rewrite !(Z.mod_small b0), !(Z.mod_small b1), !(Z.mod_small b2), !(Z.mod_small b3) by lia.
  assert (S1 : Z.shiftl b1 8 = b1 * 256) by (apply Z.shiftl_mul_pow2; lia).
  assert (S2 : Z.shiftl b2 16 = b2 * 65536) by (apply Z.shiftl_mul_pow2; lia).
  assert (S3 : Z.shiftl b3 24 = b3 * 16777216) by (apply Z.shiftl_mul_pow2; lia).
  rewrite (Z.mod_small (Z.shiftl b1 8)), (Z.mod_small (Z.shiftl b2 16)),
    (Z.mod_small (Z.shiftl b3 24)) by lia.
  rewrite (lor_shiftl_add b0 b1 8) by (change (2 ^ 8) with 256; lia).
  change (2 ^ 8) with 256.
  rewrite (lor_shiftl_add (b0 + b1 * 256) b2 16) by (change (2 ^ 16) with 65536; lia).
  change (2 ^ 16) with 65536.
  rewrite (lor_shiftl_add (b0 + b1 * 256 + b2 * 65536) b3 24)
    by (change (2 ^ 24) with 16777216; lia).
  change (2 ^ 24) with 16777216. lia.
Qed.

Lemma readInt16_value (b0 b1 : byte) :
  is_byte b0 -> is_byte b1 ->
  readInt16 [b0; b1] = Ok (int16 (b0 + 256 * b1)).
Proof.
  unfold is_byte. intros H0 H1. unfold readInt16. cbn [nth_error].
  do 2 f_equal. unfold uint32.
  change (2 ^ 32) with 4294967296.
  rewrite !(Z.mod_small b0), !(Z.mod_small b1) by lia.
  assert (S1 : Z.shiftl b1 8 = b1 * 256) by (apply Z.shiftl_mul_pow2; lia).
  rewrite (Z.mod_small (Z.shiftl b1 8)) by lia.
  rewrite (lor_shiftl_add b0 b1 8) by (change (2 ^ 8) with 256; lia).
  change (2 ^ 8) with 256. lia.
Qed.

Lemma int32_range (z : Z) : - 2 ^ 31 <= int32 z < 2 ^ 31.
Proof.
  unfold int32. cbv zeta. pose proof (Z.mod_pos_bound z (2 ^ 32) ltac:(lia)) as H.
  destruct (Z.ltb_spec (z mod 2 ^ 32) (2 ^ 31)); lia.
Qed.

Lemma int32_small (z : Z) : - 2 ^ 31 <= z < 2 ^ 31 -> int32 z = z.
Proof.
  intros H. unfold int32. cbv zeta.
  change (2 ^ 31) with 2147483648 in *. change (2 ^ 32) with 4294967296 in *.
  destruct (Z.ltb_spec (z mod 4294967296) 2147483648); Z.div_mod_to_equations; lia.
Qed.

Lemma int32_mod (z : Z) : int32 z mod 2 ^ 32 = z mod 2 ^ 32.
Proof.
  unfold int32. cbv zeta. change (2 ^ 31) with 2147483648. change (2 ^ 32) with 4294967296.
  destruct (Z.ltb_spec (z mod 4294967296) 2147483648); Z.div_mod_to_equations; lia.
Qed.

Lemma int16_small (z : Z) : - 2 ^ 15 <= z < 2 ^ 15 -> int16 z = z.
Proof.
  intros H. unfold int16. cbv zeta.
  change (2 ^ 15) with 32768 in *. change (2 ^ 16) with 65536 in *.
  destruct (Z.ltb_spec (z mod 65536) 32768); Z.div_mod_to_equations; lia.
Qed.

Lemma le_bytes (x : Z) :
  x mod 256 + 256 * (x / 256 mod 256) + 65536 * (x / 65536 mod 256)
  + 16777216 * (x / 16777216 mod 256) = x mod 4294967296.
Proof.
  pose proof (Z.div_mod x 256 ltac:(lia)).
  pose proof (Z.div_mod (x / 256) 256 ltac:(lia)).
  pose proof (Z.div_mod (x / 256 / 256) 256 ltac:(lia)).
  pose proof (Z.div_mod (x / 256 / 256 / 256) 256 ltac:(lia)).
  pose proof (Z.mod_pos_bound x 256 ltac:(lia)).
  pose proof (Z.mod_pos_bound (x / 256) 256 ltac:(lia)).
  pose proof (Z.mod_pos_bound (x / 256 / 256) 256 ltac:(lia)).
  pose proof (Z.mod_pos_bound (x / 256 / 256 / 256) 256 ltac:(lia)).
  replace (x / 65536) with (x / 256 / 256) by (rewrite Z.div_div by lia; reflexivity).
  replace (x / 16777216) with (x / 256 / 256 / 256)
    by (rewrite !Z.div_div by lia; reflexivity).
  apply Z.mod_unique with (x / 256 / 256 / 256 / 256); lia.
Qed.

(** X1: every 32-bit signed integer is read back from its four
    little-endian two's-complement bytes. *)
Theorem readInt32_round_trip (x : Z) :
  - 2 ^ 31 <= x < 2 ^ 31 ->
  readInt32 [x mod 256; x / 256 mod 256; x / 65536 mod 256; x / 16777216 mod 256]
  = Ok x.
Proof.
  intros Hx.
  rewrite readInt32_value
    by (unfold is_byte;
        match goal with |- 0 <= ?a mod 256 <= 255 =>
          pose proof (Z.mod_pos_bound a 256 ltac:(lia)); lia end).
  rewrite le_bytes. f_equal.
  rewrite <- (int32_small x Hx) at 2.
  unfold int32. change (2 ^ 32) with 4294967296. rewrite Z.mod_mod by lia. reflexivity.
Qed.

Lemma readInt32_round_trip_witness :
  - 2 ^ 31 <= -2 < 2 ^ 31 /\ readInt32 [254; 255; 255; 255] = Ok (-2).
Proof.
  split; [lia|]. exact (readInt32_round_trip (-2) ltac:(lia)).
Defined.

(** X2: two different four-byte words are never read as the same integer. *)
Theorem readInt32_injective (b c : list byte) (v : Z) :
  length b = 4%nat -> length c = 4%nat ->
  Forall is_byte b -> Forall is_byte c ->
  readInt32 b = Ok v -> readInt32 c = Ok v -> b = c.
Proof.
  intros Lb Lc Fb Fc.
  destruct b as [|b0 [|b1 [|b2 [|b3 [|]]]]]; try discriminate Lb.
  destruct c as [|c0 [|c1 [|c2 [|c3 [|]]]]]; try discriminate Lc.
  repeat match goal with H : Forall _ (_ :: _) |- _ =>
    let a := fresh "B" in inversion H as [|? ? a ?]; subst; clear H end.
  rewrite !readInt32_value by assumption.
  intros E1 E2.
  assert (E0 : int32 (b0 + 256 * b1 + 65536 * b2 + 16777216 * b3)
               = int32 (c0 + 256 * c1 + 65536 * c2 + 16777216 * c3)) by congruence.
  assert (E : (b0 + 256 * b1 + 65536 * b2 + 16777216 * b3) mod 2 ^ 32
              = (c0 + 256 * c1 + 65536 * c2 + 16777216 * c3) mod 2 ^ 32).
  { rewrite <- int32_mod, E0, int32_mod. reflexivity. }
  unfold is_byte in *. change (2 ^ 32) with 4294967296 in E.
  rewrite !Z.mod_small in E by lia.
  assert (b0 = c0) by lia. assert (b1 = c1) by lia. assert (b2 = c2) by lia.
  assert (b3 = c3) by lia. congruence.
Qed.

Lemma readInt32_injective_witness :
  (length [1; 2; 3; 4] = 4%nat /\ length [1; 2; 3; 4] = 4%nat /\
   Forall is_byte [1; 2; 3; 4] /\ Forall is_byte [1; 2; 3; 4] /\
   readInt32 [1; 2; 3; 4] = Ok 67305985 /\ readInt32 [1; 2; 3; 4] = Ok 67305985) /\
  [1; 2; 3; 4] = [1; 2; 3; 4].
Proof.
  assert (F : Forall is_byte [1; 2; 3; 4])
    by (repeat (apply Forall_cons; [unfold is_byte; lia|]); apply Forall_nil).
  assert (R : readInt32 [1; 2; 3; 4] = Ok 67305985) by reflexivity.
  split; [repeat split; assumption|].
  exact (readInt32_injective [1; 2; 3; 4] [1; 2; 3; 4] 67305985 eq_refl eq_refl F F R R).
Defined.

(** X3: [readInt32] panics exactly on a slice of fewer than four bytes,
    and of a longer slice it reads the first four bytes only. *)
Theorem readInt32_short_slice (b : list byte) :
  (readInt32 b = Panic <-> (length b < 4)%nat) /\
  (forall b0 b1 b2 b3 rest, b = b0 :: b1 :: b2 :: b3 :: rest ->
     readInt32 b = readInt32 [b0; b1; b2; b3]).
Proof.
  split.
  - destruct b as [|b0 [|b1 [|b2 [|b3 rest]]]]; cbn [readInt32 nth_error length];
      (split; [intros H; try discriminate H; lia | intros H; try reflexivity; lia]).
  - intros b0 b1 b2 b3 rest ->. reflexivity.
Qed.

(** X4: every 16-bit signed integer is read back by [readInt16] from its
    two little-endian two's-complement bytes. *)
Theorem readInt16_round_trip (x : Z) :
  - 2 ^ 15 <= x < 2 ^ 15 ->
  readInt16 [x mod 256; x / 256 mod 256] = Ok x.
Proof.
  intros Hx.
  rewrite readInt16_value
    by (unfold is_byte;
        match goal with |- 0 <= ?a mod 256 <= 255 =>
          pose proof (Z.mod_pos_bound a 256 ltac:(lia)); lia end).
  f_equal. rewrite <- (int16_small x Hx) at 3.
  unfold int16. cbv zeta. change (2 ^ 16) with 65536.
  replace ((x mod 256 + 256 * (x / 256 mod 256)) mod 65536) with (x mod 65536)
    by (Z.div_mod_to_equations; lia).
  reflexivity.
Qed.

Lemma readInt16_round_trip_witness :
  - 2 ^ 15 <= -300 < 2 ^ 15 /\ readInt16 [212; 254] = Ok (-300).
Proof.
  split; [lia|]. exact (readInt16_round_trip (-300) ltac:(lia)).
Defined.

(** X5: the word [readInt32] reads from one 4-byte frame of the forced
    16-bit stereo format holds the two channel samples [readInt16] reads:
    the second in its upper half, the first, taken as unsigned, in its
    lower half. *)
Theorem readInt32_packs_two_int16 (b0 b1 b2 b3 : byte) :
  is_byte b0 -> is_byte b1 -> is_byte b2 -> is_byte b3 ->
  exists lo hi,
    readInt16 [b0; b1] = Ok lo /\
    readInt16 [b2; b3] = Ok hi /\
    readInt32 [b0; b1; b2; b3] = Ok (65536 * hi + lo mod 65536).
Proof.
  intros H0 H1 H2 H3.
  exists (int16 (b0 + 256 * b1)), (int16 (b2 + 256 * b3)).
  rewrite !readInt16_value, readInt32_value by assumption.
  split; [reflexivity|]. split; [reflexivity|]. f_equal.
  unfold is_byte in *. unfold int32, int16. cbv zeta.
  change (2 ^ 15) with 32768. change (2 ^ 16) with 65536.
  change (2 ^ 31) with 2147483648. change (2 ^ 32) with 4294967296.
  rewrite (Z.mod_small (b0 + 256 * b1)), (Z.mod_small (b2 + 256 * b3)),
    (Z.mod_small (b0 + 256 * b1 + 65536 * b2 + 16777216 * b3)) by lia.
  destruct (Z.ltb_spec (b0 + 256 * b1) 32768);
    destruct (Z.ltb_spec (b2 + 256 * b3) 32768);
    destruct (Z.ltb_spec (b0 + 256 * b1 + 65536 * b2 + 16777216 * b3) 2147483648);
    try lia; Z.div_mod_to_equations; lia.
Qed.

Lemma readInt32_packs_two_int16_witness :
  (is_byte 1 /\ is_byte 0 /\ is_byte 255 /\ is_byte 255) /\
  exists lo hi,
    readInt16 [1; 0] = Ok lo /\
    readInt16 [255; 255] = Ok hi /\
    readInt32 [1; 0; 255; 255] = Ok (65536 * hi + lo mod 65536).
Proof.
  assert (A : is_byte 1) by (unfold is_byte; lia).
  assert (B : is_byte 0) by (unfold is_byte; lia).
  assert (C : is_byte 255) by (unfold is_byte; lia).
  split; [auto|]. exact (readInt32_packs_two_int16 1 0 255 255 A B C C).
Defined.

(** The decoding loop started with [samples]: it succeeds exactly on a
    whole number of words, keeps what [samples] held and appends one
    sample per word. *)
Lemma decode_from_result (n : nat) :
  forall (buf : list byte) (samples : list float),
    (length buf <= n)%nat ->
    (len buf mod 4 = 0 ->
     exists out, decode_from buf samples = Ok out /\
                 len out = len samples + len buf / 4 /\
                 firstn (length samples) out = samples) /\
    (len buf mod 4 <> 0 -> decode_from buf samples = Panic).
Proof.
  induction n as [|n IH]; intros buf samples Hn.
  - destruct buf; [|simpl in Hn; lia]. split.
    + intros _. exists samples. split; [reflexivity|]. split; [cbn; lia|].
      apply firstn_all.
    + intros H. exfalso. apply H. reflexivity.
  - destruct buf as [|b0 [|b1 [|b2 [|b3 rest]]]].
    + split.
      * intros _. exists samples. split; [reflexivity|]. split; [cbn; lia|].
        apply firstn_all.
      * intros H. exfalso. apply H. reflexivity.
    + split; [intros H; discriminate H | reflexivity].
    + split; [intros H; discriminate H | reflexivity].
    + split; [intros H; discriminate H | reflexivity].
    + cbn [decode_from]. unfold readInt32. cbn [nth_error bind].
      set (word := float64_of_int
                     (int32 (Z.lor (Z.lor (Z.lor (uint32 b0) (uint32 (Z.shiftl (uint32 b1) 8)))
                                          (uint32 (Z.shiftl (uint32 b2) 16)))
                                   (uint32 (Z.shiftl (uint32 b3) 24))))).
      destruct (IH rest (samples ++ [word]) ltac:(simpl in Hn; lia)) as [IH1 IH2].
      assert (E : len (b0 :: b1 :: b2 :: b3 :: rest) = len rest + 1 * 4)
        by (unfold len; cbn [length]; lia).
      rewrite E. rewrite Z.mod_add, Z.div_add by lia. split.
      * intros H. destruct (IH1 H) as (out & E1 & E2 & E3).
        exists out. split; [exact E1|]. split.
        -- rewrite E2. unfold len. rewrite length_app. cbn [length]. lia.
        -- apply (f_equal (firstn (length samples))) in E3.
           rewrite firstn_firstn, length_app in E3.
           replace (Init.Nat.min (length samples) (length samples + length [word]))
             with (length samples) in E3 by lia.
           rewrite E3, firstn_app, Nat.sub_diag, firstn_all. cbn [firstn].
           apply app_nil_r.
      * intros H. apply IH2, H.
Qed.

Lemma decode_result (buf : list byte) :
  (len buf mod 4 = 0 ->
   exists samples, decode buf = Ok samples /\
                   len samples = 2 * (len buf / 4) /\
                   firstn (Z.to_nat (len buf / 4)) samples
                   = repeat 0%float (Z.to_nat (len buf / 4))) /\
  (len buf mod 4 <> 0 -> decode buf = Panic).
Proof.
  assert (P : 0 <= len buf / 4) by (apply Z.div_pos; unfold len; lia).
  unfold decode, make_float64.
  replace (len buf / 4 <? 0) with false by (symmetry; apply Z.ltb_ge; lia).
  cbn [bind].
  destruct (decode_from_result (length buf) buf (repeat 0%float (Z.to_nat (len buf / 4)))
              ltac:(lia)) as [H1 H2].
  split; [|exact H2].
  intros E. destruct (H1 E) as (out & E1 & E2 & E3).
  exists out. split; [exact E1|]. split.
  - rewrite E2. unfold len at 1. rewrite repeat_length. lia.
  - rewrite repeat_length in E3. exact E3.
Qed.

(** X6: the decoder panics exactly when the buffer does not hold a whole
    number of 4-byte words (the slice [buf[i:i+4]] then runs past the
    buffer, whose capacity is its length); otherwise it returns two
    samples per word, the first half of them the zeros left by [make]. *)
Theorem decode_panics_on_partial_word (buf : list byte) :
  (decode buf = Panic <-> len buf mod 4 <> 0) /\
  (forall samples, decode buf = Ok samples ->
     len samples = 2 * (len buf / 4) /\
     firstn (Z.to_nat (len buf / 4)) samples = repeat 0%float (Z.to_nat (len buf / 4))).
Proof.
  destruct (decode_result buf) as [H1 H2].
  destruct (Z.eq_dec (len buf mod 4) 0) as [E|N].
  - destruct (H1 E) as (out & E1 & E2 & E3). rewrite E1. split.
    + split; [discriminate|contradiction].
    + intros samples [= <-]. split; assumption.
  - rewrite (H2 N). split; [tauto|discriminate].
Qed.

(** X7: the capture buffer always decodes.  Whatever mix format the
    device reports, the forced format has 4 bytes per frame, so a buffer of
    [availableFrameSize] frames is a whole number of words and the decoder
    returns [2 * availableFrameSize] samples without panicking. *)
Theorem capture_buffer_decodes
        (wfx : WAVEFORMATEX) (availableFrameSize : Z) (buf : list byte) :
  0 <= availableFrameSize < 2 ^ 32 ->
  len buf = lim availableFrameSize (force_format wfx) ->
  NBlockAlign (force_format wfx) = 4 /\
  exists samples, decode buf = Ok samples /\ len samples = 2 * availableFrameSize.
Proof.
  intros Hn Hlen. split; [reflexivity|].
  assert (E : len buf = availableFrameSize * 4).
  { rewrite Hlen. unfold lim, int64. cbn [NBlockAlign force_format].
    change (uint16 (uint16 (16 / 8) * 2)) with 4.
    change (2 ^ 32) with 4294967296 in Hn.
    change (2 ^ 63) with 9223372036854775808.
    change (2 ^ 64) with 18446744073709551616.
    rewrite Z.mod_small; lia. }
  destruct (decode_result buf) as [H1 _].
  destruct H1 as (samples & D & L & _); [rewrite E; apply Z.mod_mul; lia|].
  exists samples. split; [exact D|].
  rewrite L, E, Z.div_mul by lia. reflexivity.
Qed.

Lemma capture_buffer_decodes_witness :
  let wfx := {| WFormatTag := 3; NChannels := 6; NSamplesPerSec := 48000;
                NAvgBytesPerSec := 1152000; NBlockAlign := 24; WBitsPerSample := 32;
                CbSize := 22 |} in
  (0 <= 2 < 2 ^ 32 /\ len [1; 0; 2; 0; 3; 0; 4; 0] = lim 2 (force_format wfx)) /\
  NBlockAlign (force_format wfx) = 4 /\
  exists samples, decode [1; 0; 2; 0; 3; 0; 4; 0] = Ok samples /\ len samples = 2 * 2.
Proof.
  cbv zeta.
  assert (A : 0 <= 2 < 2 ^ 32) by lia.
  split; [split; [exact A | reflexivity]|].
  exact (capture_buffer_decodes _ 2 [1; 0; 2; 0; 3; 0; 4; 0] A eq_refl).
Defined.

Lemma truncate_of_neg_int (z : Z) :
  - 2 ^ 53 < z < 0 -> truncate (float64_of_int z) = z.
Proof.
  intros H.
  pose proof (truncate_of_int (- z) ltac:(lia)) as T.
  unfold truncate in T. rewrite Prim2SF_of_int, canon_pos in T by lia.
  cbn [cond_Zopp] in T.
  assert (E : float64_of_int z = (- float64_of_int (- z))%float).
  { unfold float64_of_int.
    replace (z <? 0) with true by (symmetry; apply Z.ltb_lt; lia).
    replace (- z <? 0) with false by (symmetry; apply Z.ltb_ge; lia).
    reflexivity. }
  unfold truncate. rewrite E, opp_spec, Prim2SF_of_int, canon_pos by lia.
  cbn [SFopp negb cond_Zopp]. lia.
Qed.

(** X8: the conversion [float64(readInt32(...))] loses nothing: the word
    is a 32-bit integer, and its [float64] converts back to it exactly. *)
Theorem sample_conversion_exact (b0 b1 b2 b3 : byte) :
  is_byte b0 -> is_byte b1 -> is_byte b2 -> is_byte b3 ->
  exists v,
    readInt32 [b0; b1; b2; b3] = Ok v /\
    - 2 ^ 31 <= v < 2 ^ 31 /\
    truncate (float64_of_int v) = v.
Proof.
  intros H0 H1 H2 H3. rewrite readInt32_value by assumption.
  eexists. split; [reflexivity|].
  pose proof (int32_range (b0 + 256 * b1 + 65536 * b2 + 16777216 * b3)) as R.
  split; [exact R|].
  change (2 ^ 31) with 2147483648 in R.
  destruct (Z.lt_ge_cases (int32 (b0 + 256 * b1 + 65536 * b2 + 16777216 * b3)) 0).
  - apply truncate_of_neg_int. rewrite pow2_53. lia.
  - apply truncate_of_int. rewrite pow2_53. lia.
Qed.

Lemma sample_conversion_exact_witness :
  (is_byte 0 /\ is_byte 0 /\ is_byte 0 /\ is_byte 128) /\
  exists v,
    readInt32 [0; 0; 0; 128] = Ok v /\
    - 2 ^ 31 <= v < 2 ^ 31 /\
    truncate (float64_of_int v) = v.
Proof.
  assert (A : is_byte 0) by (unfold is_byte; lia).
  assert (B : is_byte 128) by (unfold is_byte; lia).
  split; [auto|]. exact (sample_conversion_exact 0 0 0 128 A A A B).
Defined.

(** * When the smoother and the distributor panic *)

Lemma accumulate_result (p2 : list byte) (w : float) :
  forall pix2 : list float,
    ((length p2 <= length pix2)%nat ->
     exists r, accumulate pix2 p2 w = Ok r /\ length r = length pix2) /\
    ((length pix2 < length p2)%nat -> accumulate pix2 p2 w = Panic).
Proof.
  induction p2 as [|p p2 IH]; intros pix2.
  - split; [intros _; exists pix2; split; [destruct pix2|]; reflexivity | cbn; lia].
  - destruct pix2 as [|x pix2]; cbn [accumulate length].
    + split; [lia | reflexivity].
    + destruct (IH pix2) as [IH1 IH2]. split.
      * intros H. destruct (IH1 ltac:(lia)) as (r & -> & Hr). cbn [bind].
        eexists. split; [reflexivity|]. cbn [length]. lia.
      * intros H. rewrite IH2 by lia. reflexivity.
Qed.

Lemma weighted_sum_result (pixs : list (list byte)) :
  forall (ws pix2 : list float),
    (length pixs <= length ws)%nat ->
    (Forall (fun p2 => (length p2 <= length pix2)%nat) pixs ->
     exists r, weighted_sum pixs ws pix2 = Ok r /\ length r = length pix2) /\
    (Exists (fun p2 => (length pix2 < length p2)%nat) pixs ->
     weighted_sum pixs ws pix2 = Panic).
Proof.
  induction pixs as [|p2 pixs IH]; intros ws pix2 Hws.
  - split; [intros _; exists pix2; split; reflexivity | intros H; inversion H].
  - destruct ws as [|w ws]; [cbn in Hws; lia|]. cbn [weighted_sum].
    destruct (accumulate_result p2 w pix2) as [A1 A2].
    split.
    + intros F. inversion F as [|? ? F1 F2]; subst.
      destruct (A1 F1) as (r & -> & Hr). cbn [bind].
      destruct (IH ws r ltac:(cbn in Hws; lia)) as [IH1 _].
      rewrite Hr in IH1. destruct (IH1 F2) as (r' & E & Hr').
      exists r'. split; [exact E|lia].
    + intros E.
      destruct (Nat.le_gt_cases (length p2) (length pix2)) as [Le|Gt].
      * destruct (A1 Le) as (r & -> & Hr). cbn [bind].
        destruct (IH ws r ltac:(cbn in Hws; lia)) as [_ IH2].
        apply IH2. rewrite Hr.
        inversion E as [? ? E1|? ? E1]; subst; [lia|exact E1].
      * rewrite (A2 Gt). reflexivity.
Qed.

Lemma weights_length (L : Z) : length (weights L) = Z.to_nat L.
Proof. unfold weights. rewrite length_map. apply indices_length. Qed.

Lemma Forall_or_Exists_longer (n : nat) (pixs : list (list byte)) :
  Forall (fun p2 => (length p2 <= n)%nat) pixs \/
  Exists (fun p2 => (n < length p2)%nat) pixs.
Proof.
  induction pixs as [|p2 pixs [IH|IH]].
  - left. constructor.
  - destruct (Nat.le_gt_cases (length p2) n); [left|right]; constructor; assumption.
  - right. apply Exists_cons_tl, IH.
Qed.

Lemma temporal_smoother_result (pixs : list (list byte)) (pix : list byte) :
  (Forall (fun p2 => (length p2 <= length pix)%nat) pixs ->
   exists pix3, temporal_smoother pixs pix = Ok pix3 /\ length pix3 = length pix) /\
  (Exists (fun p2 => (length pix < length p2)%nat) pixs ->
   temporal_smoother pixs pix = Panic).
Proof.
  unfold temporal_smoother.
  destruct (weighted_sum_result pixs (weights (len pixs)) (repeat 0%float (length pix)))
    as [W1 W2].
  { rewrite weights_length. unfold len. lia. }
  rewrite repeat_length in W1, W2. split.
  - intros F. destruct (W1 F) as (r & -> & Hr). cbn [bind].
    eexists. split; [reflexivity|]. rewrite length_map. exact Hr.
  - intros E. rewrite (W2 E). reflexivity.
Qed.

(** X9: the smoother panics (index out of range on [pix2[j]]) exactly
    when the history holds a frame longer than the newest frame;
    otherwise it returns one value per byte of the newest frame. *)
Theorem temporal_smoother_panics_iff (pixs : list (list byte)) (pix : list byte) :
  (temporal_smoother pixs pix = Panic
   <-> Exists (fun p2 => (length pix < length p2)%nat) pixs) /\
  (forall pix3, temporal_smoother pixs pix = Ok pix3 -> length pix3 = length pix).
Proof.
  destruct (temporal_smoother_result pixs pix) as [T1 T2].
  destruct (Forall_or_Exists_longer (length pix) pixs) as [F|E].
  - destruct (T1 F) as (pix3 & -> & Hr). split.
    + split; [discriminate|]. intros E. exfalso.
      apply Exists_exists in E as (p2 & Hin & Hlt).
      rewrite Forall_forall in F. specialize (F p2 Hin). lia.
    + intros pix3' [= <-]. exact Hr.
  - rewrite (T2 E). split; [tauto|discriminate].
Qed.

Lemma fill_pix4_panics (steps : nat) :
  forall (i : nat) (pix3 : list float),
    (i <= length pix3)%nat ->
    (length pix3 < i + 4 * steps)%nat -> fill_pix4 steps i pix3 = Panic.
Proof.
  induction steps as [|steps IH]; intros i pix3 Hi H; [lia|].
  cbn [fill_pix4].
  destruct (nth_error pix3 i) as [a|] eqn:Ea; [|reflexivity].
  destruct (nth_error pix3 (i + 1)) as [b|] eqn:Eb; [|reflexivity].
  destruct (nth_error pix3 (i + 2)) as [c|] eqn:Ec; [|reflexivity].
  destruct (nth_error pix3 (i + 3)) as [d|] eqn:Ed; [|reflexivity].
  assert (i + 3 < length pix3)%nat by (apply nth_error_Some; congruence).
  rewrite (IH (i + 4)%nat) by lia. reflexivity.
Qed.

Lemma segment_pix_panics_iff (seg : Segment) (pix3 : list float) :
  segment_pix seg pix3 = Panic
  <-> (int64 (Leds seg * 4) < 0 \/ len pix3 < int64 (Leds seg * 4)).
Proof.
  destruct (Z.lt_ge_cases (int64 (Leds seg * 4)) 0) as [N|P].
  - unfold segment_pix.
    replace (int64 (Leds seg * 4) <? 0) with true by (symmetry; apply Z.ltb_lt; lia).
    tauto.
  - destruct (Z.lt_ge_cases (len pix3) (int64 (Leds seg * 4))) as [Short|Long].
    + unfold segment_pix.
      destruct (int64_times_4 (Leds seg)) as [q Eq]. rewrite Eq in *.
      replace (4 * q <? 0) with false by (symmetry; apply Z.ltb_ge; lia).
      replace ((4 * q + 3) / 4) with q by (Z.div_mod_to_equations; lia).
      rewrite fill_pix4_panics by (unfold len in Short; lia). tauto.
    + rewrite segment_pix_wrapped by lia. split; [discriminate|lia].
Qed.

(** Without the wrap: LED counts whose product with 4 is an [int]. *)
Lemma no_wrap_times_4 (a : Z) : - 2 ^ 61 <= a < 2 ^ 61 -> int64 (a * 4) = a * 4.
Proof.
  intros H. apply int64_small.
  change (2 ^ 61) with 2305843009213693952 in H.
  change (2 ^ 63) with 9223372036854775808. lia.
Qed.

Lemma segment_distributor_panics (segs : list Segment) (pix3 : list float) :
  segment_distributor segs pix3 = Panic
  <-> Exists (fun seg => int64 (Leds seg * 4) < 0 \/ len pix3 < int64 (Leds seg * 4))
             segs.
Proof.
  induction segs as [|seg segs IH]; cbn [segment_distributor].
  - split; [discriminate | intros H; inversion H].
  - pose proof (segment_pix_panics_iff seg pix3) as S.
    destruct (segment_pix seg pix3) as [pix|]; cbn [bind].
    + destruct (segment_distributor segs pix3) as [rest|]; cbn [bind].
      * split; [discriminate|]. intros E.
        inversion E as [? ? E1|? ? E1]; subst.
        -- apply S in E1. discriminate E1.
        -- apply IH in E1. discriminate E1.
      * split; [|reflexivity]. intros _. apply Exists_cons_tl, IH. reflexivity.
    + split; [|reflexivity]. intros _. apply Exists_cons_hd, S. reflexivity.
Qed.

(** X10: the distributor panics exactly when, for some segment, the [int]
    product [seg.Leds * 4], which wraps at 64 bits, is negative ([make] with
    a negative length) or larger than the smoothed frame (index out of
    range on [pix3]).  For LED counts from [-2^61] to below [2^61], where
    the product does not wrap, that is: a negative LED count, or more LEDs
    than the frame has pixels.  An LED count of [2^62], whose product wraps
    to 0, gives an empty segment and no panic. *)
Theorem segment_distributor_panics_iff (segs : list Segment) (pix3 : list float) :
  (segment_distributor segs pix3 = Panic
   <-> Exists (fun seg => int64 (Leds seg * 4) < 0 \/ len pix3 < int64 (Leds seg * 4))
              segs) /\
  (Forall (fun seg => - 2 ^ 61 <= Leds seg < 2 ^ 61) segs ->
   (segment_distributor segs pix3 = Panic
    <-> Exists (fun seg => Leds seg < 0 \/ len pix3 < Leds seg * 4) segs)) /\
  (forall id, segment_distributor [{| Id := id; Leds := 2 ^ 62 |}] pix3
              = Ok [{| visualizer.Id := id; visualizer.Pix := [] |}]).
Proof.
  split; [apply segment_distributor_panics|]. split.
  - intros Hr. rewrite segment_distributor_panics.
    rewrite !Exists_exists. rewrite Forall_forall in Hr.
    split; intros (seg & Hin & H); exists seg; (split; [exact Hin|]);
      rewrite (no_wrap_times_4 (Leds seg) (Hr seg Hin)) in *; lia.
  - intros id. reflexivity.
Qed.

(** * The history: its length, and a window of zero *)

Lemma len_app {A} (l l' : list A) : len (l ++ l') = len l + len l'.
Proof. unfold len. rewrite length_app. lia. Qed.

Lemma push_history_newest_last
      (windowSize : Z) (pixs : list (list byte)) (pix : list byte) :
  1 <= windowSize \/ pixs <> [] ->
  exists older, push_history windowSize pixs pix = older ++ [pix].
Proof.
  unfold push_history. rewrite len_app. change (len [pix]) with 1.
  destruct (Z.ltb_spec windowSize (len pixs + 1)) as [Lt|Ge].
  - intros [H|H].
    + destruct pixs as [|p pixs]; [unfold len in Lt; cbn in Lt; lia|].
      exists pixs. reflexivity.
    + destruct pixs as [|p pixs]; [contradiction|]. exists pixs. reflexivity.
  - intros _. exists pixs. reflexivity.
Qed.

Lemma push_history_In (windowSize : Z) (pixs : list (list byte)) (pix p2 : list byte) :
  In p2 (push_history windowSize pixs pix) -> In p2 pixs \/ p2 = pix.
Proof.
  unfold push_history. intros H.
  assert (H' : In p2 (pixs ++ [pix])).
  { destruct (windowSize <? len (pixs ++ [pix])); [|exact H].
    destruct (pixs ++ [pix]); [contradiction|right; exact H]. }
  apply in_app_or in H' as [H'|[H'|[]]]; auto.
Qed.

(** X11: one append changes the length of the history to
    [max(len, min(len + 1, windowSize))]: a history already longer than
    the window keeps its length and is never trimmed back to it, since one
    frame is dropped per frame appended.  The newest frame is the last
    element unless the window is below 1 and the history was empty. *)
Theorem push_history_length (windowSize : Z) (pixs : list (list byte)) (pix : list byte) :
  len (push_history windowSize pixs pix)
  = Z.max (len pixs) (Z.min (len pixs + 1) windowSize) /\
  (1 <= windowSize \/ pixs <> [] ->
   exists older, push_history windowSize pixs pix = older ++ [pix]).
Proof.
  split; [|apply push_history_newest_last].
  unfold push_history. rewrite len_app. change (len [pix]) with 1.
  destruct (Z.ltb_spec windowSize (len pixs + 1)) as [Lt|Ge].
  - destruct pixs as [|p pixs]; unfold len in *; cbn [app tl length] in *;
      rewrite ?length_app; cbn [length]; lia.
  - rewrite len_app. change (len [pix]) with 1. lia.
Qed.

Lemma fold_push_history_empty (windowSize : Z) (frames : list (list byte)) :
  windowSize <= 0 -> fold_left (push_history windowSize) frames [] = [].
Proof.
  intros Hw. induction frames as [|pix frames IH]; [reflexivity|].
  cbn [fold_left]. unfold push_history at 2. cbn [app].
  replace (windowSize <? len [pix]) with true
    by (symmetry; apply Z.ltb_lt; unfold len; cbn; lia).
  exact IH.
Qed.

(** X12: with [windowSize <= 0] a visualizer that runs alone keeps an
    empty history: every frame is dropped as soon as it is appended, the
    weights sum to zero, and every smoothed value is [0/0], a NaN. *)
Theorem empty_window_gives_nan
        (windowSize : Z) (frames : list (list byte)) (pix : list byte) :
  windowSize <= 0 ->
  fold_left (push_history windowSize) (frames ++ [pix]) [] = [] /\
  temporal_smoother (fold_left (push_history windowSize) (frames ++ [pix]) []) pix
  = Ok (repeat nan (length pix)).
Proof.
  intros Hw. rewrite fold_push_history_empty by exact Hw. split; [reflexivity|].
  unfold temporal_smoother. cbn [weighted_sum bind]. f_equal.
  induction (length pix) as [|n IH]; [reflexivity|].
  cbn [repeat map]. rewrite IH. reflexivity.
Qed.

Lemma empty_window_gives_nan_witness :
  0 <= 0 /\
  fold_left (push_history 0) ([[1; 2; 3; 255]] ++ [[4; 5; 6; 255]]) [] = [] /\
  temporal_smoother (fold_left (push_history 0) ([[1; 2; 3; 255]] ++ [[4; 5; 6; 255]]) [])
                    [4; 5; 6; 255]
  = Ok (repeat nan (length [4; 5; 6; 255])).
Proof.
  split; [lia|].
  exact (empty_window_gives_nan 0 [[1; 2; 3; 255]] [4; 5; 6; 255] ltac:(lia)).
Defined.

(** X13: the weights of a history of [L] frames all lie in
    [(L^2, 2 L^2]], so no frame weighs twice as much as another: the
    smoother is close to a plain mean. *)
Theorem weights_within_factor_two (L i j : Z) :
  0 <= i < L -> 0 <= j < L -> L < 2 ^ 31 ->
  L * L < weight_int i L <= 2 * (L * L) /\
  weight_int i L < 2 * weight_int j L.
Proof.
  intros Hi Hj HL. change (2 ^ 31) with 2147483648 in HL.
  assert (E : forall k, 0 <= k < L -> weight_int k L = (k + 1) * (k + 1) + L * L).
  { intros k Hk. unfold weight_int, int64.
    assert (0 <= (k + 1) * (k + 1) <= 2147483647 * 2147483647) by nia.
    assert (0 <= L * L <= 2147483647 * 2147483647) by nia.
    change (2 ^ 63) with 9223372036854775808.
    change (2 ^ 64) with 18446744073709551616.
    rewrite Z.mod_small; lia. }
  rewrite (E i Hi), (E j Hj). nia.
Qed.

Lemma weights_within_factor_two_witness :
  (0 <= 79 < 80 /\ 0 <= 0 < 80 /\ 80 < 2 ^ 31) /\
  80 * 80 < weight_int 79 80 <= 2 * (80 * 80) /\
  weight_int 79 80 < 2 * weight_int 0 80.
Proof.
  assert (A : 0 <= 79 < 80) by lia.
  assert (B : 0 <= 0 < 80) by lia.
  assert (C : 80 < 2 ^ 31) by reflexivity.
  split; [auto|]. exact (weights_within_factor_two 80 79 0 A B C).
Defined.

(** * Start and Stop, composed *)

(** X14: [Stop] right after [Start] returns, whatever the visualizer
    went through before; and once a [Stop] has returned, the next [Stop]
    blocks forever: there is one [Stop] per [Start]. *)
Theorem Stop_once_per_Start :
  (forall l, Stop (Start l)
             = Returns {| cancel := false; done := true; cancelled := true;
                          goroutine := Exited |}) /\
  (forall l l', Stop l = Returns l' -> Stop l' = BlocksForever).
Proof.
  split; [reflexivity|].
  intros [c d x g] l'. unfold Stop, receive_done.
  destruct c, d, x, g; cbn; intros H; try discriminate H; injection H as <-; reflexivity.
Qed.

(** * Shape of the frame and of the event *)

Lemma uint8_is_byte (z : Z) : is_byte (uint8 z).
Proof.
  unfold is_byte, uint8. pose proof (Z.mod_pos_bound z 256 ltac:(lia)). lia.
Qed.

Lemma In_firstn {A} (n : nat) (l : list A) (x : A) : In x (firstn n l) -> In x l.
Proof.
  intros H. rewrite <- (firstn_skipn n l). apply in_or_app. left. exact H.
Qed.

Lemma segment_distributor_ok_shape (segs : list Segment) (pix3 : list float) :
  forall out,
    segment_distributor segs pix3 = Ok out ->
    map visualizer.Id out = map Id segs /\
    map (fun s => len (visualizer.Pix s)) out
    = map (fun seg => int64 (Leds seg * 4)) segs /\
    Forall (fun s => Forall is_byte (visualizer.Pix s)) out.
Proof.
  induction segs as [|seg segs IH]; intros out; cbn [segment_distributor].
  - intros [= <-]. repeat split. constructor.
  - pose proof (segment_pix_panics_iff seg pix3) as S.
    destruct (segment_pix seg pix3) as [pix|] eqn:E; [|discriminate]. cbn [bind].
    destruct (segment_distributor segs pix3) as [rest|]; [|discriminate]. cbn [bind].
    intros [= <-]. destruct (IH rest eq_refl) as (I1 & I2 & I3).
    assert (Hseg : 0 <= int64 (Leds seg * 4) <= len pix3).
    { destruct (Z.lt_ge_cases (int64 (Leds seg * 4)) 0) as [N|P].
      - exfalso. assert (H : Ok pix = Panic) by (apply S; lia). discriminate H.
      - destruct (Z.lt_ge_cases (len pix3) (int64 (Leds seg * 4))) as [N|Q]; [|lia].
        exfalso. assert (H : Ok pix = Panic) by (apply S; lia). discriminate H. }
    rewrite segment_pix_wrapped in E by lia. injection E as <-.
    cbn [map visualizer.Id visualizer.Pix]. rewrite I1, I2.
    split; [reflexivity|]. split.
    + f_equal. unfold byte_range, len in *.
      rewrite length_firstn, length_skipn, length_map. lia.
    + constructor; [|exact I3]. cbn [visualizer.Pix].
      unfold byte_range. apply Forall_forall. intros b Hb.
      apply In_firstn in Hb. cbn [Z.to_nat skipn] in Hb.
      apply in_map_iff in Hb as (f & <- & _). apply uint8_is_byte.
Qed.

Section PipelineShape.
Context {L : Libraries}.

Lemma pixel_bytes (v : Visualizer) (freq peak : float) :
  exists r g b, pixel v freq peak = [r; g; b; 255] /\ is_byte r /\ is_byte g /\ is_byte b.
Proof.
  unfold pixel.
  destruct (colorful_Color_Hsv _) as [[hue sat] val0].
  destruct (colorful_Color_RGBA _) as [[[r g] b] a].
  do 3 eexists. split; [reflexivity|]. repeat split; apply uint8_is_byte.
Qed.

Lemma color_synthesizer_shape (v : Visualizer) (peak : float) (freqs : list float) :
  length (color_synthesizer v freqs peak) = (4 * length freqs)%nat /\
  Forall is_byte (color_synthesizer v freqs peak) /\
  (forall k, (k < length freqs)%nat ->
             nth_error (color_synthesizer v freqs peak) (4 * k + 3) = Some 255).
Proof.
  unfold color_synthesizer.
  induction freqs as [|freq freqs (I1 & I2 & I3)]; cbn [flat_map length].
  - split; [reflexivity|]. split; [constructor|]. intros k Hk. lia.
  - destruct (pixel_bytes v freq peak) as (r & g & b & -> & Hr & Hg & Hb).
    cbn [app length]. split; [lia|]. split.
    + repeat (constructor; [assumption|]).
      constructor; [unfold is_byte; lia|exact I2].
    + intros [|k] Hk; [reflexivity|].
      replace (4 * S k + 3)%nat with (S (S (S (S (4 * k + 3))))) by lia.
      cbn [nth_error]. apply I3. lia.
Qed.

Lemma frame_bytes (v : Visualizer) (samples : list float) (peak : float) :
  0 <= maxLedCount v ->
  exists pix,
    frame v samples peak = Ok pix /\
    len pix = 4 * maxLedCount v /\
    Forall is_byte pix /\
    (forall k, 0 <= k < maxLedCount v -> nth_error pix (Z.to_nat (4 * k + 3)) = Some 255).
Proof.
  intros Hm. unfold frame.
  destruct (spectral_analyzer_bins v samples peak Hm) as (X & Y & ->). cbn [bind].
  eexists. split; [reflexivity|].
  match goal with
  | |- context [color_synthesizer v ?fs peak] =>
      destruct (color_synthesizer_shape v peak fs) as (S1 & S2 & S3);
      assert (Hlen : length fs = Z.to_nat (maxLedCount v))
        by (rewrite length_map; apply indices_length)
  end.
  split; [unfold len; rewrite S1, Hlen; lia|]. split; [exact S2|].
  intros k Hk. replace (Z.to_nat (4 * k + 3)) with (4 * Z.to_nat k + 3)%nat by lia.
  apply S3. lia.
Qed.

(** X15: for a non-negative [maxLedCount] the frame of one call has
    exactly four bytes per LED, every one a byte value, and the fourth
    byte of every LED is 0xFF, whatever the external colour and FFT
    functions return. *)
Theorem frame_shape (v : Visualizer) (samples : list float) (peak : float) :
  0 <= maxLedCount v ->
  exists pix,
    frame v samples peak = Ok pix /\
    len pix = 4 * maxLedCount v /\
    Forall is_byte pix /\
    (forall k, 0 <= k < maxLedCount v -> nth_error pix (Z.to_nat (4 * k + 3)) = Some 255).
Proof. apply frame_bytes. Qed.

(** X16: with a negative [maxLedCount] a call that passes the guard
    panics, at [make([]float64, maxLeds)]. *)
Theorem process_panics_on_negative_led_count
        (v : Visualizer) (g : Package) (samples : list float) (peak : float) :
  processing v = false -> maxLedCount v < 0 ->
  process v g samples peak = Panic.
Proof.
  intros Hp Hm. unfold process, enter. rewrite Hp. unfold run, frame, spectral_analyzer.
  cbn [maxLedCount set_processing].
  destruct (magnitudes samples) as [freqs maxfreq].
  destruct (SpanLog_len_ok (map (fun f => normalize f 0 maxfreq) (silence_gate peak freqs)))
    as [X ->].
  cbn [bind]. unfold make_float64.
  replace (maxLedCount v <? 0) with true by (symmetry; apply Z.ltb_lt; lia).
  reflexivity.
Qed.

Lemma set_processing_round (v : Visualizer) :
  processing v = false -> leave (set_processing true v) = v.
Proof. destruct v. cbn. intros ->. reflexivity. Qed.

(** X17: a call that sends an event leaves the visualizer as it found
    it, the flag cleared again; it advances the counter [it] by the number
    of segments; and the event lists the configured segments in their
    order, each with its own [Id] and with as many byte values as the
    [int] product [seg.Leds * 4] gives: [4 * Leds] of them for LED counts
    from [-2^61] to below [2^61], where the product does not wrap. *)
Theorem process_event_shape
        (v v' : Visualizer) (g g' : Package) (samples : list float) (peak : float)
        (e : visualizer.UpdateEvent) :
  process v g samples peak = Ok (v', g', Some e) ->
  v' = v /\
  it g' = it g + len (segments v) /\
  map visualizer.Id (visualizer.Segments e) = map Id (segments v) /\
  map (fun s => len (visualizer.Pix s)) (visualizer.Segments e)
  = map (fun seg => int64 (Leds seg * 4)) (segments v) /\
  (Forall (fun seg => - 2 ^ 61 <= Leds seg < 2 ^ 61) (segments v) ->
   map (fun s => len (visualizer.Pix s)) (visualizer.Segments e)
   = map (fun seg => 4 * Leds seg) (segments v)) /\
  Forall (fun s => Forall is_byte (visualizer.Pix s)) (visualizer.Segments e).
Proof.
  intros H.
  destruct (process_history v v' g g' samples peak e H) as (pix & pix3 & _ & _ & _ & D).
  destruct (segment_distributor_ok_shape _ _ _ D) as (S1 & S2 & S3).
  assert (S2' : Forall (fun seg => - 2 ^ 61 <= Leds seg < 2 ^ 61) (segments v) ->
                map (fun s => len (visualizer.Pix s)) (visualizer.Segments e)
                = map (fun seg => 4 * Leds seg) (segments v)).
  { intros Hr. rewrite S2. apply map_ext_in. intros seg Hin.
    rewrite Forall_forall in Hr. rewrite (no_wrap_times_4 _ (Hr seg Hin)). lia. }
  unfold process, enter in H. destruct (processing v) eqn:Hp; [discriminate|].
  destruct (run (set_processing true v) g samples peak) as [[g1 e1]|] eqn:R; [|discriminate].
  cbn [bind fst snd] in H. injection H as <- <- <-.
  split; [apply set_processing_round, Hp|].
  split; [|auto].
  unfold run in R.
  destruct (frame _ samples peak) as [pix'|]; [|discriminate]. cbn [bind] in R.
  destruct (temporal_smoother _ pix') as [pix3'|]; [|discriminate]. cbn [bind] in R.
  destruct (segment_distributor _ pix3') as [segs|]; [|discriminate]. cbn [bind] in R.
  injection R as <- <-. cbn [it]. f_equal.
  cbn [visualizer.Segments] in S1. unfold len.
  rewrite <- (length_map visualizer.Id segs), S1, length_map. reflexivity.
Qed.

Lemma process_ok_history
      (v : Visualizer) (g : Package) (samples : list float) (peak : float)
      (r : Visualizer * Package * option visualizer.UpdateEvent) :
  processing v = false ->
  process v g samples peak = Ok r ->
  exists pix,
    frame v samples peak = Ok pix /\
    pixs (snd (fst r)) = push_history (windowSize v) (pixs g) pix.
Proof.
  intros Hp H. unfold process, enter in H. rewrite Hp in H.
  destruct (run (set_processing true v) g samples peak) as [[g1 e1]|] eqn:R; [|discriminate].
  cbn [bind fst snd] in H. injection H as <-. cbn [fst snd].
  unfold run in R.
  change (frame (set_processing true v) samples peak) with (frame v samples peak) in R.
  destruct (frame v samples peak) as [pix|]; [|discriminate]. cbn [bind] in R.
  destruct (temporal_smoother _ pix) as [pix3|]; [|discriminate]. cbn [bind] in R.
  destruct (segment_distributor _ pix3) as [segs|]; [|discriminate]. cbn [bind] in R.
  injection R as <- <-. exists pix. split; reflexivity.
Qed.

(** X18: the shared history makes visualizers of different sizes crash
    one another.  After a visualizer with more LEDs has processed a frame,
    the next call of a visualizer with fewer LEDs (window of at least 2)
    finds that longer frame in the history and panics in the smoother. *)
Theorem process_panics_after_larger_visualizer
        (v1 v2 : Visualizer) (g : Package)
        (samples1 samples2 : list float) (peak1 peak2 : float)
        (r1 : Visualizer * Package * option visualizer.UpdateEvent) :
  processing v1 = false -> processing v2 = false ->
  1 <= windowSize v1 -> 2 <= windowSize v2 ->
  0 <= maxLedCount v2 < maxLedCount v1 ->
  process v1 g samples1 peak1 = Ok r1 ->
  process v2 (snd (fst r1)) samples2 peak2 = Panic.
Proof.
  intros Hp1 Hp2 Hw1 Hw2 Hm H1.
  destruct (process_ok_history v1 g samples1 peak1 r1 Hp1 H1) as (f1 & F1 & Hist).
  destruct (frame_bytes v1 samples1 peak1 ltac:(lia)) as (f1' & F1' & L1 & _).
  rewrite F1 in F1'. injection F1' as <-.
  destruct (frame_bytes v2 samples2 peak2 ltac:(lia)) as (f2 & F2 & L2 & _).
  destruct (push_history_newest_last (windowSize v1) (pixs g) f1 ltac:(lia)) as (h & Eh).
  unfold process, enter. rewrite Hp2. unfold run.
  change (frame (set_processing true v2) samples2 peak2) with (frame v2 samples2 peak2).
  rewrite F2. cbn [bind windowSize set_processing].
  rewrite Hist, Eh.
  assert (T : temporal_smoother (push_history (windowSize v2) (h ++ [f1]) f2) f2 = Panic).
  { apply temporal_smoother_result. apply Exists_exists. exists f1. split.
    - unfold push_history. rewrite <- app_assoc. cbn [app].
      destruct (windowSize v2 <? len (h ++ [f1; f2])) eqn:Ew.
      + destruct h as [|x h]; cbn [app tl].
        * apply Z.ltb_lt in Ew. unfold len in Ew. cbn in Ew. lia.
        * apply in_or_app. right. left. reflexivity.
      + apply in_or_app. right. left. reflexivity.
    - unfold len in L1, L2. lia. }
  rewrite T. reflexivity.
Qed.

(** X19: a visualizer that is configured consistently and runs alone
    never panics.  If no segment has more LEDs than [maxLedCount] and
    every frame of the history has the visualizer's frame length, a call
    that passes the guard sends an event, hands the visualizer back
    unchanged, and leaves a history of frames of that same length, so the
    next call is in the same position.  The frame of [4 * maxLedCount] bytes
    is a Go slice, so that length is an [int].  The functions of the
    external packages are taken to return. *)
Theorem process_runs_without_panic
        (v : Visualizer) (g : Package) (samples : list float) (peak : float) :
  processing v = false ->
  0 <= maxLedCount v ->
  4 * maxLedCount v < 2 ^ 63 ->
  Forall (fun seg => 0 <= Leds seg <= maxLedCount v) (segments v) ->
  Forall (fun p2 => len p2 = 4 * maxLedCount v) (pixs g) ->
  exists g' e,
    process v g samples peak = Ok (v, g', Some e) /\
    Forall (fun p2 => len p2 = 4 * maxLedCount v) (pixs g').
Proof.
  intros Hp Hm Hint Hsegs Hhist.
  destruct (frame_bytes v samples peak Hm) as (pix & F & Lpix & _).
  unfold process, enter. rewrite Hp. unfold run.
  change (frame (set_processing true v) samples peak) with (frame v samples peak).
  rewrite F. cbn [bind windowSize segments set_processing].
  set (h := push_history (windowSize v) (pixs g) pix).
  assert (Hh : Forall (fun p2 => len p2 = 4 * maxLedCount v) h).
  { apply Forall_forall. intros p2 Hin.
    apply push_history_In in Hin as [Hin| ->]; [|exact Lpix].
    rewrite Forall_forall in Hhist. apply Hhist, Hin. }
  destruct (temporal_smoother_result h pix) as [T _].
  destruct T as (pix3 & -> & L3).
  { eapply Forall_impl; [|exact Hh]. cbv beta. intros p2 Hp2. unfold len in *. lia. }
  cbn [bind].
  assert (D : exists segs, segment_distributor (segments v) pix3 = Ok segs).
  { clear -Hsegs L3 Lpix Hint. induction Hsegs as [|seg segs Hseg _ (out & IH)].
    - eexists. reflexivity.
    - cbn [segment_distributor].
      rewrite segment_pix_prefix by (unfold len in *; lia).
      rewrite IH. cbn [bind]. eexists. reflexivity. }
  destruct D as (segs & ->). cbn [bind fst snd].
  do 2 eexists. split.
  - f_equal. f_equal. f_equal. apply set_processing_round, Hp.
  - cbn [pixs]. exact Hh.
Qed.

End PipelineShape.

Lemma frame_shape_witness :
  0 <= maxLedCount (demo_visualizer 2 2 [{| Id := 0; Leds := 2 |}] false) /\
  exists pix,
    @frame demo_libraries (demo_visualizer 2 2 [{| Id := 0; Leds := 2 |}] false)
           [3%float; 4%float] 1%float = Ok pix /\
    len pix = 4 * maxLedCount (demo_visualizer 2 2 [{| Id := 0; Leds := 2 |}] false) /\
    Forall is_byte pix /\
    (forall k, 0 <= k < maxLedCount (demo_visualizer 2 2 [{| Id := 0; Leds := 2 |}] false) ->
               nth_error pix (Z.to_nat (4 * k + 3)) = Some 255).
Proof.
  assert (Hm : 0 <= maxLedCount (demo_visualizer 2 2 [{| Id := 0; Leds := 2 |}] false))
    by (simpl; lia).
  split; [exact Hm|].
  exact (@frame_shape demo_libraries (demo_visualizer 2 2 [{| Id := 0; Leds := 2 |}] false)
           [3%float; 4%float] 1%float Hm).
Defined.

Lemma process_panics_on_negative_led_count_witness :
  (processing (demo_visualizer (-1) 2 [] false) = false /\
   maxLedCount (demo_visualizer (-1) 2 [] false) < 0) /\
  @process demo_libraries (demo_visualizer (-1) 2 [] false) empty_package
           [3%float; 4%float] 1%float = Panic.
Proof.
  assert (Hm : maxLedCount (demo_visualizer (-1) 2 [] false) < 0) by (simpl; lia).
  split; [split; [reflexivity|exact Hm]|].
  exact (@process_panics_on_negative_led_count demo_libraries
           (demo_visualizer (-1) 2 [] false) empty_package
           [3%float; 4%float] 1%float eq_refl Hm).
Defined.

Lemma process_event_shape_witness :
  let v := demo_visualizer 2 2 [{| Id := 0; Leds := 2 |}; {| Id := 7; Leds := 1 |}] false in
  let g := {| pixs := [[9; 9; 9; 255; 9; 9; 9; 255]]; it := 5 |} in
  let g' := {| pixs := [[9; 9; 9; 255; 9; 9; 9; 255];
                        [255; 255; 255; 255; 255; 255; 255; 255]];
               it := 7 |} in
  let e := {| visualizer.Segments :=
                [{| visualizer.Id := 0;
                    visualizer.Pix := [160; 160; 160; 255; 160; 160; 160; 255] |};
                 {| visualizer.Id := 7; visualizer.Pix := [160; 160; 160; 255] |}] |} in
  @process demo_libraries v g [3%float; 4%float] 1%float = Ok (v, g', Some e) /\
  v = v /\
  it g' = it g + len (segments v) /\
  map visualizer.Id (visualizer.Segments e) = map Id (segments v) /\
  map (fun s => len (visualizer.Pix s)) (visualizer.Segments e)
  = map (fun seg => int64 (Leds seg * 4)) (segments v) /\
  (Forall (fun seg => - 2 ^ 61 <= Leds seg < 2 ^ 61) (segments v) ->
   map (fun s => len (visualizer.Pix s)) (visualizer.Segments e)
   = map (fun seg => 4 * Leds seg) (segments v)) /\
  Forall (fun s => Forall is_byte (visualizer.Pix s)) (visualizer.Segments e).
Proof.
  cbv zeta.
  assert (H : @process demo_libraries
                (demo_visualizer 2 2 [{| Id := 0; Leds := 2 |}; {| Id := 7; Leds := 1 |}] false)
                {| pixs := [[9; 9; 9; 255; 9; 9; 9; 255]]; it := 5 |}
                [3%float; 4%float] 1%float
              = Ok (demo_visualizer 2 2 [{| Id := 0; Leds := 2 |}; {| Id := 7; Leds := 1 |}]
                                    false,
                    {| pixs := [[9; 9; 9; 255; 9; 9; 9; 255];
                                [255; 255; 255; 255; 255; 255; 255; 255]];
                       it := 7 |},
                    Some {| visualizer.Segments :=
                              [{| visualizer.Id := 0;
                                  visualizer.Pix := [160; 160; 160; 255; 160; 160; 160; 255] |};
                               {| visualizer.Id := 7;
                                  visualizer.Pix := [160; 160; 160; 255] |}] |}))
    by (vm_compute; reflexivity).
  split; [exact H|].
  exact (@process_event_shape demo_libraries _ _ _ _ _ _ _ H).
Defined.

Lemma process_panics_after_larger_visualizer_witness :
  let v1 := demo_visualizer 2 2 [{| Id := 0; Leds := 2 |}] false in
  let v2 := demo_visualizer 1 2 [{| Id := 0; Leds := 1 |}] false in
  let r1 := (v1,
             {| pixs := [[255; 255; 255; 255; 255; 255; 255; 255]]; it := 1 |},
             Some {| visualizer.Segments :=
                       [{| visualizer.Id := 0;
                           visualizer.Pix := [255; 255; 255; 255; 255; 255; 255; 255] |}] |}) in
  (processing v1 = false /\ processing v2 = false /\
   1 <= windowSize v1 /\ 2 <= windowSize v2 /\
   0 <= maxLedCount v2 < maxLedCount v1 /\
   @process demo_libraries v1 empty_package [3%float; 4%float] 1%float = Ok r1) /\
  @process demo_libraries v2 (snd (fst r1)) [5%float; 6%float] 1%float = Panic.
Proof.
  cbv zeta.
  set (v1 := demo_visualizer 2 2 [{| Id := 0; Leds := 2 |}] false).
  set (v2 := demo_visualizer 1 2 [{| Id := 0; Leds := 1 |}] false).
  assert (Hw1 : 1 <= windowSize v1) by (cbn; lia).
  assert (Hw2 : 2 <= windowSize v2) by (cbn; lia).
  assert (Hm : 0 <= maxLedCount v2 < maxLedCount v1) by (cbn; lia).
  assert (H : @process demo_libraries v1 empty_package [3%float; 4%float] 1%float
              = Ok (v1,
                    {| pixs := [[255; 255; 255; 255; 255; 255; 255; 255]]; it := 1 |},
                    Some {| visualizer.Segments :=
                              [{| visualizer.Id := 0;
                                  visualizer.Pix :=
                                    [255; 255; 255; 255; 255; 255; 255; 255] |}] |}))
    by (vm_compute; reflexivity).
  split; [repeat split; try assumption; try reflexivity; lia|].
  exact (@process_panics_after_larger_visualizer demo_libraries v1 v2 empty_package
           [3%float; 4%float] [5%float; 6%float] 1%float 1%float _
           eq_refl eq_refl Hw1 Hw2 Hm H).
Defined.

Lemma process_runs_without_panic_witness :
  let v := demo_visualizer 2 2 [{| Id := 0; Leds := 2 |}; {| Id := 1; Leds := 1 |}] false in
  let g := {| pixs := [[9; 9; 9; 255; 9; 9; 9; 255]]; it := 5 |} in
  (processing v = false /\ 0 <= maxLedCount v /\ 4 * maxLedCount v < 2 ^ 63 /\
   Forall (fun seg => 0 <= Leds seg <= maxLedCount v) (segments v) /\
   Forall (fun p2 => len p2 = 4 * maxLedCount v) (pixs g)) /\
  exists g' e,
    @process demo_libraries v g [3%float; 4%float] 1%float = Ok (v, g', Some e) /\
    Forall (fun p2 => len p2 = 4 * maxLedCount v) (pixs g').
Proof.
  cbv zeta.
  set (v := demo_visualizer 2 2 [{| Id := 0; Leds := 2 |}; {| Id := 1; Leds := 1 |}] false).
  set (g := {| pixs := [[9; 9; 9; 255; 9; 9; 9; 255]]; it := 5 |}).
  assert (H1 : processing v = false) by reflexivity.
  assert (H2 : 0 <= maxLedCount v) by (cbn; lia).
  assert (H3 : Forall (fun seg => 0 <= Leds seg <= maxLedCount v) (segments v))
    by (repeat (apply Forall_cons; [cbn; lia|]); apply Forall_nil).
  assert (H4 : Forall (fun p2 => len p2 = 4 * maxLedCount v) (pixs g))
    by (apply Forall_cons; [reflexivity|apply Forall_nil]).
  assert (H5 : 4 * maxLedCount v < 2 ^ 63) by reflexivity.
  split; [auto|].
  exact (@process_runs_without_panic demo_libraries v g [3%float; 4%float] 1%float
           H1 H2 H5 H3 H4).
Defined.

(** * The warped axis for two points and more *)

Lemma valid_canonical (s : bool) (m : positive) (e : Z) :
  valid_binary (S754_finite s m e) = true ->
  fexp prec emax (Zpos (digits2_pos m) + e) = e /\ e <= emax - prec.
Proof.
  unfold valid_binary, bounded, canonical_mantissa.
  rewrite andb_true_iff, Z.eqb_eq, Z.leb_le. tauto.
Qed.

(** A canonical mantissa followed by [n] zero bits rounds back to itself. *)
Lemma binary_round_aux_valid (s : bool) (M : positive) (e n : Z) :
  valid_binary (S754_finite s M e) = true -> 0 <= n ->
  binary_round_aux prec emax s (Zpos M * 2 ^ n) (e - n) loc_Exact = S754_finite s M e.
Proof.
  intros V Hn. destruct (valid_canonical s M e V) as [C B].
  assert (Hd : Zdigits2 (Zpos M * 2 ^ n) = Zpos (digits2_pos M) + n).
  { rewrite Zdigits2_log2 by (apply Z.mul_pos_pos; [lia | apply Z.pow_pos_nonneg; lia]).
    rewrite Z.log2_mul_pow2 by lia. rewrite digits2_pos_log2. lia. }
  unfold binary_round_aux, shr_fexp. rewrite Hd.
  replace (Zpos (digits2_pos M) + n + (e - n)) with (Zpos (digits2_pos M) + e) by lia.
  rewrite C. replace (e - (e - n)) with n by lia.
  cbn [shr_record_of_loc]. rewrite shr_exact by lia.
  cbn [shr_m loc_of_shr_record round_nearest_even Zdigits2].
  replace (e - n + n) with e by lia.
  rewrite C, Z.sub_diag. cbn [shr shr_m].
  replace (e <=? emax - prec) with true by (symmetry; apply Z.leb_le; exact B).
  reflexivity.
Qed.

Lemma SFmul_one_l (x : spec_float) :
  valid_binary x = true -> unit_form x ->
  SFmul prec emax (S754_finite false 4503599627370496 (-52)) x = x.
Proof.
  intros V [->|(m & e & -> & _)]; [reflexivity|].
  unfold SFmul. cbn [xorb].
  replace (Zpos (4503599627370496 * m)) with (Zpos m * 2 ^ 52)
    by (rewrite Pos2Z.inj_mul; change (2 ^ 52) with 4503599627370496; lia).
  replace (-52 + e) with (e - 52) by lia.
  apply binary_round_aux_valid; [exact V|lia].
Qed.

Lemma fval_canon (z : Z) : 0 <= z < 2 ^ 53 -> fval (canon z) = z * 2 ^ 1074.
Proof.
  intros H. destruct (Z.eq_dec z 0) as [->|Nz]; [reflexivity|].
  rewrite canon_pos by lia. cbn [fval].
  pose proof (log2_lt53 z ltac:(lia)) as Hl.
  rewrite mant_to_pos by lia. unfold mant.
  rewrite <- Z.mul_assoc, <- Z.pow_add_r by lia. do 2 f_equal. lia.
Qed.

Lemma valid_canon (z : Z) : 0 <= z < 2 ^ 53 -> valid_binary (canon z) = true.
Proof.
  intros H. rewrite <- Prim2SF_of_int by exact H. apply Prim2SF_valid.
Qed.

(** The rounded quotient of two integers [0 <= a <= b] is within [[0, 1]]. *)
Lemma quotient_unit_form (a b : Z) :
  0 <= a <= b -> 0 < b < 2 ^ 53 ->
  unit_form (Prim2SF (float64_of_int a / float64_of_int b)).
Proof.
  intros Ha Hb. rewrite div_spec, !Prim2SF_of_int by lia.
  pose proof (valid_canon a ltac:(lia)) as Va.
  pose proof (valid_canon b ltac:(lia)) as Vb.
  pose proof (fval_canon a ltac:(lia)) as Fa.
  pose proof (fval_canon b ltac:(lia)) as Fb.
  rewrite (canon_pos b) in * by lia.
  destruct (Z.eq_dec a 0) as [->|Na]; [left; reflexivity|].
  rewrite (canon_pos a) in * by lia.
  apply SFdiv_le_one; try assumption.
  rewrite Fa, Fb. apply Z.mul_le_mono_nonneg_r; [|lia].
  apply Z.pow_nonneg. lia.
Qed.

Lemma SFsqrt_unit_form (m : positive) (e : Z) :
  valid_binary (S754_finite false m e) = true ->
  Zpos m < 2 ^ (- e) ->
  unit_form (SFsqrt prec emax (S754_finite false m e)).
Proof.
  intros V Hlt. apply valid_finite in V. destruct V as (He & Hd & _).
  assert (Hneg : e < 0).
  { destruct (Z.lt_trichotomy e 0) as [|[->|G]]; [assumption| |].
    - change (2 ^ (- 0)) with 1 in Hlt. lia.
    - rewrite Z.pow_neg_r in Hlt by lia. lia. }
  unfold SFsqrt, SFsqrt_core_binary. cbn [Zdigits2].
  set (d := Zpos (digits2_pos m)) in *.
  pose proof (pos_digits_bound m) as [Hlo Hhi]. fold d in Hlo, Hhi.
  assert (Hde : d + e <= 0).
  { assert (H : 2 ^ (d - 1) < 2 ^ (- e)) by lia.
    apply Z.pow_lt_mono_r_iff in H; lia. }
  rewrite !Z.div2_div.
  set (e' := Z.min (fexp prec emax ((d + e + 1) / 2)) (e / 2)).
  assert (He' : e' <= -53 /\ 2 * e' <= e).
  { assert ((d + e + 1) / 2 <= 0) by (Z.div_mod_to_equations; lia).
    assert (2 * (e / 2) <= e) by (Z.div_mod_to_equations; lia).
    unfold e', fexp, SpecFloat.emin, prec, emax. lia. }
  set (s := e - 2 * e').
  assert (Hs : 0 <= s) by (unfold s; lia).
  set (m' := match s with Z.pos _ => Z.shiftl (Zpos m) s | 0 => Zpos m | Z.neg _ => 0 end).
  assert (Em' : m' = Zpos m * 2 ^ s).
  { unfold m'. destruct s as [|p|p] eqn:Es; try lia. apply Z.shiftl_mul_pow2. lia. }
  assert (Hm' : 0 <= m' < 2 ^ (- e') * 2 ^ (- e')).
  { rewrite Em'. split; [apply Z.mul_nonneg_nonneg; [lia|apply Z.pow_nonneg; lia]|].
    rewrite <- Z.pow_add_r by lia.
    replace (- e' + - e') with (- e + s) by (unfold s; lia).
    rewrite Z.pow_add_r by lia.
    apply Z.mul_lt_mono_pos_r; [apply Z.pow_pos_nonneg; lia|exact Hlt]. }
  pose proof (Z.sqrtrem_spec m' ltac:(lia)) as Hsq.
  destruct (Z.sqrtrem m') as [q r]. destruct Hsq as [Eq Hr].
  assert (P : 0 < 2 ^ (- e')) by (apply Z.pow_pos_nonneg; lia).
  assert (Hq : 0 <= q < 2 ^ (- e')) by nia.
  destruct (binary_round_aux_le_one q e'
              (if r =? 0 then loc_Exact else loc_Inexact (if r <=? q then Lt else Gt)))
    as [Z0|(mz & ez & E & B1 & B2)]; try lia.
  - left. exact Z0.
  - right. exists mz, ez. auto.
Qed.

Lemma unit_form_in_unit (y : float) : unit_form (Prim2SF y) -> in_unit y = true.
Proof. apply in_unit_of_SF. Qed.

(** [math.Pow(v, 0.5)] of a value within [[0, 1]] is within [[0, 1]]. *)
Lemma math_Pow_half_unit (v : float) :
  unit_form (Prim2SF v) -> unit_form (Prim2SF (math_Pow_half v)).
Proof.
  intros [E|(m & e & E & He & Hm)].
  - replace v with 0%float by (apply Prim2SF_inj; rewrite E; reflexivity).
    left. reflexivity.
  - pose proof (Prim2SF_valid v) as V. rewrite E in V.
    unfold math_Pow_half.
    destruct (v =? 1)%float eqn:E1.
    + right. exists 4503599627370496%positive, (-52). repeat split; try reflexivity; lia.
    + assert (Nn : is_nan v = false).
      { unfold is_nan. rewrite eqb_spec, E. unfold SFeqb, SFcompare.
        rewrite Z.compare_refl, Pos.compare_cont_refl. reflexivity. }
      assert (Nz : (v =? 0)%float = false) by (rewrite eqb_spec, E; reflexivity).
      assert (Ni : IsInf v 0 = false).
      { unfold IsInf. cbn. unfold is_infinity. rewrite eqb_spec, abs_spec, E. reflexivity. }
      rewrite Nn, Nz, Ni, sqrt_spec, E.
      apply SFsqrt_unit_form; [exact V|].
      destruct (Z.eq_dec (Zpos m) (2 ^ (- e))) as [Eq|Ne]; [exfalso|lia].
      apply valid_finite in V. destruct V as (_ & Hd & _).
      pose proof (pos_digits_bound m) as [Hlo _]. rewrite Eq in Hlo.
      assert (H : Zpos (digits2_pos m) - 1 <= - e).
      { apply Z.pow_le_mono_r_iff in Hlo; lia. }
      assert (Hdig : Zdigits2 (2 ^ (- e)) = - e + 1).
      { rewrite Zdigits2_log2 by (apply Z.pow_pos_nonneg; lia).
        rewrite Z.log2_pow2 by lia. reflexivity. }
      rewrite <- Eq in Hdig. cbn [Zdigits2] in Hdig.
      assert (e = -52) by lia. subst e.
      change (2 ^ (- -52)) with (Zpos 4503599627370496) in Eq.
      injection Eq as ->.
      rewrite eqb_spec, E in E1. discriminate E1.
Qed.

(** [0 + 1 * q] is [q] for a quotient within [[0, 1]]. *)
Lemma axis_point_exact (q : float) :
  unit_form (Prim2SF q) -> (0 + 1 * q)%float = q.
Proof.
  intros U. apply Prim2SF_inj. rewrite add_spec, mul_spec.
  change (Prim2SF 0) with (S754_zero false).
  change (Prim2SF 1) with (S754_finite false 4503599627370496 (-52)).
  unfold SF64mul. rewrite SFmul_one_l by (try apply Prim2SF_valid; exact U).
  destruct U as [->|(m & e & -> & _)]; reflexivity.
Qed.

Lemma nth_error_count_from (steps : nat) :
  forall (a : Z) (i : nat),
    (i < steps)%nat -> nth_error (count_from a steps) i = Some (a + Z.of_nat i).
Proof.
  induction steps as [|steps IH]; intros a i Hi; [lia|].
  destruct i as [|i]; cbn [count_from nth_error].
  - f_equal. lia.
  - rewrite IH by lia. f_equal. lia.
Qed.

Lemma SpanLog_unit_points (nPoints i : Z) :
  2 <= nPoints < 2 ^ 53 -> 0 <= i < nPoints ->
  unit_form
    (Prim2SF (math_Pow_half
                (0 + 1 * (float64_of_int i / float64_of_int (nPoints - 1)))%float)).
Proof.
  intros Hn Hi.
  pose proof (quotient_unit_form i (nPoints - 1) ltac:(lia) ltac:(lia)) as U.
  rewrite axis_point_exact by exact U.
  apply math_Pow_half_unit, U.
Qed.

(** X20: for 2 up to 2^53 points the axis [SpanLog(0, 1, n)] has [n]
    values, starts at exactly 0, ends at exactly 1, and every value lies
    within [[0, 1]]; in particular none is a NaN. *)
Theorem SpanLog_unit_axis (nPoints : Z) :
  2 <= nPoints < 2 ^ 53 ->
  exists X,
    SpanLog 0 1 nPoints = Ok X /\
    len X = nPoints /\
    nth_error X 0 = Some 0%float /\
    nth_error X (Z.to_nat (nPoints - 1)) = Some 1%float /\
    Forall (fun x => in_unit x = true) X.
Proof.
  intros Hn. unfold SpanLog, make_float64.
  replace (nPoints <? 0) with false by (symmetry; apply Z.ltb_ge; lia).
  cbn [bind]. eexists. split; [reflexivity|].
  replace (len (repeat 0%float (Z.to_nat nPoints))) with nPoints
    by (unfold len; rewrite repeat_length; lia).
  change (math_Min 1 0) with 0%float. change (math_Max 1 0) with 1%float.
  change (1 - 0)%float with 1%float.
  split; [|split; [|split]].
  - unfold len. rewrite length_map, indices_length. lia.
  - unfold indices. rewrite nth_error_map, nth_error_count_from by lia.
    cbn [option_map]. f_equal.
    change (float64_of_int (0 + Z.of_nat 0)) with (float64_of_int (0 * (nPoints - 1))).
    rewrite float64_div_exact by lia. reflexivity.
  - unfold indices. rewrite nth_error_map, nth_error_count_from by lia.
    cbn [option_map]. f_equal.
    replace (0 + Z.of_nat (Z.to_nat (nPoints - 1))) with (1 * (nPoints - 1)) by lia.
    rewrite float64_div_exact by lia. reflexivity.
  - apply Forall_forall. intros x Hx. apply in_map_iff in Hx as (i & <- & Hi).
    apply indices_range in Hi.
    apply unit_form_in_unit, SpanLog_unit_points; assumption.
Qed.

Lemma SpanLog_unit_axis_witness :
  2 <= 3 < 2 ^ 53 /\
  exists X,
    SpanLog 0 1 3 = Ok X /\
    len X = 3 /\
    nth_error X 0 = Some 0%float /\
    nth_error X (Z.to_nat (3 - 1)) = Some 1%float /\
    Forall (fun x => in_unit x = true) X.
Proof.
  assert (H : 2 <= 3 < 2 ^ 53) by (split; [lia|reflexivity]).
  split; [exact H|]. exact (SpanLog_unit_axis 3 H).
Defined.

(** X21: [SpanLog] panics exactly for a negative point count
    ([make] with a negative length), and otherwise returns that many
    values, whatever the bounds are. *)
Theorem SpanLog_length (min max : float) (nPoints : Z) :
  (SpanLog min max nPoints = Panic <-> nPoints < 0) /\
  (forall X, SpanLog min max nPoints = Ok X -> len X = nPoints).
Proof.
  unfold SpanLog, make_float64.
  destruct (Z.ltb_spec nPoints 0) as [N|P]; cbn [bind].
  - split; [tauto|discriminate].
  - split; [split; [discriminate|lia]|].
    intros X [= <-]. unfold len.
    rewrite length_map, indices_length, repeat_length, Nat2Z.id, Z2Nat.id by lia.
    reflexivity.
Qed.

(** * Where the remap samples the spectrum *)

Section Remap.
Context {L : Libraries}.

(** The remap of lines 405-413, with the axis and the ordinates named. *)
Lemma spectral_analyzer_remap (v : Visualizer) (samples : list float) (peak : float) :
  0 <= maxLedCount v ->
  exists X Y,
    Y = map (fun f => normalize f 0 (snd (magnitudes samples)))
            (silence_gate peak (fst (magnitudes samples))) /\
    SpanLog 0 1 (len Y) = Ok X /\
    spectral_analyzer v samples peak
    = Ok (map (piecewiselinear_At X Y)
              (map (fun i => (float64_of_int i / float64_of_int (maxLedCount v - 1))%float)
                   (indices (maxLedCount v)))).
Proof.
  intros Hm. unfold spectral_analyzer.
  destruct (magnitudes samples) as [freqs maxfreq]. cbn [fst snd].
  destruct (SpanLog_len_ok (map (fun f => normalize f 0 maxfreq) (silence_gate peak freqs)))
    as [X EX].
  exists X. eexists. split; [reflexivity|]. split; [exact EX|].
  rewrite EX. cbn [bind]. unfold make_float64.
  replace (maxLedCount v <? 0) with false by (symmetry; apply Z.ltb_ge; lia).
  cbn [bind]. unfold len. rewrite repeat_length, Z2Nat.id, map_map by lia. reflexivity.
Qed.

(** X22: with a single LED the remap evaluates the interpolation at
    [0/0]: the only bin of the frame is the external function's value at
    NaN. *)
Theorem single_led_samples_at_nan (v : Visualizer) (samples : list float) (peak : float) :
  maxLedCount v = 1 ->
  exists X Y,
    Y = map (fun f => normalize f 0 (snd (magnitudes samples)))
            (silence_gate peak (fst (magnitudes samples))) /\
    SpanLog 0 1 (len Y) = Ok X /\
    spectral_analyzer v samples peak = Ok [piecewiselinear_At X Y nan].
Proof.
  intros Hm.
  destruct (spectral_analyzer_remap v samples peak ltac:(lia)) as (X & Y & EY & EX & E).
  exists X, Y. split; [exact EY|]. split; [exact EX|].
  rewrite E, Hm. reflexivity.
Qed.

(** X23: with 2 up to 2^53 LEDs the remap evaluates the interpolation at
    one position per LED, the first exactly 0, the last exactly 1, and all
    of them within [[0, 1]]. *)
Theorem remap_positions_span_unit_interval
        (v : Visualizer) (samples : list float) (peak : float) :
  2 <= maxLedCount v < 2 ^ 53 ->
  exists X Y positions,
    Y = map (fun f => normalize f 0 (snd (magnitudes samples)))
            (silence_gate peak (fst (magnitudes samples))) /\
    SpanLog 0 1 (len Y) = Ok X /\
    spectral_analyzer v samples peak = Ok (map (piecewiselinear_At X Y) positions) /\
    len positions = maxLedCount v /\
    nth_error positions 0 = Some 0%float /\
    nth_error positions (Z.to_nat (maxLedCount v - 1)) = Some 1%float /\
    Forall (fun x => in_unit x = true) positions.
Proof.
  intros Hm.
  destruct (spectral_analyzer_remap v samples peak ltac:(lia)) as (X & Y & EY & EX & E).
  exists X, Y. eexists. split; [exact EY|]. split; [exact EX|]. split; [exact E|].
  set (M := maxLedCount v) in *.
  split; [|split; [|split]].
  - unfold len. rewrite length_map, indices_length. lia.
  - unfold indices. rewrite nth_error_map, nth_error_count_from by lia.
    cbn [option_map]. f_equal.
    change (float64_of_int (0 + Z.of_nat 0)) with (float64_of_int (0 * (M - 1))).
    rewrite float64_div_exact by lia. reflexivity.
  - unfold indices. rewrite nth_error_map, nth_error_count_from by lia.
    cbn [option_map]. f_equal.
    replace (0 + Z.of_nat (Z.to_nat (M - 1))) with (1 * (M - 1)) by lia.
    rewrite float64_div_exact by lia. reflexivity.
  - apply Forall_forall. intros x Hx. apply in_map_iff in Hx as (i & <- & Hi).
    apply indices_range in Hi.
    apply unit_form_in_unit, quotient_unit_form; lia.
Qed.

End Remap.

Lemma single_led_samples_at_nan_witness :
  let v := demo_visualizer 1 2 [{| Id := 0; Leds := 1 |}] false in
  maxLedCount v = 1 /\
  exists X Y,
    Y = map (fun f => normalize f 0 (snd (@magnitudes demo_libraries [3%float; 4%float])))
            (silence_gate 1 (fst (@magnitudes demo_libraries [3%float; 4%float]))) /\
    SpanLog 0 1 (len Y) = Ok X /\
    @spectral_analyzer demo_libraries v [3%float; 4%float] 1
    = Ok [@piecewiselinear_At demo_libraries X Y nan].
Proof.
  cbv zeta. split; [reflexivity|].
  exact (@single_led_samples_at_nan demo_libraries
           (demo_visualizer 1 2 [{| Id := 0; Leds := 1 |}] false)
           [3%float; 4%float] 1%float eq_refl).
Defined.

Lemma remap_positions_span_unit_interval_witness :
  let v := demo_visualizer 3 2 [{| Id := 0; Leds := 3 |}] false in
  2 <= maxLedCount v < 2 ^ 53 /\
  exists X Y positions,
    Y = map (fun f => normalize f 0 (snd (@magnitudes demo_libraries [3%float; 4%float])))
            (silence_gate 1 (fst (@magnitudes demo_libraries [3%float; 4%float]))) /\
    SpanLog 0 1 (len Y) = Ok X /\
    @spectral_analyzer demo_libraries v [3%float; 4%float] 1
    = Ok (map (@piecewiselinear_At demo_libraries X Y) positions) /\
    len positions = maxLedCount v /\
    nth_error positions 0 = Some 0%float /\
    nth_error positions (Z.to_nat (maxLedCount v - 1)) = Some 1%float /\
    Forall (fun x => in_unit x = true) positions.
Proof.
  cbv zeta.
  assert (H : 2 <= maxLedCount (demo_visualizer 3 2 [{| Id := 0; Leds := 3 |}] false) < 2 ^ 53)
    by (split; [cbn; lia|reflexivity]).
  split; [exact H|].
  exact (@remap_positions_span_unit_interval demo_libraries
           (demo_visualizer 3 2 [{| Id := 0; Leds := 3 |}] false)
           [3%float; 4%float] 1%float H).
Defined.

(** * Order of the bounds of SpanLog *)

Lemma SFcompare_swap (x y : spec_float) :
  SFcompare y x = option_map CompOpp (SFcompare x y).
Proof.
  destruct x as [[|]|[|]| |[|] mx ex]; destruct y as [[|]|[|]| |[|] my ey];
    try reflexivity; cbn [SFcompare option_map]; f_equal;
    rewrite (Z.compare_antisym ex ey); destruct (ex ?= ey); cbn [CompOpp];
    try reflexivity.
  - rewrite (Pos.compare_cont_antisym mx my Eq). reflexivity.
  - rewrite (Pos.compare_cont_antisym mx my Eq). reflexivity.
Qed.

Lemma SFcompare_Eq_inv (x y : spec_float) :
  SFcompare x y = Some Eq ->
  (exists s s', x = S754_zero s /\ y = S754_zero s') \/ x = y.
Proof.
  destruct x as [[|]|[|]| |[|] mx ex]; destruct y as [[|]|[|]| |[|] my ey];
    cbn [SFcompare]; intros H; try discriminate H;
    try (right; reflexivity); try (left; eauto; fail).
  - right. injection H as H.
    destruct (ex ?= ey) eqn:Ee; try discriminate H.
    apply Z.compare_eq in Ee. subst ey.
    destruct (Pos.compare_cont Eq mx my) eqn:Em; try discriminate H.
    apply Pos.compare_eq in Em. subst my. reflexivity.
  - right. injection H as H.
    destruct (ex ?= ey) eqn:Ee; try discriminate H.
    apply Z.compare_eq in Ee. subst ey.
    destruct (Pos.compare_cont Eq mx my) eqn:Em; try discriminate H.
    apply Pos.compare_eq in Em. subst my. reflexivity.
Qed.

Lemma SFcompare_refl (x : spec_float) :
  x <> S754_nan -> SFcompare x x = Some Eq.
Proof.
  destruct x as [[|]|[|]| |[|] mx ex]; intros H; try reflexivity; try contradiction;
    cbn [SFcompare]; rewrite Z.compare_refl, Pos.compare_cont_refl; reflexivity.
Qed.

Lemma is_nan_spec (x : float) : is_nan x = true <-> Prim2SF x = S754_nan.
Proof.
  unfold is_nan. rewrite eqb_spec. unfold SFeqb.
  destruct (Prim2SF x) as [s|s| |s m e] eqn:E.
  - rewrite SFcompare_refl by discriminate. split; discriminate.
  - rewrite SFcompare_refl by discriminate. split; discriminate.
  - split; reflexivity.
  - rewrite SFcompare_refl by discriminate. split; discriminate.
Qed.

Lemma is_nan_false (x : float) : Prim2SF x <> S754_nan -> is_nan x = false.
Proof.
  intros H. destruct (is_nan x) eqn:E; [|reflexivity].
  apply is_nan_spec in E. contradiction.
Qed.

Lemma zero_cases (x : float) (s : bool) :
  Prim2SF x = S754_zero s -> x = (if s then (-0)%float else 0%float).
Proof. intros E. apply Prim2SF_inj. rewrite E. destruct s; reflexivity. Qed.

(** The comparison of two floats that are not NaN and not both zero. *)
Lemma compare_cases (x y : float) :
  Prim2SF x <> S754_nan -> Prim2SF y <> S754_nan ->
  ((x <? y)%float = true /\ (y <? x)%float = false /\ (x =? y)%float = false
   /\ (y =? x)%float = false) \/
  ((x <? y)%float = false /\ (y <? x)%float = true /\ (x =? y)%float = false
   /\ (y =? x)%float = false) \/
  ((x <? y)%float = false /\ (y <? x)%float = false /\ (x =? y)%float = true
   /\ (y =? x)%float = true /\
   ((exists s s', Prim2SF x = S754_zero s /\ Prim2SF y = S754_zero s') \/ x = y)).
Proof.
  intros Nx Ny. rewrite !ltb_spec, !eqb_spec. unfold SFltb, SFeqb.
  rewrite (SFcompare_swap (Prim2SF x) (Prim2SF y)).
  destruct (SFcompare (Prim2SF x) (Prim2SF y)) as [[| |]|] eqn:C; cbn [option_map CompOpp].
  - right. right. repeat split; try reflexivity.
    destruct (SFcompare_Eq_inv _ _ C) as [Z|E]; [left; exact Z|right].
    apply Prim2SF_inj, E.
  - left. repeat split; reflexivity.
  - right. left. repeat split; reflexivity.
  - exfalso.
    destruct (Prim2SF x) as [[|]|[|]| |[|] mx ex]; try contradiction;
      destruct (Prim2SF y) as [[|]|[|]| |[|] my ey]; try contradiction;
      discriminate C.
Qed.

Lemma eqb_zero_spec (x : float) :
  (x =? 0)%float = true <-> exists s, Prim2SF x = S754_zero s.
Proof.
  rewrite eqb_spec. change (Prim2SF 0) with (S754_zero false).
  destruct (Prim2SF x) as [[|]|[|]| |[|] mx ex]; cbn; split; intros H;
    try discriminate H; try reflexivity; eauto;
    destruct H as [s H]; discriminate H.
Qed.

Lemma math_Min_comm (x y : float) : math_Min x y = math_Min y x.
Proof.
  unfold math_Min.
  rewrite (orb_comm (IsInf y (-1))), (orb_comm (is_nan y)).
  destruct (IsInf x (-1) || IsInf y (-1)); [reflexivity|].
  destruct (is_nan x) eqn:Nx; [reflexivity|].
  destruct (is_nan y) eqn:Ny; [reflexivity|]. cbn [orb].
  assert (Px : Prim2SF x <> S754_nan)
    by (intros E; apply is_nan_spec in E; congruence).
  assert (Py : Prim2SF y <> S754_nan)
    by (intros E; apply is_nan_spec in E; congruence).
  destruct (compare_cases x y Px Py)
    as [(L1 & L2 & E1 & E2)|[(L1 & L2 & E1 & E2)|(L1 & L2 & E1 & E2 & Z)]];
    rewrite L1, L2, E1, E2, ?andb_false_r; try reflexivity.
  rewrite !andb_true_r.
  destruct Z as [(s & s' & Zx & Zy) | ->].
  - apply zero_cases in Zx, Zy. subst x y. destruct s, s'; reflexivity.
  - destruct (y =? 0)%float; [destruct (get_sign y)|]; reflexivity.
Qed.

Lemma math_Max_comm (x y : float) : math_Max x y = math_Max y x.
Proof.
  unfold math_Max.
  rewrite (orb_comm (IsInf y 1)), (orb_comm (is_nan y)).
  destruct (IsInf x 1 || IsInf y 1); [reflexivity|].
  destruct (is_nan x) eqn:Nx; [reflexivity|].
  destruct (is_nan y) eqn:Ny; [reflexivity|]. cbn [orb].
  assert (Px : Prim2SF x <> S754_nan)
    by (intros E; apply is_nan_spec in E; congruence).
  assert (Py : Prim2SF y <> S754_nan)
    by (intros E; apply is_nan_spec in E; congruence).
  destruct (compare_cases x y Px Py)
    as [(L1 & L2 & E1 & E2)|[(L1 & L2 & E1 & E2)|(L1 & L2 & E1 & E2 & Z)]];
    rewrite L1, L2, E1, E2, ?andb_false_r; try reflexivity.
  rewrite !andb_true_r.
  destruct Z as [(s & s' & Zx & Zy) | ->].
  - apply zero_cases in Zx, Zy. subst x y. destruct s, s'; reflexivity.
  - destruct (y =? 0)%float; [destruct (get_sign y)|]; reflexivity.
Qed.

(** X24: [SpanLog] returns the same axis whichever of its two bounds is
    passed first, for all floats, the zeros of either sign, the infinities
    and NaN included. *)
Theorem SpanLog_bounds_in_either_order (a b : float) (nPoints : Z) :
  SpanLog a b nPoints = SpanLog b a nPoints.
Proof.
  unfold SpanLog. rewrite (math_Min_comm b a), (math_Max_comm b a). reflexivity.
Qed.

(** * The largest magnitude normalises to 1 *)

Lemma SFdiv_self (m : positive) (e : Z) :
  SFdiv prec emax (S754_finite false m e) (S754_finite false m e)
  = S754_finite false 4503599627370496 (-52).
Proof.
  unfold SFdiv, SFdiv_core_binary. cbn [xorb Zdigits2].
  rewrite !Z.sub_diag.
  change (Z.min (fexp prec emax 0) 0) with (-53).
  change (0 - -53) with 53.
  rewrite Z.shiftl_mul_pow2 by lia.
  rewrite div_eucl_div_mod, Z.mul_comm, Z.div_mul, Z.mod_mul by lia.
  rewrite new_location_zero.
  change (2 ^ 53) with (Zpos 4503599627370496 * 2 ^ 1).
  rewrite binary_round_aux_exact by (try reflexivity; lia). reflexivity.
Qed.

Lemma normalize_maximum (m : float) :
  finite_positive m -> normalize m 0 m = 1%float.
Proof.
  intros (mm & em & E). unfold normalize.
  replace (m =? 0)%float with false by (rewrite eqb_spec, E; reflexivity).
  apply Prim2SF_inj. rewrite div_spec, sub_spec, E.
  change (Prim2SF 0) with (S754_zero false). cbn [SF64sub SFsub].
  apply SFdiv_self.
Qed.

Section LoudestBin.
Context {L : Libraries}.

Lemma magnitudes_from_max_member (coeff : list complex128) :
  forall freqs m,
    let r := fold_left (fun (acc : list float * float) c =>
                          let (freqs, maxfreq) := acc in
                          (freqs ++ [cmplx_Abs c],
                           if (maxfreq <? cmplx_Abs c)%float then cmplx_Abs c else maxfreq))
                       coeff (freqs, m) in
    snd r = m \/ In (snd r) (map cmplx_Abs coeff).
Proof.
  induction coeff as [|c coeff IH]; intros freqs m; cbn [fold_left map].
  - left. reflexivity.
  - cbv zeta in IH.
    destruct (IH (freqs ++ [cmplx_Abs c])
                 (if (m <? cmplx_Abs c)%float then cmplx_Abs c else m)) as [E|I].
    + rewrite E. destruct (m <? cmplx_Abs c)%float; [right; left; reflexivity|left; reflexivity].
    + right. right. exact I.
Qed.

(** X25: when the frame is not silenced and the largest magnitude is
    positive and finite, that magnitude is one of the frame's magnitudes
    and normalises to exactly 1: the normalised spectrum always reaches
    1. *)
Theorem loudest_bin_normalises_to_one (samples : list float) (peak : float) :
  finite_positive (snd (magnitudes samples)) ->
  (peak =? 0)%float = false ->
  In (snd (magnitudes samples)) (fst (magnitudes samples)) /\
  In 1%float
     (map (fun f => normalize f 0 (snd (magnitudes samples)))
          (silence_gate peak (fst (magnitudes samples)))).
Proof.
  intros Hm Hp.
  assert (M : In (snd (magnitudes samples)) (fst (magnitudes samples))).
  { unfold magnitudes in *. rewrite magnitudes_from_fst. cbn [app].
    match goal with
    | |- In (snd (fold_left _ ?coeff _)) _ =>
        destruct (magnitudes_from_max_member coeff [] 0%float) as [E|I]
    end; [|exact I].
    exfalso. destruct Hm as (mm & em & Hm). rewrite E in Hm. discriminate Hm. }
  split; [exact M|].
  unfold silence_gate. rewrite Hp.
  apply in_map_iff. exists (snd (magnitudes samples)).
  split; [apply normalize_maximum, Hm|exact M].
Qed.

End LoudestBin.

Lemma loudest_bin_normalises_to_one_witness :
  (finite_positive (snd (@magnitudes demo_libraries [3%float; 4%float])) /\
   (1 =? 0)%float = false) /\
  In (snd (@magnitudes demo_libraries [3%float; 4%float]))
     (fst (@magnitudes demo_libraries [3%float; 4%float])) /\
  In 1%float
     (map (fun f => normalize f 0 (snd (@magnitudes demo_libraries [3%float; 4%float])))
          (silence_gate 1 (fst (@magnitudes demo_libraries [3%float; 4%float])))).
Proof.
  assert (Hm : finite_positive (snd (@magnitudes demo_libraries [3%float; 4%float])))
    by (do 2 eexists; vm_compute; reflexivity).
  split; [split; [exact Hm|reflexivity]|].
  exact (@loudest_bin_normalises_to_one demo_libraries [3%float; 4%float] 1%float
           Hm eq_refl).
Defined.

(** * Rounding between two integer bounds *)

Lemma round_exponent_le_byte (m e : Z) :
  0 <= m <= 256 * 2 ^ (- e) -> e <= -44 ->
  e + Z.max (fexp prec emax (Zdigits2 m + e) - e) 0 <= -44.
Proof.
  intros Hm He.
  assert (E : 256 * 2 ^ (- e) = 2 ^ (8 - e)).
  { change 256 with (2 ^ 8). rewrite <- Z.pow_add_r by lia. f_equal; lia. }
  rewrite E in Hm.
  pose proof (Zdigits2_le_pow2 m (8 - e) Hm ltac:(lia)).
  unfold fexp, SpecFloat.emin, prec, emax. lia.
Qed.

Lemma div_pow2_between (q k a A B : Z) :
  0 <= k <= a -> 0 <= A ->
  A * 2 ^ a <= q <= B * 2 ^ a ->
  A * 2 ^ (a - k) <= q / 2 ^ k <= B * 2 ^ (a - k).
Proof.
  intros Hk HA Hq.
  assert (P : 0 < 2 ^ k) by (apply Z.pow_pos_nonneg; lia).
  assert (E : 2 ^ a = 2 ^ k * 2 ^ (a - k))
    by (rewrite <- Z.pow_add_r by lia; f_equal; lia).
  split.
  - apply Z.div_le_lower_bound; [lia|]. rewrite E in Hq. lia.
  - apply Z.div_le_upper_bound; [lia|]. rewrite E in Hq. lia.
Qed.

Lemma div_pow2_below (q k a B : Z) :
  0 <= k <= a -> 0 <= q < B * 2 ^ a -> q / 2 ^ k < B * 2 ^ (a - k).
Proof.
  intros Hk Hq.
  assert (P : 0 < 2 ^ k) by (apply Z.pow_pos_nonneg; lia).
  assert (E : 2 ^ a = 2 ^ k * 2 ^ (a - k))
    by (rewrite <- Z.pow_add_r by lia; f_equal; lia).
  apply Z.div_lt_upper_bound; [lia|]. rewrite E in Hq. lia.
Qed.

Lemma div_pow2_below_inexact (q k a B : Z) :
  0 <= k <= a -> 0 <= q <= B * 2 ^ a -> q <> q / 2 ^ k * 2 ^ k ->
  q / 2 ^ k < B * 2 ^ (a - k).
Proof.
  intros Hk Hq Hne.
  assert (P : 0 < 2 ^ k) by (apply Z.pow_pos_nonneg; lia).
  assert (E : 2 ^ a = 2 ^ k * 2 ^ (a - k))
    by (rewrite <- Z.pow_add_r by lia; f_equal; lia).
  pose proof (Z.mul_div_le q (2 ^ k) P) as Hle.
  assert (Hlt : 2 ^ k * (q / 2 ^ k) < 2 ^ k * (B * 2 ^ (a - k))).
  { rewrite E in Hq. lia. }
  apply Z.mul_lt_mono_pos_l in Hlt; lia.
Qed.

Lemma binary_round_aux_between (q e : Z) (l : location) (A B : Z) :
  0 <= A <= B -> B <= 256 -> e <= -44 ->
  A * 2 ^ (- e) <= q <= B * 2 ^ (- e) ->
  (l <> loc_Exact -> q < B * 2 ^ (- e)) ->
  (binary_round_aux prec emax false q e l = S754_zero false /\ A = 0) \/
  exists m e', binary_round_aux prec emax false q e l = S754_finite false m e' /\
               e' <= -44 /\ A * 2 ^ (- e') <= Zpos m <= B * 2 ^ (- e').
Proof.
  intros HAB HB He Hq Hlt.
  assert (P0 : 0 < 2 ^ (- e)) by (apply Z.pow_pos_nonneg; lia).
  assert (Hq0 : 0 <= q) by nia.
  assert (Hq256 : 0 <= q <= 256 * 2 ^ (- e)) by nia.
  unfold binary_round_aux, shr_fexp.
  set (n1 := fexp prec emax (Zdigits2 q + e) - e).
  pose proof (shr_quotient q e n1 l Hq0) as (Hm1 & He1 & Hx1).
  pose proof (round_exponent_le_byte q e Hq256 He) as Hexp1. fold n1 in Hexp1.
  destruct (shr (shr_record_of_loc q l) e n1) as [mrs1 e1]. cbn [fst snd] in *.
  set (k1 := Z.max n1 0) in *.
  assert (Hk1 : 0 <= k1 <= - e) by lia.
  assert (B1 : A * 2 ^ (- e1) <= shr_m mrs1 <= B * 2 ^ (- e1)).
  { rewrite Hm1, He1. replace (- (e + k1)) with (- e - k1) by lia.
    apply div_pow2_between; lia. }
  assert (S1 : loc_of_shr_record mrs1 <> loc_Exact -> shr_m mrs1 < B * 2 ^ (- e1)).
  { intros Hne. rewrite Hm1, He1. replace (- (e + k1)) with (- e - k1) by lia.
    destruct l as [|c].
    - apply div_pow2_below_inexact; [lia | lia |].
      intros E. apply Hne, Hx1; [reflexivity|]. rewrite <- Hm1 in *. exact E.
    - apply div_pow2_below; [lia|]. split; [lia|]. apply Hlt. discriminate. }
  assert (P1 : 0 < 2 ^ (- e1)) by (apply Z.pow_pos_nonneg; lia).
  set (m2 := round_nearest_even (shr_m mrs1) (loc_of_shr_record mrs1)).
  assert (B2 : A * 2 ^ (- e1) <= m2 <= B * 2 ^ (- e1)).
  { unfold m2. destruct (loc_of_shr_record mrs1) as [|c] eqn:El; cbn [round_nearest_even].
    - lia.
    - specialize (S1 ltac:(discriminate)).
      destruct c; [destruct (Z.even (shr_m mrs1))| |]; lia. }
  assert (Hm20 : 0 <= m2) by nia.
  assert (Hm2256 : 0 <= m2 <= 256 * 2 ^ (- e1)) by nia.
  set (n2 := fexp prec emax (Zdigits2 m2 + e1) - e1).
  pose proof (shr_quotient m2 e1 n2 loc_Exact Hm20) as (Hm3 & He3 & _).
  pose proof (round_exponent_le_byte m2 e1 Hm2256 ltac:(lia)) as Hexp2. fold n2 in Hexp2.
  destruct (shr (shr_record_of_loc m2 loc_Exact) e1 n2) as [mrs3 e3]. cbn [fst snd] in *.
  set (k2 := Z.max n2 0) in *.
  assert (B3 : A * 2 ^ (- e3) <= shr_m mrs3 <= B * 2 ^ (- e3)).
  { rewrite Hm3, He3. replace (- (e1 + k2)) with (- e1 - k2) by lia.
    apply div_pow2_between; lia. }
  assert (P3 : 0 < 2 ^ (- e3)) by (apply Z.pow_pos_nonneg; lia).
  destruct (shr_m mrs3) as [|p|p] eqn:E3.
  - left. split; [reflexivity|]. nia.
  - right. exists p, e3.
    replace (e3 <=? emax - prec) with true
      by (symmetry; apply Z.leb_le; unfold emax, prec; lia).
    repeat split; lia.
  - exfalso. nia.
Qed.

Lemma SFdiv_between (mf mm : positive) (ef em : Z) (A B : Z) :
  valid_binary (S754_finite false mf ef) = true ->
  valid_binary (S754_finite false mm em) = true ->
  0 <= A <= B -> B <= 256 ->
  A * fval (S754_finite false mm em) <= fval (S754_finite false mf ef)
  <= B * fval (S754_finite false mm em) ->
  (SFdiv prec emax (S754_finite false mf ef) (S754_finite false mm em) = S754_zero false
   /\ A = 0) \/
  exists m e,
    SFdiv prec emax (S754_finite false mf ef) (S754_finite false mm em)
    = S754_finite false m e /\ e <= -44 /\ A * 2 ^ (- e) <= Zpos m <= B * 2 ^ (- e).
Proof.
  intros Vf Vm HAB HB Hle. apply valid_finite in Vf, Vm.
  destruct Vf as (Hef & Hdf & _). destruct Vm as (Hem & Hdm & _).
  cbn [fval] in Hle.
  unfold SFdiv, SFdiv_core_binary. cbn [xorb Zdigits2].
  set (d1 := Zpos (digits2_pos mf)) in *. set (d2 := Zpos (digits2_pos mm)) in *.
  pose proof (pos_digits_bound mf) as [Hf1 Hf2]. fold d1 in Hf1, Hf2.
  pose proof (pos_digits_bound mm) as [Hm1 Hm2]. fold d2 in Hm1, Hm2.
  set (a := ef + 1074) in *. set (b := em + 1074) in *.
  assert (Pa : 0 < 2 ^ a) by (apply Z.pow_pos_nonneg; lia).
  assert (Pb : 0 < 2 ^ b) by (apply Z.pow_pos_nonneg; lia).
  assert (Hd : d1 + ef <= d2 + em + 8).
  { assert (H1 : 2 ^ (d1 - 1 + a) <= Zpos mf * 2 ^ a).
    { rewrite Z.pow_add_r by lia. apply Z.mul_le_mono_nonneg_r; lia. }
    assert (H2 : Zpos mm * 2 ^ b < 2 ^ (d2 + b)).
    { rewrite Z.pow_add_r by lia. apply Z.mul_lt_mono_pos_r; lia. }
    assert (H4 : B * (Zpos mm * 2 ^ b) <= 256 * (Zpos mm * 2 ^ b)).
    { apply Z.mul_le_mono_nonneg_r; [|lia]. apply Z.mul_nonneg_nonneg; lia. }
    assert (H5 : 256 * 2 ^ (d2 + b) = 2 ^ (8 + d2 + b)).
    { change 256 with (2 ^ 8). rewrite <- Z.pow_add_r by lia. f_equal; lia. }
    assert (H3 : 2 ^ (d1 - 1 + a) < 2 ^ (8 + d2 + b)) by lia.
    apply Z.pow_lt_mono_r_iff in H3; lia. }
  set (e' := Z.min (fexp prec emax (d1 + ef - (d2 + em))) (ef - em)).
  assert (He' : e' <= -44 /\ e' <= ef - em)
    by (unfold e', fexp, SpecFloat.emin, prec, emax; lia).
  set (s := ef - em - e').
  assert (Hs : 0 <= s) by (unfold s; lia).
  set (m' := match s with Z.pos _ => Z.shiftl (Zpos mf) s | 0 => Zpos mf | Z.neg _ => 0 end).
  assert (Em' : m' = Zpos mf * 2 ^ s).
  { unfold m'. destruct s as [|p|p] eqn:Es; try lia.
    apply Z.shiftl_mul_pow2. lia. }
  rewrite div_eucl_div_mod.
  assert (Pe : 0 < 2 ^ (- e')) by (apply Z.pow_pos_nonneg; lia).
  assert (H1 : m' * 2 ^ b = Zpos mf * 2 ^ a * 2 ^ (- e')).
  { rewrite Em', <- !Z.mul_assoc, <- !Z.pow_add_r by lia.
    do 2 f_equal. unfold s, a, b. lia. }
  assert (Hupper : m' <= Zpos mm * (B * 2 ^ (- e'))).
  { assert (H2 : Zpos mf * 2 ^ a * 2 ^ (- e') <= B * (Zpos mm * 2 ^ b) * 2 ^ (- e'))
      by (apply Z.mul_le_mono_nonneg_r; lia).
    assert (H3 : m' * 2 ^ b <= Zpos mm * (B * 2 ^ (- e')) * 2 ^ b)
      by (rewrite H1; etransitivity; [exact H2|]; apply Z.eq_le_incl; ring).
    apply Z.mul_le_mono_pos_r in H3; lia. }
  assert (Hlower : Zpos mm * (A * 2 ^ (- e')) <= m').
  { assert (H2 : A * (Zpos mm * 2 ^ b) * 2 ^ (- e') <= Zpos mf * 2 ^ a * 2 ^ (- e'))
      by (apply Z.mul_le_mono_nonneg_r; lia).
    assert (H3 : Zpos mm * (A * 2 ^ (- e')) * 2 ^ b <= m' * 2 ^ b)
      by (rewrite H1; etransitivity; [|exact H2]; apply Z.eq_le_incl; ring).
    apply Z.mul_le_mono_pos_r in H3; lia. }
  assert (Hm'0 : 0 <= m').
  { rewrite Em'. apply Z.mul_nonneg_nonneg; [lia|]. apply Z.pow_nonneg. lia. }
  apply binary_round_aux_between; try lia.
  - split.
    + apply Z.div_le_lower_bound; lia.
    + apply Z.div_le_upper_bound; lia.
  - intros Hloc.
    assert (Hr : m' mod Zpos mm <> 0)
      by (intros E; apply Hloc; rewrite E; apply new_location_zero).
    pose proof (Z.div_mod m' (Zpos mm) ltac:(lia)) as Hdm'.
    pose proof (Z.mod_pos_bound m' (Zpos mm) ltac:(lia)) as Hmb.
    assert (Hlt : Zpos mm * (m' / Zpos mm) < Zpos mm * (B * 2 ^ (- e'))) by lia.
    apply Z.mul_lt_mono_pos_l in Hlt; lia.
Qed.

(** The byte made of the rounded quotient [S / T] lies between two integer
    bounds of the exact quotient. *)
Lemma quotient_between (S T lo hi : Z) :
  0 <= lo -> hi <= 255 -> 0 < T -> 255 * T < 2 ^ 53 ->
  lo * T <= S <= hi * T ->
  lo <= uint8_of_float64 (float64_of_int S / float64_of_int T) <= hi.
Proof.
  intros Hlo Hhi HT Hsmall HS. rewrite pow2_53 in Hsmall.
  assert (Hlh : lo <= hi) by nia.
  assert (HS53 : 0 <= S < 2 ^ 53) by (rewrite pow2_53; nia).
  assert (HT53 : 0 <= T < 2 ^ 53) by (rewrite pow2_53; nia).
  unfold uint8_of_float64, truncate, uint8.
  rewrite div_spec, !Prim2SF_of_int by assumption. unfold SF64div.
  pose proof (valid_canon S HS53) as VS.
  pose proof (valid_canon T HT53) as VT.
  pose proof (fval_canon S HS53) as FS.
  pose proof (fval_canon T HT53) as FT.
  rewrite (canon_pos T) in * by lia.
  destruct (Z.eq_dec S 0) as [->|NS].
  - cbn. assert (lo = 0) by nia. lia.
  - rewrite (canon_pos S) in * by lia.
    destruct (SFdiv_between _ _ _ _ lo hi VS VT ltac:(lia) ltac:(lia))
      as [[-> ->]|(m & e & -> & He & Hm)].
    + rewrite FS, FT.
      assert (0 < 2 ^ 1074) by (apply Z.pow_pos_nonneg; lia). nia.
    + cbn. lia.
    + cbn [cond_Zopp]. rewrite Z.shiftl_div_pow2 by lia.
      assert (P : 0 < 2 ^ (- e)) by (apply Z.pow_pos_nonneg; lia).
      assert (lo <= Zpos m / 2 ^ (- e) <= hi).
      { split; [apply Z.div_le_lower_bound; lia|apply Z.div_le_upper_bound; lia]. }
      rewrite Z.mod_small; lia.
Qed.

(** * The smoother's sums are exact *)

Lemma Zsum_nonneg (ws : list Z) : Forall (fun w => 0 <= w) ws -> 0 <= Zsum ws.
Proof.
  induction 1 as [|w ws Hw _ IH]; [cbn; lia|].
  change (Zsum (w :: ws)) with (w + Zsum ws). lia.
Qed.

Lemma fold_left_add_Zsum (ws : list Z) : forall a, fold_left Z.add ws a = a + Zsum ws.
Proof.
  induction ws as [|w ws IH]; intros a; cbn [fold_left]; [cbn; lia|].
  rewrite IH. change (Zsum (w :: ws)) with (w + Zsum ws). lia.
Qed.

Lemma accumulate_exact (p2 : list byte) (w : Z) :
  forall acc : list Z,
    Forall is_byte p2 -> length p2 = length acc -> 0 <= w ->
    Forall (fun a => 0 <= a /\ a + 255 * w < 2 ^ 53) acc ->
    accumulate (map float64_of_int acc) p2 (float64_of_int w)
    = Ok (map float64_of_int (accumulate_int acc p2 w)).
Proof.
  induction p2 as [|p p2 IH]; intros acc Hp Hlen Hw Hacc.
  - destruct acc; [reflexivity|discriminate Hlen].
  - destruct acc as [|a acc]; [discriminate Hlen|].
    inversion Hp as [|? ? Hp1 Hp2]; subst. inversion Hacc as [|? ? Ha1 Ha2]; subst.
    cbn [map accumulate accumulate_int].
    rewrite IH by (try assumption; cbn in Hlen; lia). cbn [bind].
    unfold is_byte in Hp1. rewrite pow2_53 in Ha1.
    rewrite float64_mul_exact, float64_add_exact by (rewrite ?pow2_53; nia).
    reflexivity.
Qed.

Lemma accumulate_int_length (p2 : list byte) (w : Z) :
  forall acc, length (accumulate_int acc p2 w) = length acc.
Proof.
  induction p2 as [|p p2 IH]; intros [|a acc]; cbn [accumulate_int length];
    try reflexivity. rewrite IH. reflexivity.
Qed.

Lemma accumulate_int_nth (p2 : list byte) (w : Z) :
  forall (acc : list Z) (j : nat),
    length p2 = length acc ->
    nth j (accumulate_int acc p2 w) 0 = nth j acc 0 + nth j p2 0 * w.
Proof.
  induction p2 as [|p p2 IH]; intros [|a acc] j Hlen; try discriminate Hlen.
  - destruct j; cbn; lia.
  - destruct j as [|j]; cbn [accumulate_int nth]; [reflexivity|].
    apply IH. cbn in Hlen. lia.
Qed.

Lemma accumulate_int_bound (p2 : list byte) (w W : Z) :
  forall acc : list Z,
    Forall is_byte p2 -> 0 <= w -> 0 <= W ->
    Forall (fun a => 0 <= a /\ a + 255 * (w + W) < 2 ^ 53) acc ->
    Forall (fun a => 0 <= a /\ a + 255 * W < 2 ^ 53) (accumulate_int acc p2 w).
Proof.
  induction p2 as [|p p2 IH]; intros acc Hp Hw HW Hacc.
  - destruct acc; cbn [accumulate_int];
      (eapply Forall_impl; [|exact Hacc]); cbv beta; intros a Ha; lia.
  - destruct acc as [|a acc]; cbn [accumulate_int]; [constructor|].
    inversion Hp as [|? ? Hp1 Hp2]; subst. inversion Hacc as [|? ? Ha1 Ha2]; subst.
    unfold is_byte in Hp1. constructor; [nia|]. apply IH; assumption.
Qed.

Lemma weighted_sum_exact (pixs : list (list byte)) :
  forall (ws acc : list Z),
    length ws = length pixs ->
    Forall (fun p2 => length p2 = length acc /\ Forall is_byte p2) pixs ->
    Forall (fun w => 0 <= w) ws ->
    Forall (fun a => 0 <= a /\ a + 255 * Zsum ws < 2 ^ 53) acc ->
    weighted_sum pixs (map float64_of_int ws) (map float64_of_int acc)
    = Ok (map float64_of_int (weighted_sum_int pixs ws acc)).
Proof.
  induction pixs as [|p2 pixs IH]; intros ws acc Hlen Hp Hws Hacc.
  - destruct ws; reflexivity.
  - destruct ws as [|w ws]; [discriminate Hlen|].
    inversion Hp as [|? ? [Hp1 Hp1'] Hp2]; subst. inversion Hws as [|? ? Hw1 Hw2]; subst.
    pose proof (Zsum_nonneg ws Hw2) as HW.
    cbn [map weighted_sum weighted_sum_int].
    rewrite accumulate_exact; try assumption.
    + cbn [bind]. apply IH.
      * cbn in Hlen. lia.
      * eapply Forall_impl; [|exact Hp2]. cbv beta. intros q [Hq1 Hq2].
        rewrite accumulate_int_length. auto.
      * assumption.
      * apply accumulate_int_bound; assumption.
    + eapply Forall_impl; [|exact Hacc]. cbv beta. intros a Ha.
      change (Zsum (w :: ws)) with (w + Zsum ws) in Ha. lia.
Qed.

Lemma weighted_sum_int_length (pixs : list (list byte)) :
  forall ws acc, length (weighted_sum_int pixs ws acc) = length acc.
Proof.
  induction pixs as [|p2 pixs IH]; intros [|w ws] acc; cbn [weighted_sum_int];
    try reflexivity. rewrite IH. apply accumulate_int_length.
Qed.

Lemma weighted_sum_int_between (pixs : list (list byte)) (j : nat) (lo hi : Z) :
  forall (ws acc : list Z),
    length ws = length pixs ->
    Forall (fun p2 => length p2 = length acc) pixs ->
    Forall (fun w => 0 <= w) ws ->
    (forall p2, In p2 pixs -> lo <= nth j p2 0 <= hi) ->
    nth j acc 0 + lo * Zsum ws
    <= nth j (weighted_sum_int pixs ws acc) 0
    <= nth j acc 0 + hi * Zsum ws.
Proof.
  induction pixs as [|p2 pixs IH]; intros ws acc Hlen Hp Hws Hb.
  - destruct ws; [|discriminate Hlen]. cbn. lia.
  - destruct ws as [|w ws]; [discriminate Hlen|].
    inversion Hp as [|? ? Hp1 Hp2]; subst. inversion Hws as [|? ? Hw1 Hw2]; subst.
    cbn [weighted_sum_int]. change (Zsum (w :: ws)) with (w + Zsum ws).
    pose proof (IH ws (accumulate_int acc p2 w) ltac:(cbn in Hlen; lia)) as H.
    rewrite accumulate_int_nth in H by exact Hp1.
    assert (Hj : lo <= nth j p2 0 <= hi) by (apply Hb; left; reflexivity).
    pose proof (Zsum_nonneg ws Hw2) as HW.
    specialize (H ltac:(eapply Forall_impl; [|exact Hp2]; cbv beta; intros q Hq;
                        rewrite accumulate_int_length; exact Hq)
                  Hw2 ltac:(intros q Hq; apply Hb; right; exact Hq)).
    nia.
Qed.

Lemma nth_repeat_zero (n j : nat) : nth j (repeat 0 n) 0 = 0.
Proof.
  revert j; induction n as [|n IH]; intros [|j]; cbn; try reflexivity. apply IH.
Qed.

(** The weighted mean of the history, rounded as the code rounds it, stays
    between the bounds of the bytes it averages. *)
Lemma temporal_smoother_between (pixs : list (list byte)) (pix : list byte) :
  1 <= len pixs <= 26000 ->
  Forall (fun p2 => length p2 = length pix /\ Forall is_byte p2) pixs ->
  exists pix3,
    temporal_smoother pixs pix = Ok pix3 /\
    length pix3 = length pix /\
    forall (j : nat) (lo hi : Z),
      (j < length pix)%nat -> 0 <= lo -> hi <= 255 ->
      (forall p2, In p2 pixs -> lo <= nth j p2 0 <= hi) ->
      lo <= uint8_of_float64 (nth j pix3 0%float) <= hi.
Proof.
  intros HL Hp.
  set (L := len pixs) in *.
  pose proof (weight_sum_small L ltac:(lia)) as Hsmall.
  pose proof (weight_sum_pos L ltac:(lia)) as Hpos.
  assert (Hws : Forall (fun w => 0 <= w) (weights_int L)).
  { eapply Forall_impl; [|apply (weights_int_bounds L); lia].
    cbv beta. intros w Hw. lia. }
  assert (HT : weight_sum L = Zsum (weights_int L)).
  { unfold weight_sum. rewrite fold_left_add_Zsum. lia. }
  assert (Hlen : length (weights_int L) = length pixs).
  { unfold weights_int. rewrite length_map, indices_length. unfold L, len. lia. }
  unfold temporal_smoother. fold L.
  rewrite weights_of_int.
  unfold weightsTotal. change 0%float with (float64_of_int 0).
  rewrite weightsTotal_from by (fold (weight_sum L); try assumption; lia).
  fold (weight_sum L).
  replace (repeat (float64_of_int 0) (length pix))
    with (map float64_of_int (repeat 0 (length pix)))
    by (rewrite map_repeat; reflexivity).
  rewrite weighted_sum_exact.
  - cbn [bind]. eexists. split; [reflexivity|]. split.
    + rewrite !length_map, weighted_sum_int_length, repeat_length. reflexivity.
    + intros j lo hi Hj Hlo Hhi Hb.
      rewrite map_map.
      rewrite (nth_indep _ 0%float
                 ((fun x => (float64_of_int x / float64_of_int (weight_sum L))%float) 0)).
      2:{ rewrite length_map, weighted_sum_int_length, repeat_length. exact Hj. }
      rewrite (map_nth (fun x => (float64_of_int x / float64_of_int (weight_sum L))%float)).
      apply quotient_between; try assumption.
      pose proof (weighted_sum_int_between pixs j lo hi (weights_int L)
                    (repeat 0 (length pix)) Hlen) as Hbt.
      rewrite nth_repeat_zero, <- HT in Hbt.
      apply Hbt; [|assumption|assumption].
      eapply Forall_impl; [|exact Hp]. cbv beta. intros q [Hq _].
      rewrite repeat_length. exact Hq.
  - exact Hlen.
  - eapply Forall_impl; [|exact Hp]. cbv beta. intros q [Hq1 Hq2].
    rewrite repeat_length. auto.
  - exact Hws.
  - apply Forall_forall. intros a Ha. apply repeat_spec in Ha. subst a.
    rewrite <- HT. lia.
Qed.

(** X26: the smoother never overshoots.  For a history of at most
    26 000 frames of the newest frame's length, every smoothed value,
    converted to a byte as the distributor does, lies between the smallest
    and the largest byte the history holds at that position; so the
    conversion to [uint8] never wraps. *)
Theorem smoothing_within_history_range (pixs : list (list byte)) (pix : list byte) :
  1 <= len pixs <= 26000 ->
  Forall (fun p2 => length p2 = length pix /\ Forall is_byte p2) pixs ->
  exists pix3,
    temporal_smoother pixs pix = Ok pix3 /\
    length pix3 = length pix /\
    forall (j : nat) (lo hi : Z),
      (j < length pix)%nat -> 0 <= lo -> hi <= 255 ->
      (forall p2, In p2 pixs -> lo <= nth j p2 0 <= hi) ->
      lo <= uint8_of_float64 (nth j pix3 0%float) <= hi.
Proof.
  exact (temporal_smoother_between pixs pix).
Qed.

Lemma smoothing_within_history_range_witness :
  let pixs := [[10; 20; 30; 255]; [12; 18; 30; 255]; [14; 16; 30; 255]] in
  (1 <= len pixs <= 26000 /\
   Forall (fun p2 => length p2 = length [14; 16; 30; 255] /\ Forall is_byte p2) pixs) /\
  exists pix3,
    temporal_smoother pixs [14; 16; 30; 255] = Ok pix3 /\
    length pix3 = length [14; 16; 30; 255] /\
    forall (j : nat) (lo hi : Z),
      (j < length [14; 16; 30; 255])%nat -> 0 <= lo -> hi <= 255 ->
      (forall p2, In p2 pixs -> lo <= nth j p2 0 <= hi) ->
      lo <= uint8_of_float64 (nth j pix3 0%float) <= hi.
Proof.
  cbv zeta.
  assert (HL : 1 <= len [[10; 20; 30; 255]; [12; 18; 30; 255]; [14; 16; 30; 255]] <= 26000)
    by (unfold len; cbn; lia).
  assert (Hp : Forall (fun p2 => length p2 = length [14; 16; 30; 255] /\ Forall is_byte p2)
                 [[10; 20; 30; 255]; [12; 18; 30; 255]; [14; 16; 30; 255]]).
  { repeat (apply Forall_cons;
            [split; [reflexivity|];
             repeat (apply Forall_cons; [unfold is_byte; lia|]); apply Forall_nil|]).
    apply Forall_nil. }
  split; [split; assumption|].
  exact (smoothing_within_history_range _ _ HL Hp).
Defined.

(** * Brightness at the ends of the range *)

Lemma SFleb_true_inv (a b : spec_float) :
  SFleb a b = true -> SFltb b a = false /\ a <> S754_nan /\ b <> S754_nan.
Proof.
  unfold SFleb, SFltb. rewrite (SFcompare_swap a b).
  destruct (SFcompare a b) as [[| |]|] eqn:C; intros H; try discriminate H;
    (split; [reflexivity|]);
    split; intros ->; try discriminate C;
    destruct a as [[|]|[|]| |[|] ma ea]; discriminate C.
Qed.

(** A non-negative mantissa rounds to a zero, a finite number or an
    infinity of the given sign. *)
Lemma binary_round_aux_class (s : bool) (q e : Z) (l : location) :
  0 <= q ->
  binary_round_aux prec emax s q e l = S754_zero s \/
  binary_round_aux prec emax s q e l = S754_infinity s \/
  exists m e', binary_round_aux prec emax s q e l = S754_finite s m e'.
Proof.
  intros Hq. unfold binary_round_aux, shr_fexp.
  set (n1 := fexp prec emax (Zdigits2 q + e) - e).
  pose proof (shr_quotient q e n1 l Hq) as (Hm1 & _ & _).
  destruct (shr (shr_record_of_loc q l) e n1) as [mrs1 e1]. cbn [fst snd] in *.
  assert (H1 : 0 <= shr_m mrs1).
  { rewrite Hm1. apply Z.div_pos; [lia|]. apply Z.pow_pos_nonneg; lia. }
  set (m2 := round_nearest_even (shr_m mrs1) (loc_of_shr_record mrs1)).
  assert (H2 : 0 <= m2).
  { unfold m2. destruct (loc_of_shr_record mrs1) as [|c]; cbn [round_nearest_even];
      [lia|]. destruct c; [destruct (Z.even (shr_m mrs1))| |]; lia. }
  set (n2 := fexp prec emax (Zdigits2 m2 + e1) - e1).
  pose proof (shr_quotient m2 e1 n2 loc_Exact H2) as (Hm3 & _ & _).
  destruct (shr (shr_record_of_loc m2 loc_Exact) e1 n2) as [mrs3 e3]. cbn [fst snd] in *.
  assert (H3 : 0 <= shr_m mrs3).
  { rewrite Hm3. apply Z.div_pos; [lia|]. apply Z.pow_pos_nonneg; lia. }
  destruct (shr_m mrs3) as [|p|p]; [left; reflexivity| |lia].
  right. destruct (e3 <=? emax - prec); [right; eauto|left; reflexivity].
Qed.

Lemma math_Min_one_class (x : float) :
  (exists s, Prim2SF x = S754_zero s) \/ Prim2SF x = S754_infinity false \/
  (exists m e, Prim2SF x = S754_finite false m e) ->
  zero_or_positive (Prim2SF (math_Min x 1)).
Proof.
  intros H. unfold math_Min, IsInf. cbn [Z.ltb Z.compare Z.opp Pos.compare].
  change (1 =? neg_infinity)%float with false.
  change (is_nan 1) with false. rewrite !orb_false_r.
  unfold is_nan. rewrite !eqb_spec, ltb_spec.
  change (Prim2SF neg_infinity) with (S754_infinity true).
  change (Prim2SF 0) with (S754_zero false).
  change (Prim2SF 1) with (S754_finite false 4503599627370496 (-52)).
  destruct H as [[s E]|[E|(m & e & E)]]; rewrite E.
  - cbn. rewrite E. left. eauto.
  - cbn. right. do 2 eexists. reflexivity.
  - unfold SFeqb at 1 2 3 4. cbn [SFcompare negb].
    rewrite Z.compare_refl, Pos.compare_cont_refl. cbn [negb andb].
    destruct (SFltb _ _); [rewrite E|]; right; do 2 eexists; reflexivity.
Qed.

Lemma mul_five_class (peak : float) :
  (0 <=? peak)%float = true ->
  (exists s, Prim2SF (peak * 5) = S754_zero s) \/
  Prim2SF (peak * 5) = S754_infinity false \/
  (exists m e, Prim2SF (peak * 5) = S754_finite false m e).
Proof.
  rewrite leb_spec, mul_spec. change (Prim2SF 0) with (S754_zero false).
  change (Prim2SF 5) with (S754_finite false 5629499534213120 (-50)).
  destruct (Prim2SF peak) as [[|]|[|]| |[|] m e]; intros H; try discriminate H.
  - left. eexists. reflexivity.
  - left. eexists. reflexivity.
  - right. left. reflexivity.
  - unfold SF64mul, SFmul. cbn [xorb].
    destruct (binary_round_aux_class false (Zpos (m * 5629499534213120)) (e + -50)
                loc_Exact ltac:(lia)) as [->|[->|(m' & e' & ->)]]; eauto.
Qed.

Lemma mul_zero_class (t : float) :
  zero_or_positive (Prim2SF t) -> exists s, Prim2SF (t * 0) = S754_zero s.
Proof.
  rewrite mul_spec. change (Prim2SF 0) with (S754_zero false).
  intros [[s ->]|(m & e & ->)]; eexists; reflexivity.
Qed.

Lemma math_Min_ge_one (x : float) : (1 <=? x)%float = true -> math_Min x 1 = 1%float.
Proof.
  rewrite leb_spec. intros H. apply SFleb_true_inv in H as (Hlt & _ & Hn).
  change (Prim2SF 1) with (S754_finite false 4503599627370496 (-52)) in Hlt.
  unfold math_Min, IsInf. cbn [Z.ltb Z.compare Z.opp Pos.compare].
  change (1 =? neg_infinity)%float with false.
  change (is_nan 1) with false. rewrite !orb_false_r.
  rewrite (is_nan_false x Hn).
  rewrite ltb_spec.
  change (Prim2SF 1) with (S754_finite false 4503599627370496 (-52)).
  rewrite Hlt.
  assert (Hinf : (x =? neg_infinity)%float = false).
  { rewrite eqb_spec. change (Prim2SF neg_infinity) with (S754_infinity true).
    destruct (Prim2SF x) as [[|]|[|]| |[|] m e]; try reflexivity; try contradiction.
    discriminate Hlt. }
  rewrite Hinf.
  destruct ((x =? 0)%float && (x =? 1)%float) eqn:Z; [|reflexivity].
  apply andb_true_iff in Z as [Z0 _]. apply eqb_zero_spec in Z0 as [s Z0].
  rewrite Z0 in Hlt. discriminate Hlt.
Qed.

(** X27: the two ends of the brightness curve.  A bin at 0 is shown at
    the floor 0.25 for every peak that is not negative and not NaN, and a
    bin at 1 is shown at exactly 1 as soon as [peak * 5] reaches 1. *)
Theorem brightness_floor_and_ceiling :
  (forall peak, (0 <=? peak)%float = true -> shaped_value 0 peak = 0.25%float) /\
  (forall peak, (1 <=? peak * 5)%float = true -> shaped_value 1 peak = 1%float).
Proof.
  split; intros peak H.
  - unfold shaped_value.
    change (PrimFloat.sqrt (1 - math_Pow_2 (0 - 1)))%float with 0%float.
    destruct (mul_zero_class _ (math_Min_one_class _ (mul_five_class peak H))) as [s E].
    apply zero_cases in E. rewrite E. destruct s; reflexivity.
  - unfold shaped_value. rewrite (math_Min_ge_one _ H). reflexivity.
Qed.

(** * reverse *)

Lemma nth_error_middle {E} (pre : list E) (x : E) (rest : list E) :
  nth_error (pre ++ x :: rest) (length pre) = Some x.
Proof. rewrite nth_error_app2, Nat.sub_diag by lia. reflexivity. Qed.

Lemma set_index_middle {E} (pre : list E) (x y : E) (rest : list E) :
  set_index (pre ++ x :: rest) (length pre) y = pre ++ y :: rest.
Proof.
  induction pre as [|p pre IH]; [reflexivity|].
  cbn [app length set_index]. rewrite IH. reflexivity.
Qed.

Lemma swap_ends {E} (pre mid post : list E) (a b : E) :
  swap (pre ++ a :: mid ++ b :: post) (len pre) (len pre + 1 + len mid)
  = Ok (pre ++ b :: mid ++ a :: post).
Proof.
  unfold swap, len.
  replace ((Z.of_nat (length pre) <? 0)
           || (Z.of_nat (length pre) + 1 + Z.of_nat (length mid) <? 0)) with false
    by (symmetry; apply orb_false_iff; split; apply Z.ltb_ge; lia).
  rewrite Nat2Z.id.
  replace (Z.to_nat (Z.of_nat (length pre) + 1 + Z.of_nat (length mid)))
    with (length (pre ++ a :: mid))
    by (rewrite length_app; cbn [length]; lia).
  rewrite nth_error_middle.
  replace (pre ++ a :: mid ++ b :: post) with ((pre ++ a :: mid) ++ b :: post) at 1
    by (rewrite <- app_assoc; reflexivity).
  rewrite nth_error_middle, set_index_middle.
  replace (pre ++ b :: mid ++ b :: post) with ((pre ++ b :: mid) ++ b :: post)
    by (rewrite <- app_assoc; reflexivity).
  replace (length (pre ++ a :: mid)) with (length (pre ++ b :: mid))
    by (rewrite !length_app; reflexivity).
  rewrite set_index_middle, <- app_assoc. reflexivity.
Qed.

Lemma reverse_loop_middle {E} (fuel : nat) :
  forall (pre mid post : list E),
    (length mid / 2 < fuel)%nat ->
    reverse_loop fuel (len pre) (len pre + len mid - 1) (pre ++ mid ++ post)
    = Some (Ok (pre ++ rev mid ++ post)).
Proof.
  induction fuel as [|fuel IH]; intros pre mid post Hf; [lia|].
  cbn [reverse_loop].
  destruct mid as [|a mid].
  - replace (len pre <? len pre + len (@nil E) - 1) with false
      by (symmetry; apply Z.ltb_ge; unfold len; cbn; lia).
    reflexivity.
  - destruct (exists_last (l := a :: mid) ltac:(discriminate)) as (l & b & El).
    destruct l as [|a' mid'].
    + injection El as <- ->.
      replace (len pre <? len pre + len [a] - 1) with false
        by (symmetry; apply Z.ltb_ge; unfold len; cbn; lia).
      reflexivity.
    + injection El as <- ->.
      assert (Hlen : len (a :: mid' ++ [b]) = len mid' + 2)
        by (unfold len; cbn [length]; rewrite length_app; cbn [length]; lia).
      rewrite Hlen.
      replace (len pre <? len pre + (len mid' + 2) - 1) with true
        by (symmetry; apply Z.ltb_lt; unfold len; lia).
      replace (pre ++ (a :: mid' ++ [b]) ++ post) with (pre ++ a :: mid' ++ b :: post)
        by (cbn [app]; rewrite <- app_assoc; reflexivity).
      replace (len pre + (len mid' + 2) - 1) with (len pre + 1 + len mid') by lia.
      rewrite swap_ends.
      replace (pre ++ b :: mid' ++ a :: post) with ((pre ++ [b]) ++ mid' ++ (a :: post))
        by (rewrite <- app_assoc; reflexivity).
      replace (len pre + 1) with (len (pre ++ [b]))
        by (unfold len; rewrite length_app; cbn [length]; lia).
      replace (len pre + 1 + len mid' - 1) with (len (pre ++ [b]) + len mid' - 1)
        by (unfold len; rewrite length_app; cbn [length]; lia).
      rewrite IH.
      * do 2 f_equal. cbn [rev]. rewrite rev_app_distr. cbn [rev app].
        rewrite <- !app_assoc. reflexivity.
      * cbn [length] in Hf. rewrite length_app in Hf. cbn [length] in Hf.
        replace (S (length mid' + 1)) with (length mid' + 1 * 2)%nat in Hf by lia.
        rewrite Nat.div_add in Hf by lia. lia.
Qed.

(** X28: [reverse] reverses its slice and does not panic, given fuel
    for [len(s)/2] swaps and the final test. *)
Theorem reverse_is_rev {E : Type} (fuel : nat) (s : list E) :
  (length s / 2 < fuel)%nat -> reverse fuel s = Some (Ok (rev s)).
Proof.
  intros Hf. unfold reverse.
  pose proof (reverse_loop_middle fuel [] s [] Hf) as H.
  rewrite !app_nil_r in H. cbn [app] in H. exact H.
Qed.

Lemma reverse_is_rev_witness :
  (length [1; 2; 3; 4; 5] / 2 < 3)%nat /\
  reverse 3 [1; 2; 3; 4; 5] = Some (Ok (rev [1; 2; 3; 4; 5])).
Proof.
  assert (H : (length [1; 2; 3; 4; 5] / 2 < 3)%nat) by (cbn; lia).
  split; [exact H|]. exact (reverse_is_rev 3 [1; 2; 3; 4; 5] H).
Defined.

(** * The alpha channel, end to end *)

(** Segments that fit the smoothed frame are all served from its start. *)
Lemma segment_distributor_ok (segs : list Segment) (pix3 : list float) :
  len pix3 < 2 ^ 63 ->
  Forall (fun seg => 0 <= Leds seg /\ Leds seg * 4 <= len pix3) segs ->
  segment_distributor segs pix3
  = Ok (map (fun seg =>
               {| visualizer.Id := Id seg;
                  visualizer.Pix :=
                    byte_range (map uint8_of_float64 pix3) 0 (Leds seg * 4) |})
            segs).
Proof.
  intros HL. induction 1 as [|seg segs [H0 H1] _ IH]; [reflexivity|].
  cbn [segment_distributor map].
  rewrite segment_pix_prefix, IH by assumption. reflexivity.
Qed.

Section Opaque.
Context {L : Libraries}.

(** X29: the alpha channel stays opaque from the frame to the strips.  For a
    visualizer that is not already processing, with a non-negative LED
    count, a window of at least one frame, segments no longer than the
    frame, and a history of fewer than 26 000 opaque frames of that LED
    count, [process] emits an event, keeps the history opaque, and every
    LED of every emitted segment has alpha 0xFF: averaging and the
    conversion back to bytes never change it.  The frame of
    [4 * maxLedCount] bytes is a Go slice, so that length is an [int]. *)
Theorem process_keeps_alpha_opaque
        (v : Visualizer) (g : Package) (samples : list float) (peak : float) :
  processing v = false ->
  0 <= maxLedCount v ->
  4 * maxLedCount v < 2 ^ 63 ->
  1 <= windowSize v ->
  Forall (fun seg => 0 <= Leds seg <= maxLedCount v) (segments v) ->
  Forall (opaque_frame (maxLedCount v)) (pixs g) ->
  len (pixs g) < 26000 ->
  exists g' e,
    process v g samples peak = Ok (v, g', Some e) /\
    Forall (opaque_frame (maxLedCount v)) (pixs g') /\
    Forall2 (fun seg s =>
               forall k, 0 <= k < Leds seg ->
                         nth (Z.to_nat (4 * k + 3)) (visualizer.Pix s) 0 = 255)
            (segments v) (visualizer.Segments e).
Proof.
  intros Hp Hm Hint Hw Hsegs Hhist Hlen.
  set (M := maxLedCount v) in *.
  destruct (frame_bytes v samples peak Hm) as (pix & F & Lpix & Bpix & Apix).
  fold M in Lpix, Apix.
  assert (Opix : opaque_frame M pix).
  { split; [exact Lpix|]. split; [exact Bpix|].
    intros k Hk. apply nth_error_nth. apply Apix, Hk. }
  unfold process, enter. rewrite Hp. unfold run.
  change (frame (set_processing true v) samples peak) with (frame v samples peak).
  rewrite F. cbn [bind windowSize segments set_processing].
  set (h := push_history (windowSize v) (pixs g) pix).
  assert (Hh : Forall (opaque_frame M) h).
  { apply Forall_forall. intros p2 Hin.
    apply push_history_In in Hin as [Hin| ->]; [|exact Opix].
    rewrite Forall_forall in Hhist. apply Hhist, Hin. }
  assert (Hhl : 1 <= len h <= 26000).
  { destruct (push_history_newest_last (windowSize v) (pixs g) pix ltac:(lia)) as (o & Eo).
    fold h in Eo. split.
    - rewrite Eo, len_app. unfold len. cbn [length]. lia.
    - unfold h, push_history. rewrite len_app. change (len [pix]) with 1.
      destruct (windowSize v <? len (pixs g) + 1).
      + destruct (pixs g ++ [pix]) as [|x t] eqn:Et; [unfold len; cbn; lia|].
        cbn [tl]. apply (f_equal len) in Et. rewrite len_app in Et.
        unfold len in *. cbn [length] in *. lia.
      + rewrite len_app. change (len [pix]) with 1. lia. }
  destruct (temporal_smoother_between h pix Hhl) as (pix3 & -> & L3 & Hrange).
  { eapply Forall_impl; [|exact Hh]. cbv beta. intros p2 (H1 & H2 & _).
    split; [unfold len in *; lia|exact H2]. }
  cbn [bind].
  rewrite segment_distributor_ok.
  2:{ unfold len in *. lia. }
  2:{ eapply Forall_impl; [|exact Hsegs]. cbv beta. intros seg Hseg.
      unfold len in *. lia. }
  cbn [bind fst snd].
  do 2 eexists. split; [|split].
  - f_equal. f_equal. f_equal. apply set_processing_round, Hp.
  - cbn [pixs]. exact Hh.
  - cbn [visualizer.Segments].
    clear -Hsegs Hrange Hh L3 Lpix Hm. induction Hsegs as [|seg segs Hseg _ IH];
      cbn [map]; constructor; [|exact IH].
    cbn [visualizer.Pix]. intros k Hk.
    unfold byte_range. cbn [Z.to_nat skipn].
    rewrite nth_firstn.
    replace (Z.to_nat (4 * k + 3) <? Z.to_nat (Leds seg * 4 - 0))%nat with true
      by (symmetry; apply Nat.ltb_lt; lia).
    change (nth (Z.to_nat (4 * k + 3)) (map uint8_of_float64 pix3) 0)
      with (nth (Z.to_nat (4 * k + 3)) (map uint8_of_float64 pix3)
                (uint8_of_float64 0%float)).
    rewrite map_nth.
    assert (B : 255 <= uint8_of_float64 (nth (Z.to_nat (4 * k + 3)) pix3 0%float) <= 255).
    { apply Hrange; try lia.
      - unfold len in Lpix. lia.
      - intros p2 Hin. rewrite Forall_forall in Hh.
        destruct (Hh p2 Hin) as (_ & _ & A). rewrite A by lia. lia. }
    lia.
Qed.

End Opaque.

Lemma process_keeps_alpha_opaque_witness :
  let v := demo_visualizer 2 2 [{| Id := 0; Leds := 2 |}; {| Id := 1; Leds := 1 |}] false in
  let g := {| pixs := [[9; 9; 9; 255; 9; 9; 9; 255]]; it := 5 |} in
  (processing v = false /\ 0 <= maxLedCount v /\ 4 * maxLedCount v < 2 ^ 63 /\
   1 <= windowSize v /\
   Forall (fun seg => 0 <= Leds seg <= maxLedCount v) (segments v) /\
   Forall (opaque_frame (maxLedCount v)) (pixs g) /\
   len (pixs g) < 26000) /\
  exists g' e,
    @process demo_libraries v g [3%float; 4%float] 1%float = Ok (v, g', Some e) /\
    Forall (opaque_frame (maxLedCount v)) (pixs g') /\
    Forall2 (fun seg s =>
               forall k, 0 <= k < Leds seg ->
                         nth (Z.to_nat (4 * k + 3)) (visualizer.Pix s) 0 = 255)
            (segments v) (visualizer.Segments e).
Proof.
  cbv zeta.
  set (v := demo_visualizer 2 2 [{| Id := 0; Leds := 2 |}; {| Id := 1; Leds := 1 |}] false).
  set (g := {| pixs := [[9; 9; 9; 255; 9; 9; 9; 255]]; it := 5 |}).
  assert (H1 : processing v = false) by reflexivity.
  assert (H2 : 0 <= maxLedCount v) by (cbn; lia).
  assert (H3 : 1 <= windowSize v) by (cbn; lia).
  assert (H4 : Forall (fun seg => 0 <= Leds seg <= maxLedCount v) (segments v))
    by (repeat (apply Forall_cons; [cbn; lia|]); apply Forall_nil).
  assert (H5 : Forall (opaque_frame (maxLedCount v)) (pixs g)).
  { apply Forall_cons; [|apply Forall_nil]. split; [reflexivity|]. split.
    - repeat (apply Forall_cons; [unfold is_byte; lia|]). apply Forall_nil.
    - intros k Hk. cbn in Hk.
      assert (K : k = 0 \/ k = 1) by lia. destruct K as [-> | ->]; reflexivity. }
  assert (H6 : len (pixs g) < 26000) by (unfold len; cbn; lia).
  assert (H7 : 4 * maxLedCount v < 2 ^ 63) by reflexivity.
  split; [repeat split; assumption|].
  exact (@process_keeps_alpha_opaque demo_libraries v g [3%float; 4%float] 1%float
           H1 H2 H7 H3 H4 H5 H6).
Defined.
